(** * gomill: the GTP subprocess channel and the stateful GTP engine

    A shallow embedding of
    - [gomill/nonblocking_gtp_controller.py] (class [Subprocess_gtp_channel]),
    - [gomill/gtp_states.py] (classes [History_move], [Game_state],
      [Move_generator_result] and [Gtp_state]),
    followed by the properties of these two components.

    Python objects mutated in place become explicit state passing: a method
    is a function from the state before the call to an outcome (a returned
    value or a raised exception) and the state after it.  The state after a
    raised exception is kept, because Python keeps it. *)

From Stdlib Require Import ZArith QArith Qround String Ascii List Bool Lia DecimalString Sorted.
From Stdlib Require DecimalZ DecimalPos.
From stdpp Require Import base decidable option list gmap.
Import ListNotations.
Open Scope Z_scope.

(** ** Python values shared by both components *)

(** The exceptions the two modules raise or let through. *)
Inductive exc : Type :=
| GtpError (msg : string)
| GtpTransportError (msg : string)
| ValueError
| TypeError
| IndexError
| OverflowError.

(** The outcome of evaluating a Python expression that may raise. *)
Inductive result (A : Type) : Type :=
| Normal (a : A)
| Raised (e : exc).
Arguments Normal {A} a.
Arguments Raised {A} e.

(** The line feed, Python's ["\n"]. *)
Definition LF : ascii := "010"%char.
Definition nl : string := String LF EmptyString.

(** [s.find(c)] for a one-character needle: the first index, or [-1]. *)
Fixpoint str_find (c : ascii) (s : string) : Z :=
  match s with
  | EmptyString => -1
  | String a s' =>
      if Ascii.eqb a c then 0
      else let i := str_find c s' in
           if i =? -1 then -1 else i + 1
  end.

(** [s[:n]] and [s[n:]] for [0 <= n]. *)
Fixpoint str_take (n : nat) (s : string) : string :=
  match n, s with
  | S n', String a s' => String a (str_take n' s')
  | _, _ => EmptyString
  end.

Fixpoint str_drop (n : nat) (s : string) : string :=
  match n, s with
  | S n', String _ s' => str_drop n' s'
  | _, _ => s
  end.

(** Truth value of a [str]: non-empty. *)
Definition str_true (s : string) : bool :=
  match s with EmptyString => false | String _ _ => true end.

(** [l.remove(x)]: drops the first occurrence, [ValueError] when absent. *)
Fixpoint list_remove {A} `{EqDecision A} (x : A) (l : list A) : option (list A) :=
  match l with
  | [] => None
  | y :: l' =>
      if decide (x = y) then Some l'
      else match list_remove x l' with
           | Some r => Some (y :: r)
           | None => None
           end
  end.

(** ** The transport channel ([nonblocking_gtp_controller.py]) *)

Module Channel.

Inductive pipe : Type := response_pipe | error_pipe.

#[export] Instance pipe_eq_dec : EqDecision pipe.
Proof. solve_decision. Defined.

(** The attributes of a [Subprocess_gtp_channel] that the read methods use
    (the process handle and the command pipe play no part in reading). *)
Record Subprocess_gtp_channel : Type := mk_channel {
  response_data : string;
  seen_eof : bool;
  error_data : list string;
  pipes_to_poll : list pipe;
}.

(** The state after [__init__]. *)
Definition opened : Subprocess_gtp_channel :=
  {| response_data := EmptyString;
     seen_eof := false;
     error_data := [];
     pipes_to_poll := [response_pipe; error_pipe] |}.

(** What the operating system delivers to one call of [_handle_event]:
    either [select.select] returns the list [r] of readable pipes and the
    nonblocking [read()] of the pipe that gets served returns [s] (the empty
    string at end of file), or the call raises [EnvironmentError]. *)
Inductive os_event : Type :=
| Readable (r : list pipe) (s : string)
| EnvironmentError (msg : string).

(** What the caller of a read method observes: a returned string, a raised
    exception, or a [select] that never returns because nothing more ever
    arrives ([Blocked]). *)
Inductive reply : Type :=
| Returned (s : string)
| Failed (e : exc)
| Blocked.

Definition _handle_response_data (s : string) (ch : Subprocess_gtp_channel)
  : result unit * Subprocess_gtp_channel :=
  if str_true s then
    (Normal tt,
     {| response_data := response_data ch ++ s;
        seen_eof := seen_eof ch;
        error_data := error_data ch;
        pipes_to_poll := pipes_to_poll ch |})
  else
    let ch1 := {| response_data := response_data ch;
                  seen_eof := true;
                  error_data := error_data ch;
                  pipes_to_poll := pipes_to_poll ch |} in
    match list_remove response_pipe (pipes_to_poll ch) with
    | Some l =>
        (Normal tt,
         {| response_data := response_data ch;
            seen_eof := true;
            error_data := error_data ch;
            pipes_to_poll := l |})
    | None => (Raised ValueError, ch1)
    end.

Definition _handle_error_data (s : string) (ch : Subprocess_gtp_channel)
  : result unit * Subprocess_gtp_channel :=
  if str_true s then
    (Normal tt,
     {| response_data := response_data ch;
        seen_eof := seen_eof ch;
        error_data := error_data ch ++ [s];
        pipes_to_poll := pipes_to_poll ch |})
  else
    match list_remove error_pipe (pipes_to_poll ch) with
    | Some l =>
        (Normal tt,
         {| response_data := response_data ch;
            seen_eof := seen_eof ch;
            error_data := error_data ch;
            pipes_to_poll := l |})
    | None => (Raised ValueError, ch)
    end.

(** [_handle_event] on the readable set [r]: the error pipe is served first,
    the response pipe only when the error pipe is not readable. *)
Definition _handle_event (r : list pipe) (s : string) (ch : Subprocess_gtp_channel)
  : result unit * Subprocess_gtp_channel :=
  if decide (error_pipe ∈ r) then _handle_error_data s ch
  else if decide (response_pipe ∈ r) then _handle_response_data s ch
  else (Normal tt, ch).

(** [get_response_line]: the [while True] loop runs once per delivered
    event, so it is a recursion on the events still to come.  The result
    carries the channel after the call and the events not yet consumed. *)
Fixpoint get_response_line (events : list os_event) (ch : Subprocess_gtp_channel)
  : reply * Subprocess_gtp_channel * list os_event :=
  let i := str_find LF (response_data ch) in
  if negb (i =? -1) then
    let line := str_take (Z.to_nat (i + 1)) (response_data ch) in
    (Returned line,
     {| response_data := str_drop (Z.to_nat (i + 1)) (response_data ch);
        seen_eof := seen_eof ch;
        error_data := error_data ch;
        pipes_to_poll := pipes_to_poll ch |},
     events)
  else if seen_eof ch then
    (Returned (response_data ch), ch, events)
  else
    match events with
    | [] => (Blocked, ch, [])
    | EnvironmentError msg :: rest => (Failed (GtpTransportError msg), ch, rest)
    | Readable r s :: rest =>
        match _handle_event r s ch with
        | (Normal _, ch') => get_response_line rest ch'
        | (Raised e, ch') => (Failed e, ch', rest)
        end
    end.

(** [get_response_byte], the sibling read method. *)
Fixpoint get_response_byte (events : list os_event) (ch : Subprocess_gtp_channel)
  : reply * Subprocess_gtp_channel * list os_event :=
  if str_true (response_data ch) then
    (Returned (str_take 1 (response_data ch)),
     {| response_data := str_drop 1 (response_data ch);
        seen_eof := seen_eof ch;
        error_data := error_data ch;
        pipes_to_poll := pipes_to_poll ch |},
     events)
  else if seen_eof ch then
    (Returned EmptyString, ch, events)
  else
    match events with
    | [] => (Blocked, ch, [])
    | EnvironmentError msg :: rest => (Failed (GtpTransportError msg), ch, rest)
    | Readable r s :: rest =>
        match _handle_event r s ch with
        | (Normal _, ch') => get_response_byte rest ch'
        | (Raised e, ch') => (Failed e, ch', rest)
        end
    end.

(** [retrieve_diagnostics]. *)
Definition retrieve_diagnostics (ch : Subprocess_gtp_channel)
  : string * Subprocess_gtp_channel :=
  (String.concat EmptyString (error_data ch),
   {| response_data := response_data ch;
      seen_eof := seen_eof ch;
      error_data := [];
      pipes_to_poll := pipes_to_poll ch |}).

(** The bytes that a run of events delivers to the response buffer: the
    data of the events on which the response pipe is the one served. *)
Fixpoint response_bytes (events : list os_event) : string :=
  match events with
  | [] => EmptyString
  | Readable r s :: rest =>
      ((if decide (error_pipe ∈ r) then EmptyString
        else if decide (response_pipe ∈ r) then s else EmptyString)
       ++ response_bytes rest)%string
  | EnvironmentError _ :: rest => response_bytes rest
  end.

(** [k] successive calls of [get_response_line]: the strings returned, in
    order, stopping at a call that fails or blocks. *)
Fixpoint read_lines (k : nat) (events : list os_event) (ch : Subprocess_gtp_channel)
  : list reply :=
  match k with
  | O => []
  | S k' =>
      match get_response_line events ch with
      | (Returned s, ch', events') => Returned s :: read_lines k' events' ch'
      | (other, _, _) => [other]
      end
  end.

(** The same for [get_response_byte]. *)
Fixpoint read_bytes (k : nat) (events : list os_event) (ch : Subprocess_gtp_channel)
  : list reply :=
  match k with
  | O => []
  | S k' =>
      match get_response_byte events ch with
      | (Returned s, ch', events') => Returned s :: read_bytes k' events' ch'
      | (other, _, _) => [other]
      end
  end.

End Channel.

(** ** Values of the engine side ([gtp_states.py]) *)

(** A colour is one of the strings ['b'] and ['w']. *)
Inductive colour : Type := black | white.

#[export] Instance colour_eq_dec : EqDecision colour.
Proof. solve_decision. Defined.

(** Modelled from the spec: [gomill_common.opponent_of] is not among the
    sources; the opponent colour is the other one of the two colours. *)
Definition opponent_of (c : colour) : colour :=
  match c with black => white | white => black end.

(** A point of the board, [(row, col)]. *)
Definition coords : Type := Z * Z.

(** A Python [float], as far as [set_komi] looks at it: a finite float is a
    rational number (every rational is admitted, so every finite float is
    covered), besides the two infinities and [nan]. *)
Inductive pyfloat : Type :=
| Finite (q : Q)
| Infinity (negative : bool)
| NaN.

(** [int(math.floor(f))]: the conversion raises [OverflowError] on an
    infinity and [ValueError] on [nan]. *)
Definition int_floor (f : pyfloat) : result Z :=
  match f with
  | Finite q => Normal (Qfloor q)
  | Infinity _ => Raised OverflowError
  | NaN => Raised ValueError
  end.

(** [f < 0]. *)
Definition float_negative (f : pyfloat) : bool :=
  match f with
  | Finite q => if Qlt_le_dec q 0 then true else false
  | Infinity negative => negative
  | NaN => false
  end.

(** *** The collaborators that are not part of these two modules *)

(** The [boards.Board] capability.  A board is a value here: [copy()] is the
    identity, and [play], which mutates the board in place, returns the board
    after the move together with the simple-ko point it reports.  A move that
    is refused raises (a [ValueError] for an illegal move) and leaves the
    board as it was. *)
Class Board_ops (Board : Type) : Type := {
  Board_new : Z -> Board;
  Board_play : Board -> Z -> Z -> colour -> result (Board * option coords);
  Board_is_empty : Board -> bool;
  Board_get : Board -> Z -> Z -> option colour;
}.

Definition Board_copy {Board : Type} (b : Board) : Board := b.

(** What [board_tests.py] checks of every board: a new board is empty, and a
    move on an occupied point is refused. *)
Class Board_laws (Board : Type) `{Board_ops Board} : Prop := {
  Board_new_is_empty : forall n, Board_is_empty (Board_new n) = true;
  Board_play_occupied :
    forall b row col c c', Board_get b row col = Some c' ->
                           Board_play b row col c = Raised ValueError;
}.

(** The argument parsers of [gtp_engine], [gomill_common.format_vertex] and
    the two functions of [handicap_layout] the engine calls.  A parser
    returns its value or raises; [handicap_points] answers [None] for its
    [ValueError]. *)
Class Gtp_helpers : Type := {
  interpret_int : string -> result Z;
  interpret_float : string -> result pyfloat;
  interpret_colour : string -> result colour;
  interpret_vertex : string -> Z -> result (option coords);
  format_vertex : coords -> string;
  handicap_points : Z -> Z -> option (list coords);
  max_free_handicap_for_board_size : Z -> Z;
}.

(** What the methods of a parsed SGF game answer: [get_komi] and
    [get_handicap] answer [None] for their [ValueError],
    [get_setup_and_moves] answers the message of its [ValueError] or the
    setup board and the moves. *)
Record Sgf_game (Board : Type) : Type := mk_sgf {
  get_size : Z;
  get_komi : option pyfloat;
  get_handicap : option (option Z);
  get_setup_and_moves : string + (Board * list (colour * option coords));
}.
Arguments mk_sgf {Board}.
Arguments get_size {Board}.
Arguments get_komi {Board}.
Arguments get_handicap {Board}.
Arguments get_setup_and_moves {Board}.

(** The file system and [sgf_reader.read_sgf] as [handle_loadsgf] sees
    them: reading a file gives its text or fails with [EnvironmentError]
    ([None]); parsing gives a game or fails with [ValueError] ([None]). *)
Class Sgf_files (Board : Type) : Type := {
  open_read : string -> option string;
  read_sgf : string -> option (Sgf_game Board);
}.

(** *** The classes of [gtp_states.py] *)

Section Engine.

Context {Board : Type} {Cookie : Type} {GenSt : Type}.
Context `{Board_ops Board} `{Gtp_helpers} `{Sgf_files Board}.

Record History_move : Type := mk_History_move {
  hm_colour : colour;
  hm_coords : option coords;
  hm_comments : option string;
  hm_cookie : option Cookie;
}.

Definition is_pass (move : History_move) : bool :=
  match hm_coords move with None => true | Some _ => false end.

Record Game_state : Type := mk_Game_state {
  gs_size : Z;
  gs_board : Board;
  gs_komi : Z;
  gs_history_base : Board;
  gs_move_history : list History_move;
  gs_ko_point : option coords;
  gs_handicap : option Z;
  gs_for_regression : bool;
  gs_time_settings : option (Z * Z * Z);
  gs_time_remaining : option Z;
  gs_canadian_stones_remaining : option Z;
}.

Record Move_generator_result : Type := mk_Move_generator_result {
  resign : bool;
  pass_move : bool;
  move : option coords;
  claim : bool;
  comments : option string;
  cookie : option Cookie;
}.

(** The attributes of a [Gtp_state].  [time_status] is a dictionary with
    the two keys ['b'] and ['w']: a pair, black's entry first.  The
    [move_generator] attribute is the section variable below. *)
Record Gtp_state : Type := mk_Gtp_state {
  komi : Z;
  time_settings : option (Z * Z * Z);
  time_status : (option Z * option Z) * (option Z * option Z);
  acceptable_sizes : gset Z;
  board_size : Z;
  board : Board;
  handicap : option Z;
  simple_ko_point : option coords;
  simple_ko_player : option colour;
  history_base : Board;
  move_history : list History_move;
}.

(** The move generator: a callable taking [(game_state, colour)].  It may
    keep state of its own between calls, which is threaded as [GenSt]. *)
Variable move_generator :
  GenSt -> Game_state -> colour -> Move_generator_result * GenSt.

(** One call of the move generator, as an observer sees it. *)
Record generator_call : Type := mk_call {
  call_game_state : Game_state;
  call_colour : colour;
  call_answer : Move_generator_result;
}.

(** What a handler runs in: the [Gtp_state] object, the state of the move
    generator, and the calls made to the generator so far (oldest first). *)
Record World : Type := mk_World {
  self : Gtp_state;
  generator : GenSt;
  generator_calls : list generator_call;
}.

(** **** Attribute assignment *)

Definition set_komi_attr (v : Z) (s : Gtp_state) : Gtp_state :=
  mk_Gtp_state v (time_settings s) (time_status s) (acceptable_sizes s)
    (board_size s) (board s) (handicap s) (simple_ko_point s)
    (simple_ko_player s) (history_base s) (move_history s).

Definition set_time_settings (v : option (Z * Z * Z)) (s : Gtp_state) : Gtp_state :=
  mk_Gtp_state (komi s) v (time_status s) (acceptable_sizes s)
    (board_size s) (board s) (handicap s) (simple_ko_point s)
    (simple_ko_player s) (history_base s) (move_history s).

Definition set_time_status (v : (option Z * option Z) * (option Z * option Z))
    (s : Gtp_state) : Gtp_state :=
  mk_Gtp_state (komi s) (time_settings s) v (acceptable_sizes s)
    (board_size s) (board s) (handicap s) (simple_ko_point s)
    (simple_ko_player s) (history_base s) (move_history s).

Definition set_board_size (v : Z) (s : Gtp_state) : Gtp_state :=
  mk_Gtp_state (komi s) (time_settings s) (time_status s) (acceptable_sizes s)
    v (board s) (handicap s) (simple_ko_point s)
    (simple_ko_player s) (history_base s) (move_history s).

Definition set_board (v : Board) (s : Gtp_state) : Gtp_state :=
  mk_Gtp_state (komi s) (time_settings s) (time_status s) (acceptable_sizes s)
    (board_size s) v (handicap s) (simple_ko_point s)
    (simple_ko_player s) (history_base s) (move_history s).

Definition set_handicap (v : option Z) (s : Gtp_state) : Gtp_state :=
  mk_Gtp_state (komi s) (time_settings s) (time_status s) (acceptable_sizes s)
    (board_size s) (board s) v (simple_ko_point s)
    (simple_ko_player s) (history_base s) (move_history s).

Definition set_simple_ko_point (v : option coords) (s : Gtp_state) : Gtp_state :=
  mk_Gtp_state (komi s) (time_settings s) (time_status s) (acceptable_sizes s)
    (board_size s) (board s) (handicap s) v
    (simple_ko_player s) (history_base s) (move_history s).

Definition set_simple_ko_player (v : option colour) (s : Gtp_state) : Gtp_state :=
  mk_Gtp_state (komi s) (time_settings s) (time_status s) (acceptable_sizes s)
    (board_size s) (board s) (handicap s) (simple_ko_point s)
    v (history_base s) (move_history s).

Definition set_history_base_attr (v : Board) (s : Gtp_state) : Gtp_state :=
  mk_Gtp_state (komi s) (time_settings s) (time_status s) (acceptable_sizes s)
    (board_size s) (board s) (handicap s) (simple_ko_point s)
    (simple_ko_player s) v (move_history s).

Definition set_move_history (v : list History_move) (s : Gtp_state) : Gtp_state :=
  mk_Gtp_state (komi s) (time_settings s) (time_status s) (acceptable_sizes s)
    (board_size s) (board s) (handicap s) (simple_ko_point s)
    (simple_ko_player s) (history_base s) v.

(** [time_status[colour]] and [time_status[colour] = v]. *)
Definition time_status_get (c : colour)
    (ts : (option Z * option Z) * (option Z * option Z)) : option Z * option Z :=
  match c with black => fst ts | white => snd ts end.

Definition time_status_put (c : colour) (v : option Z * option Z)
    (ts : (option Z * option Z) * (option Z * option Z))
  : (option Z * option Z) * (option Z * option Z) :=
  match c with black => (v, snd ts) | white => (fst ts, v) end.

(** **** The monad of handlers: state and exceptions *)

Definition M (A : Type) : Type := World -> result A * World.

Definition ret {A} (a : A) : M A := fun w => (Normal a, w).

Definition bind {A B} (m : M A) (k : A -> M B) : M B :=
  fun w =>
    match m w with
    | (Normal a, w') => k a w'
    | (Raised e, w') => (Raised e, w')
    end.

Definition raise {A} (e : exc) : M A := fun w => (Raised e, w).

(** A pure computation that may raise, run inside a handler. *)
Definition lift {A} (r : result A) : M A := fun w => (r, w).

Definition get_self : M Gtp_state := fun w => (Normal (self w), w).

Definition assign (f : Gtp_state -> Gtp_state) : M unit :=
  fun w => (Normal tt, mk_World (f (self w)) (generator w) (generator_calls w)).

(** [try: m  except E: handler]: [handler e] is [Some h] for the
    exceptions the clause catches. *)
Definition try_except {A} (m : M A) (handler : exc -> option (M A)) : M A :=
  fun w =>
    match m w with
    | (Normal a, w') => (Normal a, w')
    | (Raised e, w') =>
        match handler e with
        | Some h => h w'
        | None => (Raised e, w')
        end
    end.

Definition on_ValueError {A} (h : M A) (e : exc) : option (M A) :=
  match e with ValueError => Some h | _ => None end.

Definition on_IndexError {A} (h : M A) (e : exc) : option (M A) :=
  match e with IndexError => Some h | _ => None end.

Definition on_OverflowError {A} (h : M A) (e : exc) : option (M A) :=
  match e with OverflowError => Some h | _ => None end.

(** [for x in xs: body], with the local variables the body assigns. *)
Fixpoint for_in {A L} (xs : list A) (locals : L) (body : A -> L -> M L) : M L :=
  match xs with
  | [] => ret locals
  | x :: xs' => bind (body x locals) (fun locals' => for_in xs' locals' body)
  end.

(** [xrange(n)]. *)
Definition xrange (n : Z) : list Z := map Z.of_nat (seq 0 (Z.to_nat n)).

(** [args[i]]. *)
Definition arg_at (args : list string) (i : nat) : M string :=
  match nth_error args i with
  | Some a => ret a
  | None => raise IndexError
  end.

(** Modelled from the spec: [gtp_engine.report_bad_arguments] is not among
    the sources; it always raises, and the spec counts its "bad arguments"
    condition among the protocol failures. *)
Definition report_bad_arguments {A} : M A := raise (GtpError "invalid arguments").

(** [self.move_generator(game_state, colour)]. *)
Definition call_move_generator (game_state : Game_state) (c : colour)
  : M Move_generator_result :=
  fun w =>
    let (generated, g') := move_generator (generator w) game_state c in
    (Normal generated,
     mk_World (self w) g' (generator_calls w ++ [mk_call game_state c generated])).

(** [self.board.play(row, col, colour)]. *)
Definition play_on_board (row col : Z) (c : colour) : M (option coords) :=
  fun w =>
    match Board_play (board (self w)) row col c with
    | Normal (b', ko) =>
        (Normal ko, mk_World (set_board b' (self w)) (generator w) (generator_calls w))
    | Raised e => (Raised e, w)
    end.

Notation "x <- m ;; k" := (bind m (fun x => k))
  (at level 90, m at level 89, right associativity).
Notation "m ;;; k" := (bind m (fun _ => k))
  (at level 90, right associativity).

(** **** Methods of [Gtp_state] *)

(** [reset]. *)
Definition reset : M unit :=
  s <- get_self ;;
  assign (set_board (Board_new (board_size s))) ;;;
  assign (set_handicap None) ;;;
  assign (set_simple_ko_point None) ;;;
  assign (set_simple_ko_player None) ;;;
  assign (set_history_base_attr (Board_new (board_size s))) ;;;
  assign (set_move_history []).

(** [min] of a set of integers; [None] is the [ValueError] of an empty
    argument. *)
Definition py_min (X : gset Z) : option Z :=
  match elements X with
  | [] => None
  | x :: xs => Some (fold_left Z.min xs x)
  end.

(** [__init__]: the attributes assigned before the call of [reset], then
    [reset].  [acceptable_sizes] is [None] or the collection given.  The six
    attributes that only [reset] assigns ([board], [handicap],
    [simple_ko_point], [simple_ko_player], [history_base], [move_history]) do
    not exist before it runs.  The record needs a value for them: it holds
    values that [reset] does not assign (a board of size 0, a handicap of 0,
    a ko ban for Black, one recorded pass), so whatever the constructed
    state holds in them was put there by [reset].  The same goes for
    [board_size] when [min] raises. *)
Definition Gtp_state_init (acceptable_sizes : option (list Z)) (g : GenSt)
  : result unit * World :=
  let sizes : gset Z :=
    match acceptable_sizes with
    | None => {[ 19 ]}
    | Some l => list_to_set l
    end in
  let size : option Z :=
    match acceptable_sizes with
    | None => Some 19
    | Some _ => py_min sizes
    end in
  let before_reset (board_size : Z) : Gtp_state :=
    mk_Gtp_state 0 None ((None, None), (None, None)) sizes board_size
      (Board_new 0) (Some 0) (Some (0, 0)) (Some black) (Board_new 0)
      [mk_History_move black None None None] in
  match size with
  | None => (Raised ValueError, mk_World (before_reset 0) g [])
  | Some n => reset (mk_World (before_reset n) g [])
  end.

(** [set_history_base]. *)
Definition set_history_base (b : Board) : M unit :=
  assign (set_history_base_attr b) ;;;
  assign (set_move_history []).

(** The body of the loop of [reset_to_moves].  Its locals are
    [simple_ko_point] and [simple_ko_player]; the branch for a pass assigns
    the attribute [self.simple_ko_point], not the local. *)
Definition reset_to_moves_body (move : History_move)
    (locals : option coords * option colour) : M (option coords * option colour) :=
  let '(simple_ko_point, simple_ko_player) := locals in
  if is_pass move then
    assign (set_simple_ko_point None) ;;;
    ret (simple_ko_point, simple_ko_player)
  else
    match hm_coords move with
    | None => raise TypeError
    | Some (row, col) =>
        ko <- play_on_board row col (hm_colour move) ;;
        ret (ko, Some (opponent_of (hm_colour move)))
    end.

(** [reset_to_moves]. *)
Definition reset_to_moves (moves : list History_move) : M unit :=
  s <- get_self ;;
  assign (set_board (Board_copy (history_base s))) ;;;
  locals <- for_in moves (None, None) reset_to_moves_body ;;
  assign (set_simple_ko_point (fst locals)) ;;;
  assign (set_simple_ko_player (snd locals)) ;;;
  assign (set_move_history moves).

(** [set_komi].  The [else] clause of the [try] statement cannot raise, so
    it is written at the end of the [try] body. *)
Definition set_komi (f : pyfloat) : M unit :=
  let max_komi := 625 in
  k <- try_except
         (k <- lift (int_floor f) ;;
          let k := if k <? - max_komi then - max_komi else k in
          let k := if k >? max_komi then max_komi else k in
          ret k)
         (on_OverflowError
            (if float_negative f then ret (- max_komi) else ret max_komi)) ;;
  assign (set_komi_attr k).

Definition handle_boardsize (args : list string) : M (option string) :=
  size <- try_except (a <- arg_at args 0 ;; lift (interpret_int a))
                     (on_IndexError report_bad_arguments) ;;
  s <- get_self ;;
  if decide (size ∈ acceptable_sizes s) then
    assign (set_board_size size) ;;;
    reset ;;;
    ret None
  else raise (GtpError "unacceptable size").

Definition handle_clear_board (args : list string) : M (option string) :=
  reset ;;; ret None.

Definition handle_komi (args : list string) : M (option string) :=
  f <- try_except (a <- arg_at args 0 ;; lift (interpret_float a))
                  (on_IndexError report_bad_arguments) ;;
  set_komi f ;;;
  ret None.

Definition handle_fixed_handicap (args : list string) : M (option string) :=
  number_of_stones <-
    try_except (a <- arg_at args 0 ;; lift (interpret_int a))
               (on_IndexError report_bad_arguments) ;;
  s <- get_self ;;
  if negb (Board_is_empty (board s)) then raise (GtpError "board not empty")
  else
    match handicap_points number_of_stones (board_size s) with
    | None => raise (GtpError "invalid number of stones")
    | Some points =>
        for_in points tt
          (fun '(row, col) _ => play_on_board row col black ;;; ret tt) ;;;
        assign (set_simple_ko_point None) ;;;
        assign (set_handicap (Some number_of_stones)) ;;;
        s' <- get_self ;;
        set_history_base (Board_copy (board s')) ;;;
        ret (Some (String.concat " "%string (map format_vertex points)))
    end.

Definition handle_set_free_handicap (args : list string) : M (option string) :=
  (if (Z.of_nat (length args) <? 2) then report_bad_arguments else ret tt) ;;;
  for_in args tt
    (fun vertex_s _ =>
       s <- get_self ;;
       v <- lift (interpret_vertex vertex_s (board_size s)) ;;
       match v with
       | None => raise TypeError
       | Some (row, col) =>
           try_except (play_on_board row col black ;;; ret tt)
             (on_ValueError
                (raise (GtpError ("engine error: " ++ vertex_s ++ " is occupied"))))
       end) ;;;
  s' <- get_self ;;
  set_history_base (Board_copy (board s')) ;;;
  assign (set_handicap (Some (Z.of_nat (length args)))) ;;;
  assign (set_simple_ko_point None) ;;;
  ret None.

(** The body of the loop of [handle_place_free_handicap]; its locals are
    [moves] and [fake_komi]. *)
Definition place_free_handicap_body (max_fake_komi : Z)
    (locals : list coords * Z) : M (list coords * Z) :=
  let '(moves, fake_komi) := locals in
  s <- get_self ;;
  let game_state :=
    {| gs_size := board_size s;
       gs_board := board s;
       gs_history_base := board s;
       gs_move_history := [];
       gs_komi := fake_komi;
       gs_ko_point := None;
       gs_handicap := None;
       gs_time_settings := time_settings s;
       gs_time_remaining := None;
       gs_canadian_stones_remaining := None;
       gs_for_regression := false |} in
  generated <- call_move_generator game_state black ;;
  if pass_move generated then ret (moves, fake_komi)
  else if resign generated then ret (moves, 0)
  else
    let fake_komi := Z.min (fake_komi + 5) max_fake_komi in
    match move generated with
    | None => raise TypeError
    | Some (row, col) =>
        try_except (play_on_board row col black ;;; ret tt)
          (on_ValueError
             (raise (GtpError ("engine error: tried to play "
                               ++ format_vertex (row, col))))) ;;;
        ret (moves ++ [(row, col)], fake_komi)
    end.

Definition handle_place_free_handicap (args : list string) : M (option string) :=
  number_of_stones <-
    try_except (a <- arg_at args 0 ;; lift (interpret_int a))
               (on_IndexError report_bad_arguments) ;;
  s <- get_self ;;
  let max_points := max_free_handicap_for_board_size (board_size s) in
  if negb ((2 <=? number_of_stones) && (number_of_stones <=? max_points)) then
    raise (GtpError "invalid number of stones")
  else if negb (Board_is_empty (board s)) then
    raise (GtpError "board not empty")
  else
    let number_of_stones :=
      if number_of_stones =? max_points then max_points - 1
      else number_of_stones in
    let max_fake_komi := board_size s * board_size s - 2 in
    locals <- for_in (xrange number_of_stones) ([], 0)
                (fun _ locals => place_free_handicap_body max_fake_komi locals) ;;
    assign (set_simple_ko_point None) ;;;
    assign (set_handicap (Some number_of_stones)) ;;;
    s' <- get_self ;;
    set_history_base (Board_copy (board s')) ;;;
    ret (Some (String.concat " "%string (map format_vertex (fst locals)))).

(** [self.move_history.append(m)]. *)
Definition append_move (m : History_move) : M unit :=
  s <- get_self ;;
  assign (set_move_history (move_history s ++ [m])).

Definition handle_play (args : list string) : M (option string) :=
  unpacked <-
    match firstn 2 args with
    | [a0; a1] => ret (a0, a1)
    | _ => report_bad_arguments
    end ;;
  let '(colour_s, vertex_s) := unpacked in
  colour <- lift (interpret_colour colour_s) ;;
  s <- get_self ;;
  coords <- lift (interpret_vertex vertex_s (board_size s)) ;;
  match coords with
  | None =>
      assign (set_simple_ko_point None) ;;;
      append_move (mk_History_move colour None None None) ;;;
      ret None
  | Some (row, col) =>
      try_except
        (ko <- play_on_board row col colour ;;
         assign (set_simple_ko_point ko) ;;;
         assign (set_simple_ko_player (Some (opponent_of colour))))
        (on_ValueError (raise (GtpError "illegal move"))) ;;;
      append_move (mk_History_move colour (Some (row, col)) None None) ;;;
      ret None
  end.

(** The [Game_state] that [_handle_genmove] assembles (the assignments
    between the parsing of the colour and the call of the generator). *)
Definition genmove_game_state (s : Gtp_state) (colour : colour)
    (for_regression : bool) : Game_state :=
  {| gs_size := board_size s;
     gs_board := board s;
     gs_history_base := history_base s;
     gs_move_history := move_history s;
     gs_komi := komi s;
     gs_for_regression := for_regression;
     gs_ko_point :=
       match simple_ko_point s with
       | Some p =>
           if decide (simple_ko_player s = Some colour) then Some p else None
       | None => None
       end;
     gs_handicap := handicap s;
     gs_time_settings := time_settings s;
     gs_time_remaining := fst (time_status_get colour (time_status s));
     gs_canadian_stones_remaining := snd (time_status_get colour (time_status s)) |}.

Definition _handle_genmove (args : list string) (for_regression allow_claim : bool)
  : M (option string) :=
  colour <- try_except (a <- arg_at args 0 ;; lift (interpret_colour a))
                       (on_IndexError report_bad_arguments) ;;
  s <- get_self ;;
  generated <- call_move_generator (genmove_game_state s colour for_regression) colour ;;
  if allow_claim && claim generated then ret (Some "claim"%string)
  else if resign generated then ret (Some "resign"%string)
  else if pass_move generated then
    (if negb for_regression then
       append_move (mk_History_move colour None (comments generated) (cookie generated))
     else ret tt) ;;;
    ret (Some "pass"%string)
  else
    match move generated with
    | None => raise TypeError
    | Some (row, col) =>
        let vertex := format_vertex (row, col) in
        (if negb for_regression then
           try_except
             (ko <- play_on_board row col colour ;;
              assign (set_simple_ko_point ko) ;;;
              assign (set_simple_ko_player (Some (opponent_of colour))))
             (on_ValueError
                (raise (GtpError ("engine error: tried to play " ++ vertex)))) ;;;
           append_move (mk_History_move colour (Some (row, col))
                          (comments generated) (cookie generated))
         else ret tt) ;;;
        ret (Some vertex)
    end.

Definition handle_genmove (args : list string) : M (option string) :=
  _handle_genmove args false false.

Definition handle_genmove_claim (args : list string) : M (option string) :=
  _handle_genmove args false true.

Definition handle_reg_genmove (args : list string) : M (option string) :=
  _handle_genmove args true false.

Definition handle_undo (args : list string) : M (option string) :=
  s <- get_self ;;
  match move_history s with
  | [] => raise (GtpError "cannot undo")
  | _ =>
      try_except (reset_to_moves (removelast (move_history s)))
                 (on_ValueError (raise (GtpError "corrupt history"))) ;;;
      ret None
  end.

Definition handle_loadsgf (args : list string) : M (option string) :=
  pathname <- try_except (arg_at args 0) (on_IndexError report_bad_arguments) ;;
  move_number <-
    (if (1 <? Z.of_nat (length args)) then
       a <- arg_at args 1 ;;
       n <- lift (interpret_int a) ;;
       ret (Some n)
     else ret None) ;;
  s_text <- match open_read pathname with
            | Some t => ret t
            | None => raise (GtpError "cannot load file")
            end ;;
  sgf <- match read_sgf s_text with
         | Some g => ret g
         | None => raise (GtpError "cannot load file")
         end ;;
  let new_size := get_size sgf in
  s <- get_self ;;
  if negb (bool_decide (new_size ∈ acceptable_sizes s)) then
    raise (GtpError "unacceptable size")
  else
    assign (set_board_size new_size) ;;;
    komi <- match get_komi sgf with
            | Some k => ret k
            | None => raise (GtpError "bad komi")
            end ;;
    let handicap := match get_handicap sgf with
                    | Some h => h
                    | None => None
                    end in
    setup <- match get_setup_and_moves sgf with
             | inr x => ret x
             | inl e => raise (GtpError e)
             end ;;
    let '(sgf_board, raw_sgf_moves) := setup in
    let sgf_moves :=
      map (fun m => mk_History_move (fst m) (snd m) None None) raw_sgf_moves in
    let new_move_history :=
      match move_number with
      | None => sgf_moves
      | Some move_number => firstn (Z.to_nat (Z.max 0 (move_number - 1))) sgf_moves
      end in
    s1 <- get_self ;;
    let old_history_base := history_base s1 in
    let old_move_history := move_history s1 in
    try_except
      (set_history_base sgf_board ;;;
       reset_to_moves new_move_history)
      (on_ValueError
         (try_except
            (set_history_base old_history_base ;;;
             reset_to_moves old_move_history)
            (on_ValueError
               (raise (GtpError "bad move in file and corrupt history"))) ;;;
          raise (GtpError "bad move in file"))) ;;;
    set_komi komi ;;;
    assign (set_handicap handicap) ;;;
    ret None.

Definition handle_time_left (args : list string) : M (option string) :=
  parsed <-
    try_except
      (a0 <- arg_at args 0 ;;
       colour <- lift (interpret_colour a0) ;;
       a1 <- arg_at args 1 ;;
       time_remaining <- lift (interpret_int a1) ;;
       a2 <- arg_at args 2 ;;
       stones_remaining <- lift (interpret_int a2) ;;
       ret (colour, time_remaining, stones_remaining))
      (on_IndexError report_bad_arguments) ;;
  let '(colour, time_remaining, stones_remaining) := parsed in
  let stones_remaining :=
    if stones_remaining =? 0 then None else Some stones_remaining in
  s <- get_self ;;
  assign (set_time_status
            (time_status_put colour (Some time_remaining, stones_remaining)
               (time_status s))) ;;;
  ret None.

Definition handle_time_settings (args : list string) : M (option string) :=
  parsed <-
    try_except
      (a0 <- arg_at args 0 ;;
       main_time <- lift (interpret_int a0) ;;
       a1 <- arg_at args 1 ;;
       canadian_time <- lift (interpret_int a1) ;;
       a2 <- arg_at args 2 ;;
       canadian_stones <- lift (interpret_int a2) ;;
       ret (main_time, canadian_time, canadian_stones))
      (on_IndexError report_bad_arguments) ;;
  assign (set_time_settings (Some parsed)) ;;;
  ret None.

Definition handle_explain_last_move (args : list string) : M (option string) :=
  s <- get_self ;;
  match last (move_history s) with
  | Some m => ret (hm_comments m)
  | None => ret None
  end.

(** The commands of [get_handlers] and [get_time_handlers] that the
    properties below speak of.  ([showboard] and [gomill-savesgf] assign no
    attribute; they are left out.) *)
Inductive command : Type :=
| boardsize | clear_board | komi_cmd | fixed_handicap | set_free_handicap
| place_free_handicap | play | genmove | genmove_claim | reg_genmove
| undo | loadsgf | explain_last_move | time_left | time_settings_cmd.

Definition handler (c : command) : list string -> M (option string) :=
  match c with
  | boardsize => handle_boardsize
  | clear_board => handle_clear_board
  | komi_cmd => handle_komi
  | fixed_handicap => handle_fixed_handicap
  | set_free_handicap => handle_set_free_handicap
  | place_free_handicap => handle_place_free_handicap
  | play => handle_play
  | genmove => handle_genmove
  | genmove_claim => handle_genmove_claim
  | reg_genmove => handle_reg_genmove
  | undo => handle_undo
  | loadsgf => handle_loadsgf
  | explain_last_move => handle_explain_last_move
  | time_left => handle_time_left
  | time_settings_cmd => handle_time_settings
  end.

(** A session: the commands are dispatched one after the other; a raised
    exception ends one command, not the session.  The outcome of each
    command is recorded. *)
Fixpoint run_commands (cmds : list (command * list string)) (w : World)
  : list (result (option string)) * World :=
  match cmds with
  | [] => ([], w)
  | (c, args) :: rest =>
      let (r, w') := handler c args w in
      let (rs, w'') := run_commands rest w' in
      (r :: rs, w'')
  end.

End Engine.

(** ** A board to run the engine on *)

(** Modelled from the spec: [gomill/boards.py] is not among the sources.
    The board below has a fixed side; each point is empty or holds a stone
    of one colour; [play] refuses an occupied point with [ValueError],
    removes the opponent's groups left without liberties, permits
    self-capture (the docstring of [Gtp_state]: "It permits self-captures"),
    and reports the simple-ko point: the point of a single captured stone,
    when the capturing stone stands alone with that point as its only
    liberty.  A point off the board raises [IndexError]. *)
Module GoBoard.

Record t : Type := mk_board {
  side : Z;
  stones : list (option colour);   (* row by row, [side * side] entries *)
}.

Definition new (n : Z) : t := mk_board n (replicate (Z.to_nat (n * n)) None).

Definition on_board (bd : t) (p : coords) : bool :=
  (0 <=? fst p) && (fst p <? side bd) && (0 <=? snd p) && (snd p <? side bd).

Definition index (bd : t) (p : coords) : nat := Z.to_nat (fst p * side bd + snd p).

Definition get (bd : t) (p : coords) : option colour :=
  if on_board bd p then
    match stones bd !! index bd p with
    | Some v => v
    | None => None
    end
  else None.

Definition put (bd : t) (p : coords) (v : option colour) : t :=
  mk_board (side bd) (<[ index bd p := v ]> (stones bd)).

Definition neighbours (bd : t) (p : coords) : list coords :=
  List.filter (on_board bd)
    [(fst p - 1, snd p); (fst p + 1, snd p); (fst p, snd p - 1); (fst p, snd p + 1)].

(** The stones of colour [c] connected to the points of [todo]. *)
Fixpoint flood (fuel : nat) (bd : t) (c : colour) (todo seen : list coords)
  : list coords :=
  match fuel with
  | O => seen
  | S fuel' =>
      match todo with
      | [] => seen
      | p :: todo' =>
          if bool_decide (p ∈ seen) then flood fuel' bd c todo' seen
          else if bool_decide (get bd p = Some c) then
            flood fuel' bd c (neighbours bd p ++ todo') (p :: seen)
          else flood fuel' bd c todo' seen
      end
  end.

Definition group (bd : t) (p : coords) : list coords :=
  match get bd p with
  | Some c => flood (4 * length (stones bd) + 2) bd c [p] []
  | None => []
  end.

Definition liberties (bd : t) (g : list coords) : list coords :=
  remove_dups
    (flat_map (fun p => List.filter (fun q => bool_decide (get bd q = None))
                          (neighbours bd p)) g).

Definition remove_stones (bd : t) (g : list coords) : t :=
  fold_left (fun b p => put b p None) g bd.

Definition play (bd : t) (row col : Z) (c : colour) : result (t * option coords) :=
  let p := (row, col) in
  if negb (on_board bd p) then Raised IndexError
  else
    match get bd p with
    | Some _ => Raised ValueError
    | None =>
        let bd1 := put bd p (Some c) in
        let captured :=
          remove_dups
            (flat_map
               (fun q =>
                  if bool_decide (get bd1 q = Some (opponent_of c)) then
                    let g := group bd1 q in
                    match liberties bd1 g with
                    | [] => g
                    | _ => []
                    end
                  else [])
               (neighbours bd1 p)) in
        let bd2 := remove_stones bd1 captured in
        let own := group bd2 p in
        match captured with
        | [] =>
            match liberties bd2 own with
            | [] => Normal (remove_stones bd2 own, None)
            | _ => Normal (bd2, None)
            end
        | [q] =>
            match own, liberties bd2 own with
            | [_], [_] => Normal (bd2, Some q)
            | _, _ => Normal (bd2, None)
            end
        | _ => Normal (bd2, None)
        end
    end.

Definition is_empty (bd : t) : bool :=
  forallb (fun v => match v with None => true | Some _ => false end) (stones bd).

Definition list_occupied_points (bd : t) : list (colour * coords) :=
  flat_map
    (fun row =>
       flat_map
         (fun col =>
            match get bd (row, col) with
            | Some c => [(c, (row, col))]
            | None => []
            end)
         (xrange (side bd)))
    (xrange (side bd)).

End GoBoard.

#[export] Instance GoBoard_ops : Board_ops GoBoard.t :=
  {| Board_new := GoBoard.new;
     Board_play := GoBoard.play;
     Board_is_empty := GoBoard.is_empty;
     Board_get := fun bd row col => GoBoard.get bd (row, col) |}.

(** ** Argument parsers and a scripted generator to run the engine with *)

(** Modelled from the spec: [gtp_engine], [gomill_common] and
    [handicap_layout] are not among the sources.  The parsers below follow
    the spec's contracts (section 6): numbers are decimal, a colour is one of
    "b", "black", "w", "white" in either case, a vertex is "pass" or a column
    letter (the letter I is skipped) followed by a row number counted from 1,
    and is refused when off the board. *)
Module Sample.

Definition lower_char (a : ascii) : ascii :=
  let n := nat_of_ascii a in
  if (65 <=? n)%nat && (n <=? 90)%nat then ascii_of_nat (n + 32) else a.

Fixpoint lower (s : string) : string :=
  match s with
  | EmptyString => EmptyString
  | String a s' => String (lower_char a) (lower s')
  end.

Definition interpret_int (arg : string) : result Z :=
  match NilZero.int_of_string arg with
  | Some d => Normal (Z.of_int d)
  | None => Raised (GtpError ("invalid int: '" ++ arg ++ "'"))
  end.

(** The text before and after the first occurrence of [c]. *)
Fixpoint split_at (c : ascii) (s : string) : string * option string :=
  match s with
  | EmptyString => (EmptyString, None)
  | String a s' =>
      if Ascii.eqb a c then (EmptyString, Some s')
      else let (x, y) := split_at c s' in (String a x, y)
  end.

(** A float literal: "nan", "inf" and "-inf", or decimal digits with an
    optional sign and an optional fraction. *)
Definition interpret_float (arg : string) : result pyfloat :=
  let bad := Raised (GtpError ("invalid float: '" ++ arg ++ "'")) in
  let s := lower arg in
  if String.eqb s "nan" then Normal NaN
  else if String.eqb s "inf" then Normal (Infinity false)
  else if String.eqb s "-inf" then Normal (Infinity true)
  else
    let (neg, body) :=
      match s with
      | String "-" s' => (true, s')
      | _ => (false, s)
      end in
    let (whole, frac) := split_at "." body in
    match NilZero.uint_of_string whole with
    | None => bad
    | Some dw =>
        let fr := match frac with Some f => f | None => EmptyString end in
        match NilEmpty.uint_of_string fr with
        | None => bad
        | Some df =>
            let scale := 10 ^ Z.of_nat (String.length fr) in
            let num := Z.of_uint dw * scale + Z.of_uint df in
            Normal (Finite (Qmake (if neg then - num else num) (Z.to_pos scale)))
        end
    end.

Definition interpret_colour (arg : string) : result colour :=
  let s := lower arg in
  if String.eqb s "b" || String.eqb s "black" then Normal black
  else if String.eqb s "w" || String.eqb s "white" then Normal white
  else Raised (GtpError ("invalid colour: '" ++ arg ++ "'")).

Definition interpret_vertex (arg : string) (board_size : Z) : result (option coords) :=
  let s := lower arg in
  if String.eqb s "pass" then Normal None
  else
    match s with
    | String col_c rest =>
        let n := Z.of_nat (nat_of_ascii col_c) in
        if negb ((97 <=? n) && (n <=? 122)) || (n =? 105) then
          Raised (GtpError ("invalid vertex: '" ++ s ++ "'"))
        else
          let col := if 105 <? n then n - 98 else n - 97 in
          match NilZero.uint_of_string rest with
          | None => Raised (GtpError ("invalid vertex: '" ++ s ++ "'"))
          | Some d =>
              let row := Z.of_uint d - 1 in
              if row <? 0 then Raised (GtpError ("invalid vertex: '" ++ s ++ "'"))
              else if negb ((col <? board_size) && (row <? board_size)) then
                Raised (GtpError ("vertex is off board: '" ++ s ++ "'"))
              else Normal (Some (row, col))
          end
    | EmptyString => Raised (GtpError ("invalid vertex: '" ++ s ++ "'"))
    end.

Definition format_vertex (p : coords) : string :=
  let (row, col) := p in
  let n := if 8 <=? col then col + 66 else col + 65 in
  String (ascii_of_nat (Z.to_nat n)) (NilZero.string_of_int (Z.to_int (row + 1))).

Definition max_fixed_handicap_for_board_size (board_size : Z) : Z :=
  if board_size <=? 7 then 0
  else if (board_size mod 2 =? 0) then 4
  else 9.

(** The star points of the GTP specification, in its order. *)
Definition handicap_points (number_of_stones board_size : Z) : option (list coords) :=
  if (max_fixed_handicap_for_board_size board_size <? number_of_stones)
     || (number_of_stones <? 2) then None
  else
    let lo := if board_size <? 13 then 2 else 3 in
    let mid := (board_size - 1) / 2 in
    let hi := board_size - lo - 1 in
    let four := [(lo, lo); (hi, hi); (hi, lo); (lo, hi)] in
    let six := four ++ [(mid, lo); (mid, hi)] in
    let eight := six ++ [(lo, mid); (hi, mid)] in
    Some (match number_of_stones with
          | 2 => firstn 2 four
          | 3 => firstn 3 four
          | 4 => four
          | 5 => four ++ [(mid, mid)]
          | 6 => six
          | 7 => six ++ [(mid, mid)]
          | 8 => eight
          | _ => eight ++ [(mid, mid)]
          end).

Definition max_free_handicap_for_board_size (board_size : Z) : Z :=
  board_size * board_size - 1.

(** A game record with two moves on the same point: a 19x19 game without
    setup stones in which Black and then White play the top left corner. *)
Definition twice_the_same_point : string := "(;SZ[19]KM[0];B[aa];W[aa])".

Definition twice_the_same_point_game : Sgf_game GoBoard.t :=
  mk_sgf 19 (Some (Finite 0)) (Some None)
    (inr (GoBoard.new 19, [(black, Some (18, 0)); (white, Some (18, 0))])).

(** A file system with one file, and the parse of that file's text. *)
Definition open_read (pathname : string) : option string :=
  if String.eqb pathname "twice.sgf" then Some twice_the_same_point else None.

Definition read_sgf (s : string) : option (Sgf_game GoBoard.t) :=
  if String.eqb s twice_the_same_point then Some twice_the_same_point_game else None.

(** A move generator that reads its answers from a script; it passes when
    the script is used up. *)
Definition answer : Type := Move_generator_result (Cookie := string).

Definition pass_answer : answer := mk_Move_generator_result false true None false None None.
Definition resign_answer : answer := mk_Move_generator_result true false None false None None.
Definition move_answer (p : coords) : answer :=
  mk_Move_generator_result false false (Some p) false None None.

Definition scripted (script : list answer)
    (game_state : Game_state (Board := GoBoard.t) (Cookie := string)) (c : colour)
  : answer * list answer :=
  match script with
  | [] => (pass_answer, [])
  | a :: rest => (a, rest)
  end.

End Sample.

#[export] Instance Sample_helpers : Gtp_helpers :=
  {| interpret_int := Sample.interpret_int;
     interpret_float := Sample.interpret_float;
     interpret_colour := Sample.interpret_colour;
     interpret_vertex := Sample.interpret_vertex;
     format_vertex := Sample.format_vertex;
     handicap_points := Sample.handicap_points;
     max_free_handicap_for_board_size := Sample.max_free_handicap_for_board_size |}.

#[export] Instance Sample_files : Sgf_files GoBoard.t :=
  {| open_read := Sample.open_read;
     read_sgf := Sample.read_sgf |}.

(** ** Sessions on the board above *)

Module Session.

Definition world : Type :=
  World (Board := GoBoard.t) (Cookie := string) (GenSt := list Sample.answer).

(** The engine as constructed, with the scripted generator. *)
Definition start (acceptable_sizes : option (list Z)) (script : list Sample.answer)
  : world :=
  snd (Gtp_state_init acceptable_sizes script).

Definition run (cmds : list (command * list string)) (w : world)
  : list (result (option string)) * world :=
  run_commands Sample.scripted cmds w.

(** Eight [play] commands that end with Black capturing one white stone in
    a ko: Black A2, B1, B3 and White C1, C3, D2 surround the two points B2
    and C2; White plays B2 and Black takes it by playing C2.  The point B2
    is [(1, 1)]. *)
Definition ko_fight : list (command * list string) :=
  [ (play, ["b"; "A2"]); (play, ["b"; "B1"]); (play, ["b"; "B3"]);
    (play, ["w"; "C1"]); (play, ["w"; "C3"]); (play, ["w"; "D2"]);
    (play, ["w"; "B2"]); (play, ["b"; "C2"]) ]%string.

(** An engine that accepts the sizes 9 and 19, and the [loadsgf] of the
    19x19 record whose second move is played on the point of the first. *)
Definition two_sizes : world := start (Some [9; 19]) [].

Definition bad_load : result (option string) * world :=
  handle_loadsgf ["twice.sgf"%string] two_sizes.

(** The ko, then a pass of each player, then one [undo]. *)
Definition ko_passes_undo : list (result (option string)) * world :=
  run (ko_fight ++ [ (play, ["w"; "pass"]); (play, ["b"; "pass"]); (undo, []) ]%string)
      (start (Some [9]) []).

(** The ko, then a [genmove] for White, which the generator answers with a
    pass (its script is empty). *)
Definition ko_genmove_pass : list (result (option string)) * world :=
  run (ko_fight ++ [ (genmove, ["w"]) ]%string) (start (Some [9]) []).

(** [set_free_handicap] with the same vertex twice. *)
Definition repeated_vertex : result (option string) * world :=
  handle_set_free_handicap ["A1"; "A1"]%string (start None []).

(** [place_free_handicap 2] with a generator that answers D4 twice. *)
Definition repeated_answer : result (option string) * world :=
  handle_place_free_handicap Sample.scripted ["2"%string]
    (start None [Sample.move_answer (3, 3); Sample.move_answer (3, 3)]).

(** [place_free_handicap 2] with a generator that passes and then answers
    D4. *)
Definition two_requested : world :=
  start None [Sample.pass_answer; Sample.move_answer (3, 3)].

Definition pass_then_move : result (option string) * world :=
  handle_place_free_handicap Sample.scripted ["2"%string] two_requested.

(** [place_free_handicap 3] with a generator that answers D4, passes, and
    answers Q16. *)
Definition three_requested : world :=
  start None [Sample.move_answer (3, 3); Sample.pass_answer; Sample.move_answer (15, 15)].

(** The position after the ko fight. *)
Definition after_ko : world := snd (run ko_fight (start (Some [9]) [])).

End Session.

(** ** Notions the properties are stated with *)

(** The komi the spec asks for, in its words: the floor of [f] clamped to
    [-625, 625], the clamp bound of its sign for an infinity.  The words give
    no value for [nan]. *)
Definition expected_komi (f : pyfloat) : option Z :=
  match f with
  | Finite q => Some (Z.max (-625) (Z.min 625 (Qfloor q)))
  | Infinity negative => Some (if negative then -625 else 625)
  | NaN => None
  end.

Section Notions.

Context {Board : Type} {Cookie : Type} {GenSt : Type}.
Context `{Board_ops Board}.

(** The world with another [Gtp_state] object. *)
Definition with_self (s : Gtp_state (Board := Board) (Cookie := Cookie))
    (w : World (GenSt := GenSt)) : World (GenSt := GenSt) :=
  mk_World s (generator w) (generator_calls w).

(** A full reset at size [n]: empty board, empty history base and move
    history, no handicap, no ko ban. *)
Definition full_reset (s : Gtp_state (Board := Board) (Cookie := Cookie)) (n : Z) : Prop :=
  board_size s = n /\
  board s = Board_new n /\ Board_is_empty (board s) = true /\
  history_base s = Board_new n /\ Board_is_empty (history_base s) = true /\
  move_history s = [] /\
  handicap s = None /\
  simple_ko_point s = None /\ simple_ko_player s = None.

(** A state with no recorded move whose board is its history base: what
    [reset] and the three handicap commands leave behind. *)
Definition base_state (s : Gtp_state (Board := Board) (Cookie := Cookie)) : Prop :=
  move_history s = [] /\ board s = history_base s.

(** The attributes that a replay never assigns are the same in [s'] as in
    [s]. *)
Definition same_settings (s s' : Gtp_state (Board := Board) (Cookie := Cookie)) : Prop :=
  komi s' = komi s /\ time_settings s' = time_settings s /\
  time_status s' = time_status s /\ acceptable_sizes s' = acceptable_sizes s /\
  board_size s' = board_size s /\ handicap s' = handicap s.

(** The moves that [handle_loadsgf] replays: the moves of the record, or
    those before move [move_number]. *)
Definition moves_to_load (raw_sgf_moves : list (colour * option coords))
    (move_number : option Z) : list (History_move (Cookie := Cookie)) :=
  let sgf_moves :=
    map (fun m => mk_History_move (fst m) (snd m) None None) raw_sgf_moves in
  match move_number with
  | None => sgf_moves
  | Some n => firstn (Z.to_nat (Z.max 0 (n - 1))) sgf_moves
  end.

(** A command that returned normally. *)
Definition succeeded {A} (r : result A) : Prop := exists a, r = Normal a.

(** An answer of the move generator that places no handicap stone. *)
Definition skipped (a : Move_generator_result (Cookie := Cookie)) : bool :=
  pass_move a || resign a.

(** [placed b ms b']: the black stones [ms], played in this order from [b],
    were each accepted on a point that was not occupied, and lead to [b']. *)
Inductive placed : Board -> list coords -> Board -> Prop :=
| placed_none (b : Board) : placed b [] b
| placed_more (b b1 b2 : Board) (ms : list coords) (row col : Z) (ko : option coords) :
    placed b ms b1 ->
    Board_get b1 row col = None ->
    Board_play b1 row col black = Normal (b2, ko) ->
    placed b (ms ++ [(row, col)]) b2.

(** A call of the generator that answers with a move to a point that is
    occupied on the board it was shown. *)
Definition occupied_answer (c : generator_call (Board := Board) (Cookie := Cookie))
    (p : coords) : Prop :=
  skipped (call_answer c) = false /\
  move (call_answer c) = Some p /\
  Board_get (gs_board (call_game_state c)) (fst p) (snd p) <> None.

(** The board reached from [b] by playing [moves] in order, passes
    skipped. *)
Fixpoint replay_board (b : Board) (moves : list (History_move (Cookie := Cookie)))
  : result Board :=
  match moves with
  | [] => Normal b
  | m :: rest =>
      match hm_coords m with
      | None => replay_board b rest
      | Some (row, col) =>
          match Board_play b row col (hm_colour m) with
          | Normal (b', _) => replay_board b' rest
          | Raised e => Raised e
          end
      end
  end.

(** The board of the state is the replay of its history. *)
Definition replayed (s : Gtp_state (Board := Board) (Cookie := Cookie)) : Prop :=
  replay_board (history_base s) (move_history s) = Normal (board s).

(** The replay the invariant of the spec speaks of, in its words: from the
    history base, a pass clears the ko ban, any other move is played and sets
    the ko ban to the point [play] returns and its owner to the mover's
    opponent.  The result is the board and the ko ban reached. *)
Fixpoint replay_live (b : Board) (ko_point : option coords) (ko_player : option colour)
    (moves : list (History_move (Cookie := Cookie)))
  : result (Board * option coords * option colour) :=
  match moves with
  | [] => Normal (b, ko_point, ko_player)
  | m :: rest =>
      match hm_coords m with
      | None => replay_live b None ko_player rest
      | Some (row, col) =>
          match Board_play b row col (hm_colour m) with
          | Normal (b', ko) => replay_live b' ko (Some (opponent_of (hm_colour m))) rest
          | Raised e => Raised e
          end
      end
  end.

End Notions.

(** ** Identifier allocation and scheduling ([competitions.py]) *)

Module Competitions.

(** The exceptions of this module's classes. *)
Inductive error : Type := KeyError | ValueError.

(** [Id_allocator]: the ids are integers. *)
Record Id_allocator : Type := mk_Id_allocator {
  next_new : Z;
  outstanding : gset Z;
  to_reissue : gset Z;
}.

(** [Id_allocator.__init__]. *)
Definition Id_allocator_init : Id_allocator := mk_Id_allocator 0 ∅ ∅.

(** [issue]: returns the id and the allocator after the call.  The test
    [if self.to_reissue] is the test for a non-empty set, which is when [min]
    has a value. *)
Definition issue (a : Id_allocator) : Z * Id_allocator :=
  match py_min (to_reissue a) with
  | Some result =>
      (result,
       mk_Id_allocator (next_new a) (outstanding a ∪ {[ result ]})
         (to_reissue a ∖ {[ result ]}))
  | None =>
      (next_new a,
       mk_Id_allocator (next_new a + 1) (outstanding a ∪ {[ next_new a ]})
         (to_reissue a))
  end.

(** [fix]: [set.remove] raises [KeyError] for an absent element. *)
Definition fix_id (i : Z) (a : Id_allocator) : error + Id_allocator :=
  if decide (i ∈ outstanding a) then
    inr (mk_Id_allocator (next_new a) (outstanding a ∖ {[ i ]}) (to_reissue a))
  else inl KeyError.

(** [rollback]. *)
Definition rollback (a : Id_allocator) : Id_allocator :=
  mk_Id_allocator (next_new a) ∅ (to_reissue a ∪ outstanding a).

Definition count_issued (a : Id_allocator) : Z :=
  next_new a - Z.of_nat (size (to_reissue a)).

Definition count_fixed (a : Id_allocator) : Z :=
  next_new a - Z.of_nat (size (outstanding a)) - Z.of_nat (size (to_reissue a)).

(** The state of an allocator is well formed: no id is both outstanding and
    waiting to be reissued, and all of them are below [next_new]. *)
Definition wf (a : Id_allocator) : Prop :=
  outstanding a ## to_reissue a
  /\ (forall i, i ∈ outstanding a ∪ to_reissue a -> 0 <= i < next_new a)
  /\ 0 <= next_new a.

(** The same with a set [F] of ids that are finished with: neither
    outstanding nor waiting, and below [next_new]. *)
Definition wf_with (F : gset Z) (a : Id_allocator) : Prop :=
  wf a /\ F ## outstanding a /\ F ## to_reissue a
  /\ forall i, i ∈ F -> 0 <= i < next_new a.

(** A call of one of the three methods that change an allocator, what the
    caller sees of it, and a sequence of calls on one allocator. *)
Inductive call : Type := Issue | Fix (i : Z) | Rollback.

Inductive event : Type :=
| Issued (i : Z)
| Fixed (i : Z)
| FixFailed (i : Z)
| RolledBack.

Definition step (c : call) (a : Id_allocator) : event * Id_allocator :=
  match c with
  | Issue => let (i, a') := issue a in (Issued i, a')
  | Fix i =>
      match fix_id i a with
      | inr a' => (Fixed i, a')
      | inl _ => (FixFailed i, a)
      end
  | Rollback => (RolledBack, rollback a)
  end.

Fixpoint run (calls : list call) (a : Id_allocator) : list event * Id_allocator :=
  match calls with
  | [] => ([], a)
  | c :: rest =>
      let (e, a') := step c a in
      let (es, a'') := run rest a' in
      (e :: es, a'')
  end.

#[export] Instance event_eq_dec : EqDecision event.
Proof. solve_decision. Defined.

Definition is_Fixed (e : event) : bool :=
  match e with Fixed _ => true | _ => false end.

(** [k] calls of [issue] in a row. *)
Fixpoint issue_many (k : nat) (a : Id_allocator) : list Z * Id_allocator :=
  match k with
  | O => ([], a)
  | S k' =>
      let (i, a') := issue a in
      let (l, a'') := issue_many k' a' in
      (i :: l, a'')
  end.

(** [Group_scheduler]: the group codes are integers here (the class takes
    integers or short strings). *)
Record Group_scheduler : Type := mk_Group_scheduler {
  allocators : gmap Z Id_allocator;
  limits : gmap Z (option Z);
}.

Definition Group_scheduler_init : Group_scheduler := mk_Group_scheduler ∅ ∅.

(** [set_groups]. *)
Definition set_groups (group_specs : list (Z * option Z)) (sc : Group_scheduler)
  : Group_scheduler :=
  let new :=
    fold_left
      (fun (acc : gmap Z Id_allocator * gmap Z (option Z)) (spec : Z * option Z) =>
         let (group_code, limit) := spec in
         (<[ group_code :=
               match allocators sc !! group_code with
               | Some a => a
               | None => Id_allocator_init
               end ]> (fst acc),
          <[ group_code := limit ]> (snd acc)))
      group_specs (∅, ∅) in
  mk_Group_scheduler (fst new) (snd new).

(** The order of Python on pairs of integers, and [min] of a non-empty list
    of pairs: the first of the least elements. *)
Definition pair_lt (p q : Z * Z) : bool :=
  (fst p <? fst q) || ((fst p =? fst q) && (snd p <? snd q)).

Definition pair_min (l : list (Z * Z)) : option (Z * Z) :=
  match l with
  | [] => None
  | p :: rest => Some (fold_left (fun m q => if pair_lt q m then q else m) rest p)
  end.

(** The list [groups] of [Group_scheduler.issue]; [limits[group_code]]
    raises [KeyError] for a missing code. *)
Definition groups_of (sc : Group_scheduler) : error + list (Z * Z * option Z) :=
  match
    mapM (fun item : Z * Id_allocator =>
            match limits sc !! fst item with
            | Some limit => Some (fst item, count_issued (snd item), limit)
            | None => None
            end)
         (map_to_list (allocators sc))
  with
  | Some groups => inr groups
  | None => inl KeyError
  end.

(** The list [available] of [Group_scheduler.issue]. *)
Definition available_of (groups : list (Z * Z * option Z)) : list (Z * Z) :=
  omap (fun g : Z * Z * option Z =>
          let '(group_code, issue_count, limit) := g in
          match limit with
          | None => Some (issue_count, group_code)
          | Some l => if issue_count <? l then Some (issue_count, group_code) else None
          end)
       groups.

(** [Group_scheduler.issue]: the token [(group code, game number)], or
    [None] for [(None, None)]. *)
Definition Group_scheduler_issue (sc : Group_scheduler)
  : error + (option (Z * Z) * Group_scheduler) :=
  match groups_of sc with
  | inl e => inl e
  | inr groups =>
      match pair_min (available_of groups) with
      | None => inr (None, sc)
      | Some (_, group_code) =>
          match allocators sc !! group_code with
          | Some a =>
              let (n, a') := issue a in
              inr (Some (group_code, n),
                   mk_Group_scheduler (<[ group_code := a' ]> (allocators sc)) (limits sc))
          | None => inl KeyError
          end
      end
  end.

(** [Group_scheduler.fix]. *)
Definition Group_scheduler_fix (group_code game_number : Z) (sc : Group_scheduler)
  : error + Group_scheduler :=
  match allocators sc !! group_code with
  | Some a =>
      match fix_id game_number a with
      | inr a' =>
          inr (mk_Group_scheduler (<[ group_code := a' ]> (allocators sc)) (limits sc))
      | inl e => inl e
      end
  | None => inl KeyError
  end.

(** [Group_scheduler.rollback]. *)
Definition Group_scheduler_rollback (sc : Group_scheduler) : Group_scheduler :=
  mk_Group_scheduler (rollback <$> allocators sc) (limits sc).

(** Calls of the four methods of a [Group_scheduler] that change it, what
    the caller sees of each, and a sequence of calls on one scheduler.  A
    call that raises leaves the scheduler as it was: [issue] raises before it
    calls an allocator, [fix] before or in [set.remove]. *)
Inductive sched_call : Type :=
| Sched_set_groups (group_specs : list (Z * option Z))
| Sched_issue
| Sched_fix (group_code game_number : Z)
| Sched_rollback.

Inductive sched_event : Type :=
| Sched_groups_set
| Sched_issued (token : option (Z * Z))
| Sched_fixed
| Sched_raised (e : error)
| Sched_rolled_back.

Definition sched_step (c : sched_call) (sc : Group_scheduler)
  : sched_event * Group_scheduler :=
  match c with
  | Sched_set_groups group_specs => (Sched_groups_set, set_groups group_specs sc)
  | Sched_issue =>
      match Group_scheduler_issue sc with
      | inr (token, sc') => (Sched_issued token, sc')
      | inl e => (Sched_raised e, sc)
      end
  | Sched_fix group_code game_number =>
      match Group_scheduler_fix group_code game_number sc with
      | inr sc' => (Sched_fixed, sc')
      | inl e => (Sched_raised e, sc)
      end
  | Sched_rollback => (Sched_rolled_back, Group_scheduler_rollback sc)
  end.

Fixpoint sched_run (calls : list sched_call) (sc : Group_scheduler)
  : list sched_event * Group_scheduler :=
  match calls with
  | [] => ([], sc)
  | c :: rest =>
      let (e, sc') := sched_step c sc in
      let (es, sc'') := sched_run rest sc' in
      (e :: es, sc'')
  end.

(** The order of Python on pairs of integers, as a proposition. *)
Definition pair_le (p q : Z * Z) : Prop :=
  fst p < fst q \/ (fst p = fst q /\ snd p <= snd q).

(** A group has not reached its limit. *)
Definition below_limit (a : Id_allocator) (limit : option Z) : Prop :=
  match limit with
  | None => True
  | Some l => count_issued a < l
  end.

End Competitions.

(** ** Helpers for move generators, and notions for the properties of
    sessions *)

Section History.

Context {Board : Type} {Cookie : Type} {GenSt : Type}.

(** [get_last_move]. *)
Definition get_last_move (moves : list (History_move (Cookie := Cookie)))
    (player : colour) : bool * option coords :=
  match last moves with
  | None => (false, None)
  | Some m =>
      if negb (bool_decide (hm_colour m = opponent_of player)) then (false, None)
      else (true, hm_coords m)
  end.

(** [get_last_move_and_cookie]; [moves[-2]] is the element at index
    [len(moves) - 2]. *)
Definition get_last_move_and_cookie (moves : list (History_move (Cookie := Cookie)))
    (player : colour) : bool * option coords * option Cookie :=
  let '(move_is_available, opponents_move) := get_last_move moves player in
  let cookie :=
    if move_is_available && (1 <? Z.of_nat (length moves)) then
      match nth_error moves (length moves - 2) with
      | Some m2 => if bool_decide (hm_colour m2 = player) then hm_cookie m2 else None
      | None => None
      end
    else None in
  (move_is_available, opponents_move, cookie).

(** [keeps Inv m]: started in a world where [Inv] holds, [m] ends in one,
    whether it returns or raises. *)
Definition keeps (Inv : World (Board := Board) (Cookie := Cookie) (GenSt := GenSt) -> Prop)
    {A : Type} (m : M (Board := Board) (Cookie := Cookie) (GenSt := GenSt) A) : Prop :=
  forall w r w', Inv w -> m w = (r, w') -> Inv w'.

(** The settings of a session are in range: the acceptable sizes are
    [sizes], the board size is one of them, and the komi is within the
    clamp bounds of [set_komi]. *)
Definition settings_in_range (sizes : gset Z)
    (w : World (Board := Board) (Cookie := Cookie) (GenSt := GenSt)) : Prop :=
  acceptable_sizes (self w) = sizes
  /\ board_size (self w) ∈ sizes
  /\ -625 <= komi (self w) <= 625.

(** The move generator has not been called since it was in state [g] with
    the calls [cs] recorded. *)
Definition generator_untouched (g : GenSt)
    (cs : list (generator_call (Board := Board) (Cookie := Cookie)))
    (w : World (Board := Board) (Cookie := Cookie) (GenSt := GenSt)) : Prop :=
  generator w = g /\ generator_calls w = cs.

End History.

(** ** What a run of events delivers on the error pipe *)

Module Diagnostics.
Import Channel.

(** The strings that a run of events appends to [error_data]: the data of
    the events on which the error pipe is served and has data. *)
Fixpoint error_chunks (events : list os_event) : list string :=
  match events with
  | [] => []
  | Readable r s :: rest =>
      (if decide (error_pipe ∈ r) then (if str_true s then [s] else []) else [])
      ++ error_chunks rest
  | EnvironmentError _ :: rest => error_chunks rest
  end.

End Diagnostics.

(** ** Tournaments ([tournaments.py]) *)

(** [str] of an integer and [int] of a string, as [get_game] and
    [process_game_result] use them on game ids; [None] is the [ValueError]
    of [int]. *)
Class Py_int_str : Type := {
  py_str : Z -> string;
  py_int : string -> option Z;
}.

(** What the properties below need of them: [int(str(n)) == n]. *)
Class Py_int_str_laws `{Py_int_str} : Prop := {
  py_int_str : forall n, py_int (py_str n) = Some n;
}.

(** The decimal numerals of the standard library meet it. *)
Module Decimal_ids.

Definition str (n : Z) : string := NilZero.string_of_int (Z.to_int n).

Definition int (s : string) : option Z := option_map Z.of_int (NilZero.int_of_string s).

End Decimal_ids.

#[export] Instance Decimal_int_str : Py_int_str :=
  {| py_str := Decimal_ids.str; py_int := Decimal_ids.int |}.

Module Tournaments.
Import Competitions.

Inductive error : Type := KeyError | ValueError | AssertionError.

Inductive handicap_style_t : Type := fixed | free.
Inductive scorer_t : Type := internal | players_scorer.

(** A [Matchup]: its public attributes and the matchup settings. *)
Record Matchup : Type := mk_Matchup {
  id : Z;
  p1 : string;
  p2 : string;
  games_started : Z;
  board_size : Z;
  komi : pyfloat;
  alternating : bool;
  handicap : option Z;
  handicap_style : handicap_style_t;
  move_limit : Z;
  scorer : scorer_t;
  number_of_games : option Z;
}.

Definition started_one_more (m : Matchup) : Matchup :=
  mk_Matchup (id m) (p1 m) (p2 m) (games_started m + 1) (board_size m) (komi m)
    (alternating m) (handicap m) (handicap_style m) (move_limit m) (scorer m)
    (number_of_games m).

(** The attributes of a [game_jobs.Game_job] that [get_game] sets. *)
Record Game_job (Player : Type) : Type := mk_Game_job {
  job_game_id : string;
  job_player_b : Player;
  job_player_w : Player;
  job_board_size : Z;
  job_komi : pyfloat;
  job_move_limit : Z;
  job_handicap : option Z;
  job_handicap_is_free : bool;
  job_use_internal_scorer : bool;
  job_preferred_scorers : option (list string);
  job_sgf_event : string;
}.

(** The attributes of a [Game_result] and of a [Game_job_result] that
    [process_game_result] reads. *)
Record Game_result : Type := mk_Game_result {
  result_player_b : string;
  result_player_w : string;
  description : string;
}.

Record Game_job_result : Type := mk_Game_job_result {
  response_game_id : string;
  game_result : Game_result;
  response_engine_names : gmap string string;
  response_engine_descriptions : gmap string string;
}.

Section Tournament.

Context {Player : Type} `{Py_int_str}.

(** The attributes of a [Tournament] that scheduling uses: the
    configuration ([competition_code], [preferred_scorers], [players],
    [matchups]) and the state attributes. *)
Record Tournament : Type := mk_Tournament {
  competition_code : string;
  preferred_scorers : option (list string);
  players : gmap string Player;
  matchups : list Matchup;
  results : list (Z * Game_result);
  engine_names : gmap string string;
  engine_descriptions : gmap string string;
  outstanding_games : gmap string (Z * string * string);
  game_id_allocator : Id_allocator;
}.

(** [set_clean_status]; the [games_started] counts of the matchups are
    not among the attributes it assigns. *)
Definition set_clean_status (t : Tournament) : Tournament :=
  mk_Tournament (competition_code t) (preferred_scorers t) (players t) (matchups t)
    [] ∅ ∅ ∅ Id_allocator_init.

(** A matchup that has games left to start. *)
Definition incomplete (m : Matchup) : bool :=
  match number_of_games m with
  | None => true
  | Some n => games_started m <? n
  end.

(** [min(available, key=...)]: the first of the elements with the least
    key; the elements carry their position in [self.matchups], which is what
    identifies the object that [get_game] updates. *)
Definition min_by_key (available : list (nat * Matchup)) : option (nat * Matchup) :=
  match available with
  | [] => None
  | x :: rest =>
      Some (fold_left
              (fun best y =>
                 if pair_lt (games_started (snd y), id (snd y))
                            (games_started (snd best), id (snd best))
                 then y else best)
              rest x)
  end.

(** [find_match]: the position of the matchup and the two player codes,
    [None] for [(None, None, None)]. *)
Definition find_match (t : Tournament) : option (nat * Matchup * string * string) :=
  let available :=
    List.filter (fun x : nat * Matchup => incomplete (snd x))
      (imap (fun i m => (i, m)) (matchups t)) in
  match min_by_key available with
  | None => None
  | Some (i, matchup) =>
      if alternating matchup && negb (games_started matchup mod 2 =? 0)
      then Some (i, matchup, p2 matchup, p1 matchup)
      else Some (i, matchup, p1 matchup, p2 matchup)
  end.

(** [get_game]: [inr None] is [NoGameAvailable].  The tournament returned
    is the one after the call, also when the call raises. *)
Definition get_game (t : Tournament)
  : (error + option (Game_job Player)) * Tournament :=
  let (n, allocator) := issue (game_id_allocator t) in
  let game_id := py_str n in
  let t1 :=
    mk_Tournament (competition_code t) (preferred_scorers t) (players t) (matchups t)
      (results t) (engine_names t) (engine_descriptions t) (outstanding_games t)
      allocator in
  match find_match t1 with
  | None => (inr None, t1)
  | Some (i, matchup, player_b, player_w) =>
      let t2 :=
        mk_Tournament (competition_code t) (preferred_scorers t) (players t)
          (<[ i := started_one_more matchup ]> (matchups t))
          (results t) (engine_names t) (engine_descriptions t)
          (<[ game_id := (id matchup, player_b, player_w) ]> (outstanding_games t))
          allocator in
      match players t !! player_b with
      | None => (inl KeyError, t2)
      | Some pb =>
          match players t !! player_w with
          | None => (inl KeyError, t2)
          | Some pw =>
              (inr (Some
                 {| job_game_id := game_id;
                    job_player_b := pb;
                    job_player_w := pw;
                    job_board_size := board_size matchup;
                    job_komi := komi matchup;
                    job_move_limit := move_limit matchup;
                    job_handicap := handicap matchup;
                    job_handicap_is_free :=
                      match handicap_style matchup with free => true | fixed => false end;
                    job_use_internal_scorer :=
                      match scorer matchup with internal => true | _ => false end;
                    job_preferred_scorers := preferred_scorers t;
                    job_sgf_event := competition_code t |}),
               t2)
          end
      end
  end.

(** [process_game_result]; the call of [log_history] writes to the log
    only. *)
Definition process_game_result (response : Game_job_result) (t : Tournament)
  : (error + unit) * Tournament :=
  let t1 :=
    mk_Tournament (competition_code t) (preferred_scorers t) (players t) (matchups t)
      (results t)
      (response_engine_names response ∪ engine_names t)
      (response_engine_descriptions response ∪ engine_descriptions t)
      (outstanding_games t) (game_id_allocator t) in
  match py_int (response_game_id response) with
  | None => (inl ValueError, t1)
  | Some i =>
      match fix_id i (game_id_allocator t) with
      | inl _ => (inl KeyError, t1)
      | inr allocator =>
          let t2 :=
            mk_Tournament (competition_code t) (preferred_scorers t) (players t)
              (matchups t) (results t) (engine_names t1) (engine_descriptions t1)
              (outstanding_games t) allocator in
          match outstanding_games t !! response_game_id response with
          | None => (inl KeyError, t2)
          | Some (matchup_id, player_b, player_w) =>
              let t3 :=
                mk_Tournament (competition_code t) (preferred_scorers t) (players t)
                  (matchups t) (results t) (engine_names t1) (engine_descriptions t1)
                  (delete (response_game_id response) (outstanding_games t)) allocator in
              if negb (String.eqb player_b (result_player_b (game_result response)))
              then (inl AssertionError, t3)
              else if negb (String.eqb player_w (result_player_w (game_result response)))
              then (inl AssertionError, t3)
              else
                (inr tt,
                 mk_Tournament (competition_code t) (preferred_scorers t) (players t)
                   (matchups t) (results t ++ [(matchup_id, game_result response)])
                   (engine_names t1) (engine_descriptions t1)
                   (delete (response_game_id response) (outstanding_games t)) allocator)
          end
      end
  end.

(** Calls of the two methods, and a sequence of calls on one tournament;
    a call that raises ends that call only. *)
Inductive t_call : Type :=
| Get_game
| Process_game_result (response : Game_job_result).

Definition t_step (c : t_call) (t : Tournament) : Tournament :=
  match c with
  | Get_game => snd (get_game t)
  | Process_game_result response => snd (process_game_result response t)
  end.

Definition t_run (calls : list t_call) (t : Tournament) : Tournament :=
  fold_left (fun t c => t_step c t) calls t.

End Tournament.

(** A tournament of two matchups between the players [a] and [b], the
    second limited to one game, with decimal game ids; the player objects
    are the command lines. *)
Definition a_v_b : Matchup :=
  mk_Matchup 0 "a" "b" 0 9 (Finite 6) true None fixed 1000 players_scorer None.

Definition b_v_a : Matchup :=
  mk_Matchup 1 "b" "a" 0 9 (Finite 6) false None fixed 1000 players_scorer (Some 1).

Definition two_matchups : Tournament (Player := string) :=
  set_clean_status
    (mk_Tournament "example" None
       (<[ "a"%string := "gnugo --mode gtp"%string ]>
          (<[ "b"%string := "fuego"%string ]> ∅))
       [a_v_b; b_v_a] [] ∅ ∅ ∅ Id_allocator_init).

End Tournaments.

(** * Properties *)

(** ** The transport channel *)

Module ChannelFacts.
Import Channel.

Lemma str_find_lower_bound (c : ascii) (s : string) : -1 <= str_find c s.
Proof.
  induction s as [|a s IH]; simpl; [lia|].
  destruct (Ascii.eqb a c); [lia|].
  destruct (str_find c s =? -1) eqn:E; lia.
Qed.

Lemma str_find_before (c : ascii) (a rest : string) :
  str_find c a = -1 ->
  str_find c (a ++ String c rest) = Z.of_nat (String.length a).
Proof.
  induction a as [|x a IH]; simpl.
  - intros _. now rewrite Ascii.eqb_refl.
  - destruct (Ascii.eqb x c); [discriminate|].
    destruct (str_find c a =? -1) eqn:E.
    + intros _. apply Z.eqb_eq in E. rewrite (IH E).
      destruct (Z.of_nat (String.length a) =? -1) eqn:E'; [|lia].
      apply Z.eqb_eq in E'. lia.
    + intros Hf. pose proof (str_find_lower_bound c a). apply Z.eqb_neq in E. lia.
Qed.

Lemma str_take_line (a rest : string) (c : ascii) :
  str_take (S (String.length a)) (a ++ String c rest) = (a ++ String c EmptyString)%string.
Proof. induction a as [|x a IH]; simpl; [reflexivity|]. simpl in IH. now rewrite IH. Qed.

Lemma str_drop_line (a rest : string) (c : ascii) :
  str_drop (S (String.length a)) (a ++ String c rest) = rest.
Proof. induction a as [|x a IH]; simpl; [reflexivity|]. exact IH. Qed.

(** A buffered complete line is returned with its newline, and only it is
    taken from the buffer, whatever is still to arrive. *)
Lemma get_response_line_buffered events ch (a rest : string) :
  str_find LF a = -1 ->
  response_data ch = (a ++ nl ++ rest)%string ->
  get_response_line events ch =
    (Returned (a ++ nl),
     mk_channel rest (seen_eof ch) (error_data ch) (pipes_to_poll ch),
     events).
Proof.
  intros Ha Hd.
  assert (Hd' : response_data ch = (a ++ String LF rest)%string) by exact Hd.
  assert (Hi : str_find LF (response_data ch) = Z.of_nat (String.length a)).
  { rewrite Hd'. now apply str_find_before. }
  assert (Hn : Z.to_nat (Z.of_nat (String.length a) + 1) = S (String.length a)) by lia.
  assert (E : (Z.of_nat (String.length a) =? -1) = false) by (apply Z.eqb_neq; lia).
  destruct events; cbn [get_response_line]; cbv zeta; rewrite Hi, E; cbn [negb];
    rewrite Hn, Hd', str_take_line, str_drop_line; reflexivity.
Qed.

Lemma str_app_nil_r (s : string) : (s ++ EmptyString)%string = s.
Proof.
  induction s as [|a s IH]; [reflexivity|].
  change (String a (s ++ EmptyString) = String a s). now f_equal.
Qed.

Lemma str_app_assoc (s t u : string) : ((s ++ t) ++ u)%string = (s ++ (t ++ u))%string.
Proof.
  induction s as [|a s IH]; [reflexivity|].
  change (String a ((s ++ t) ++ u) = String a (s ++ (t ++ u))). now f_equal.
Qed.

Lemma str_find_split (c : ascii) (s : string) :
  str_find c s <> -1 ->
  exists a rest, s = (a ++ String c rest)%string /\ str_find c a = -1.
Proof.
  induction s as [|x s IH]; cbn; [congruence|].
  destruct (Ascii.eqb x c) eqn:Ex.
  - intros _. apply Ascii.eqb_eq in Ex. subst x. exists EmptyString, s. split; reflexivity.
  - destruct (str_find c s =? -1) eqn:E; [congruence|]. intros _.
    apply Z.eqb_neq in E. destruct (IH E) as (a & rest & -> & Ha).
    exists (String x a), rest. split; [reflexivity|]. cbn. rewrite Ex, Ha. reflexivity.
Qed.

(** One served event appends its response bytes to the buffer and nothing
    else. *)
Lemma _handle_event_response_data r s ch ch' :
  _handle_event r s ch = (Normal tt, ch') ->
  response_data ch' = (response_data ch ++ response_bytes [Readable r s])%string.
Proof.
  unfold _handle_event, _handle_error_data, _handle_response_data. cbn [response_bytes].
  rewrite str_app_nil_r.
  destruct (decide (error_pipe ∈ r)).
  - rewrite str_app_nil_r. destruct (str_true s).
    + intros E; inversion E; reflexivity.
    + destruct (list_remove error_pipe (pipes_to_poll ch)); intros E; inversion E;
        reflexivity.
  - destruct (decide (response_pipe ∈ r)).
    + destruct s as [|x s]; cbn [str_true].
      * rewrite str_app_nil_r.
        destruct (list_remove response_pipe (pipes_to_poll ch)); intros E; inversion E;
          reflexivity.
      * intros E; inversion E; reflexivity.
    + rewrite str_app_nil_r. intros E; inversion E; reflexivity.
Qed.

Lemma response_bytes_cons r s used :
  response_bytes (Readable r s :: used)
  = (response_bytes [Readable r s] ++ response_bytes used)%string.
Proof. cbn [response_bytes]. now rewrite str_app_nil_r. Qed.

(** After end of file, a buffer without a newline is returned and kept:
    the call changes nothing. *)
Lemma get_response_line_after_eof events ch :
  seen_eof ch = true ->
  str_find LF (response_data ch) = -1 ->
  get_response_line events ch = (Returned (response_data ch), ch, events).
Proof.
  intros He Hf. destruct events; simpl; rewrite Hf, He; reflexivity.
Qed.

(** So every later call returns the same remainder again. *)
Lemma read_lines_after_eof k events ch :
  seen_eof ch = true ->
  str_find LF (response_data ch) = -1 ->
  read_lines k events ch = repeat (Returned (response_data ch)) k.
Proof.
  intros He Hf. induction k as [|k IH]; [reflexivity|].
  cbn [read_lines repeat]. rewrite (get_response_line_after_eof events ch He Hf).
  now rewrite IH.
Qed.

(** The part of C4 that holds.  Whatever the chunks in which the bytes
    arrive and whatever arrives on the error pipe in between, a string
    returned by [get_response_line] is a prefix of the bytes received and
    not yet returned, cut after the first newline: either it ends with the
    only newline it contains and the rest stays in the buffer, or end of
    file was seen and it is all that was left, without a newline. *)
Lemma get_response_line_splits_on_newline events ch line ch' events' :
  get_response_line events ch = (Returned line, ch', events') ->
  exists used,
    events = used ++ events'
    /\ ((exists a, line = (a ++ nl)%string /\ str_find LF a = -1
                   /\ (response_data ch ++ response_bytes used)%string
                      = (line ++ response_data ch')%string)
        \/ (str_find LF line = -1 /\ seen_eof ch' = true
            /\ line = (response_data ch ++ response_bytes used)%string
            /\ response_data ch' = line)).
Proof.
  revert ch. induction events as [|ev events IH]; intros ch E.
  - destruct (Z.eq_dec (str_find LF (response_data ch)) (-1)) as [Hf|Hf].
    + cbn in E. rewrite Hf in E. cbn in E.
      destruct (seen_eof ch) eqn:He; [|discriminate]. inversion E; subst.
      exists []. split; [reflexivity|]. right. cbn. now rewrite str_app_nil_r.
    + destruct (str_find_split _ _ Hf) as (a & rest & Hd & Ha).
      rewrite (get_response_line_buffered [] ch a rest Ha Hd) in E.
      inversion E; subst. exists []. split; [reflexivity|]. left.
      exists a. cbn. rewrite str_app_nil_r, Hd. unfold nl.
      rewrite str_app_assoc. auto.
  - destruct (Z.eq_dec (str_find LF (response_data ch)) (-1)) as [Hf|Hf].
    + destruct (seen_eof ch) eqn:He.
      * rewrite (get_response_line_after_eof _ ch He Hf) in E. inversion E; subst.
        exists []. split; [reflexivity|]. right. cbn. now rewrite str_app_nil_r.
      * cbn [get_response_line] in E. cbv zeta in E. rewrite Hf, He in E. cbn in E.
        destruct ev as [r s|msg]; [|discriminate].
        destruct (_handle_event r s ch) as [[[]|e] ch1] eqn:Ev; [|discriminate].
        destruct (IH _ E) as (used & Hev & Hcase).
        exists (Readable r s :: used). split; [cbn; now rewrite Hev|].
        rewrite response_bytes_cons, <- str_app_assoc,
          <- (_handle_event_response_data _ _ _ _ Ev).
        exact Hcase.
    + destruct (str_find_split _ _ Hf) as (a & rest & Hd & Ha).
      rewrite (get_response_line_buffered _ ch a rest Ha Hd) in E.
      inversion E; subst. exists []. split; [reflexivity|]. left.
      exists a. cbn. rewrite str_app_nil_r, Hd. unfold nl.
      rewrite str_app_assoc. auto.
Qed.

(** [get_response_byte] hands out each buffered byte once: after end of
    file and with an empty buffer it returns the empty string. *)
Lemma get_response_byte_consumes events ch (c : ascii) (rest : string) :
  response_data ch = String c rest ->
  get_response_byte events ch =
    (Returned (String c EmptyString),
     mk_channel rest (seen_eof ch) (error_data ch) (pipes_to_poll ch),
     events).
Proof. intros Hd. destruct events; simpl; rewrite Hd; reflexivity. Qed.

(** C4, at the input that separates the code from the claim: the peer writes
    the three bytes "abc" without a newline and closes its end.  The first
    call of [get_response_line] returns "abc", and so does every later call:
    the unterminated remainder is returned again and again, never the empty
    string.  [get_response_byte] on the same input returns each byte once and
    the empty string from then on. *)
Lemma get_response_line_repeats_remainder :
  read_lines 4 [Readable [response_pipe] "abc"; Readable [response_pipe] ""] opened
  = [Returned "abc"; Returned "abc"; Returned "abc"; Returned "abc"]
  /\ read_bytes 5 [Readable [response_pipe] "abc"; Readable [response_pipe] ""] opened
     = [Returned "a"; Returned "b"; Returned "c"; Returned ""; Returned ""].
Proof. split; vm_compute; reflexivity. Qed.

End ChannelFacts.

(** ** The board used in the examples meets the laws of boards *)

Lemma GoBoard_new_is_empty (n : Z) : GoBoard.is_empty (GoBoard.new n) = true.
Proof.
  unfold GoBoard.is_empty, GoBoard.new. cbn [GoBoard.stones].
  induction (Z.to_nat (n * n)) as [|k IH]; [reflexivity|].
  cbn [replicate forallb]. exact IH.
Qed.

Lemma GoBoard_play_occupied (bd : GoBoard.t) (row col : Z) (c c' : colour) :
  GoBoard.get bd (row, col) = Some c' ->
  GoBoard.play bd row col c = Raised ValueError.
Proof.
  intros Hg. unfold GoBoard.play.
  destruct (GoBoard.on_board bd (row, col)) eqn:Hon.
  - cbn [negb]. now rewrite Hg.
  - unfold GoBoard.get in Hg. rewrite Hon in Hg. discriminate.
Qed.

#[export] Instance GoBoard_laws : Board_laws GoBoard.t.
Proof.
  split.
  - exact GoBoard_new_is_empty.
  - intros b row col c c'. exact (GoBoard_play_occupied b row col c c').
Qed.

(** ** The protocol state machine *)

Section EngineFacts.

Context {Board : Type} {Cookie : Type} {GenSt : Type}.
Context `{BO : Board_ops Board} `{GH : Gtp_helpers} `{SF : Sgf_files Board}.

Variable move_generator :
  GenSt -> Game_state (Board := Board) (Cookie := Cookie) -> colour ->
  Move_generator_result (Cookie := Cookie) * GenSt.

Abbreviation World := (World (Board := Board) (Cookie := Cookie) (GenSt := GenSt)).
Abbreviation Gtp_state := (Gtp_state (Board := Board) (Cookie := Cookie)).
Abbreviation History_move := (History_move (Cookie := Cookie)).

(** *** komi *)

Lemma set_komi_finite (q : Q) (w : World) :
  set_komi (Finite q) w
  = (Normal tt, with_self (set_komi_attr (Z.max (-625) (Z.min 625 (Qfloor q))) (self w)) w).
Proof.
  unfold set_komi, try_except, bind, lift, ret, assign, with_self, int_floor.
  cbn. change (Z.opp 625) with (-625).
  destruct (Qfloor q <? -625) eqn:E1.
  - apply Z.ltb_lt in E1.
    replace (-625 >? 625) with false by reflexivity.
    replace (Z.max (-625) (Z.min 625 (Qfloor q))) with (-625) by lia. reflexivity.
  - apply Z.ltb_ge in E1. destruct (Qfloor q >? 625) eqn:E2.
    + apply Z.gtb_lt in E2.
      replace (Z.max (-625) (Z.min 625 (Qfloor q))) with 625 by lia. reflexivity.
    + rewrite Z.gtb_ltb in E2. apply Z.ltb_ge in E2.
      replace (Z.max (-625) (Z.min 625 (Qfloor q))) with (Qfloor q) by lia. reflexivity.
Qed.

Lemma set_komi_infinite (negative : bool) (w : World) :
  set_komi (Infinity negative) w
  = (Normal tt, with_self (set_komi_attr (if negative then -625 else 625) (self w)) w).
Proof. destruct negative; reflexivity. Qed.

Lemma set_komi_nan (w : World) : set_komi NaN w = (Raised ValueError, w).
Proof. reflexivity. Qed.

(** C5, amended: for every argument that parses to a float [f] other than
    [nan], the [komi] command returns normally and stores the floor of [f]
    clamped to [-625, 625] (for an infinity, the clamp bound of its sign), and
    changes nothing else. *)
Theorem komi_stores_clamped_floor (a : string) (rest : list string) (f : pyfloat)
    (k : Z) (w : World) :
  interpret_float a = Normal f ->
  expected_komi f = Some k ->
  handle_komi (a :: rest) w = (Normal None, with_self (set_komi_attr k (self w)) w)
  /\ komi (self (snd (handle_komi (a :: rest) w))) = k
  /\ -625 <= k <= 625.
Proof.
  intros Hf Hk.
  assert (E : handle_komi (a :: rest) w
              = (Normal None, with_self (set_komi_attr k (self w)) w)).
  { unfold handle_komi, try_except, bind, arg_at, lift, ret. cbn. rewrite Hf.
    destruct f as [q|negative|]; cbn in Hk; inversion Hk; subst k.
    - now rewrite set_komi_finite.
    - now rewrite set_komi_infinite. }
  split; [exact E|]. rewrite E. split; [reflexivity|].
  destruct f as [q|[]|]; cbn in Hk; inversion Hk; lia.
Qed.

(** *** genmove *)

(** C8: a [genmove], [gomill-genmove_claim] or [reg_genmove] command for
    colour [c] calls the move generator exactly once, for colour [c], with a
    [Game_state] whose [ko_point] is the current [simple_ko_point] when that
    is set and [simple_ko_player] is [c], and is [None] in every other
    case. *)
Theorem genmove_passes_ko_point (cmd : command) (a : string) (rest : list string)
    (c : colour) (w : World) :
  cmd = genmove \/ cmd = genmove_claim \/ cmd = reg_genmove ->
  interpret_colour a = Normal c ->
  exists G answer,
    generator_calls (snd (handler move_generator cmd (a :: rest) w))
      = generator_calls w ++ [mk_call G c answer]
    /\ (forall p, simple_ko_point (self w) = Some p ->
                  simple_ko_player (self w) = Some c -> gs_ko_point G = Some p)
    /\ (simple_ko_player (self w) <> Some c -> gs_ko_point G = None)
    /\ (simple_ko_point (self w) = None -> gs_ko_point G = None).
Proof.
  intros Hcmd Hc.
  assert (Hcall : forall fr ac, exists answer,
    generator_calls (snd (_handle_genmove move_generator (a :: rest) fr ac w))
    = generator_calls w
      ++ [mk_call (genmove_game_state (self w) c fr) c answer]).
  { intros fr ac.
    unfold _handle_genmove, try_except, bind, arg_at, lift, ret, get_self,
      call_move_generator, append_move, assign, play_on_board, raise.
    cbn. rewrite Hc. cbn.
    destruct (move_generator (generator w) (genmove_game_state (self w) c fr) c)
      as [generated g'].
    exists generated.
    destruct generated as [rs ps mv cl cm ck]; cbn.
    destruct ac, cl, rs, ps, fr; cbn; try reflexivity;
      destruct mv as [[row col]|]; cbn; try reflexivity;
      destruct (Board_play (board (self w)) row col c) as [[b' ko]|e]; cbn;
      try reflexivity; destruct e; reflexivity. }
  assert (Hko : forall fr,
    (forall p, simple_ko_point (self w) = Some p ->
               simple_ko_player (self w) = Some c ->
               gs_ko_point (genmove_game_state (self w) c fr) = Some p)
    /\ (simple_ko_player (self w) <> Some c ->
        gs_ko_point (genmove_game_state (self w) c fr) = None)
    /\ (simple_ko_point (self w) = None ->
        gs_ko_point (genmove_game_state (self w) c fr) = None)).
  { intros fr. cbn. repeat split.
    - intros p Hp Hpl. rewrite Hp. now destruct (decide _).
    - intros Hne. destruct (simple_ko_point (self w)); [|reflexivity].
      now destruct (decide _).
    - intros Hn. now rewrite Hn. }
  destruct Hcmd as [-> | [-> | ->]]; cbn [handler];
    unfold handle_genmove, handle_genmove_claim, handle_reg_genmove.
  - destruct (Hcall false false) as [answer Ha]. eauto.
  - destruct (Hcall false true) as [answer Ha]. eauto.
  - destruct (Hcall true false) as [answer Ha]. eauto.
Qed.

(** *** Construction *)

Lemma fold_left_min_spec (xs : list Z) (x : Z) :
  In (fold_left Z.min xs x) (x :: xs)
  /\ forall y, In y (x :: xs) -> fold_left Z.min xs x <= y.
Proof.
  revert x. induction xs as [|z xs IH]; intros x; cbn [fold_left].
  - split; [now left|]. intros y [<-|[]]. lia.
  - destruct (IH (Z.min x z)) as [Hin Hle]. split.
    + destruct Hin as [Heq|Hin].
      * rewrite <- Heq. destruct (Z.min_spec x z) as [[_ ->]|[_ ->]];
          [now left | right; now left].
      * right; now right.
    + intros y Hy.
      assert (Hm : fold_left Z.min xs (Z.min x z) <= Z.min x z)
        by (apply Hle; now left).
      destruct Hy as [<-|[<-|Hy]]; [lia | lia |].
      apply Hle. now right.
Qed.

Lemma py_min_spec (l : list Z) :
  l <> [] ->
  exists n, py_min (list_to_set l) = Some n /\ In n l /\ forall x, In x l -> n <= x.
Proof.
  intros Hne. unfold py_min.
  destruct (elements (list_to_set l : gset Z)) as [|x xs] eqn:E.
  - exfalso. destruct l as [|y l]; [congruence|].
    assert (Hy : y ∈ elements (list_to_set (y :: l) : gset Z)).
    { apply elem_of_elements. apply elem_of_list_to_set. left. }
    rewrite E in Hy. inversion Hy.
  - destruct (fold_left_min_spec xs x) as [Hin Hle].
    exists (fold_left Z.min xs x). split; [reflexivity|]. split.
    + apply list_elem_of_In. apply (elem_of_list_to_set (C := gset Z)).
      apply elem_of_elements. rewrite E. now apply list_elem_of_In.
    + intros y Hy. apply Hle. apply list_elem_of_In. rewrite <- E.
      apply elem_of_elements. apply elem_of_list_to_set. now apply list_elem_of_In.
Qed.

(** C10: constructed with a non-empty collection of acceptable sizes, a
    [Gtp_state] starts at the least of them; constructed without a
    collection, it starts at 19; in both cases construction succeeds and
    leaves a full reset at that size: empty board, empty history base, no
    recorded move, no handicap, no ko ban. *)
Theorem init_is_full_reset `{!Board_laws Board}
    (sizes : option (list Z)) (g : GenSt) :
  sizes <> Some [] ->
  exists (n : Z) (w : World),
    Gtp_state_init sizes g = (Normal tt, w)
    /\ full_reset (self w) n
    /\ match sizes with
       | None => n = 19 /\ acceptable_sizes (self w) = {[ 19 ]}
       | Some l =>
           In n l /\ (forall x, In x l -> n <= x)
           /\ acceptable_sizes (self w) = list_to_set l
       end.
Proof.
  intros Hne. destruct sizes as [l|].
  - assert (Hl : l <> []) by congruence.
    destruct (py_min_spec l Hl) as (n & Hmin & Hin & Hle).
    exists n. unfold Gtp_state_init. rewrite Hmin.
    eexists. split; [reflexivity|]. split.
    + unfold full_reset; cbn. repeat split; apply Board_new_is_empty.
    + split; [exact Hin|]. split; [exact Hle|]. reflexivity.
  - exists 19. eexists. split; [reflexivity|]. split.
    + unfold full_reset; cbn. repeat split; apply Board_new_is_empty.
    + split; reflexivity.
Qed.

(** *** Replay, play and undo *)

Lemma replay_board_snoc (b b1 : Board) (ms : list History_move) (m : History_move) :
  replay_board b ms = Normal b1 ->
  replay_board b (ms ++ [m]) = replay_board b1 [m].
Proof.
  revert b. induction ms as [|x ms IH]; intros b Hr; cbn in *.
  - now inversion Hr.
  - destruct (hm_coords x) as [[row col]|]; [|now apply IH].
    destruct (Board_play b row col (hm_colour x)) as [[b' ko]|e]; [|discriminate].
    now apply IH.
Qed.

Lemma replay_board_prefix (b b' : Board) (xs ys : list History_move) :
  replay_board b (xs ++ ys) = Normal b' ->
  exists b1, replay_board b xs = Normal b1.
Proof.
  revert b. induction xs as [|x xs IH]; intros b Hr; cbn in *.
  - eauto.
  - destruct (hm_coords x) as [[row col]|]; [|now apply IH].
    destruct (Board_play b row col (hm_colour x)) as [[b1 ko]|e]; [|discriminate].
    now apply IH.
Qed.

Lemma base_state_replayed (s : Gtp_state) : base_state s -> replayed s.
Proof. intros [Hm Hb]. unfold replayed. rewrite Hm, Hb. reflexivity. Qed.

(** The loop of [reset_to_moves] reaches the board of the replay and leaves
    the history base alone. *)
Lemma reset_to_moves_loop (moves : list History_move)
    (locals : option coords * option colour) (w : World) (b' : Board) :
  replay_board (board (self w)) moves = Normal b' ->
  exists locals' w',
    for_in moves locals reset_to_moves_body w = (Normal locals', w')
    /\ board (self w') = b'
    /\ history_base (self w') = history_base (self w).
Proof.
  revert locals w. induction moves as [|m moves IH]; intros [kp kpl] w Hr.
  - cbn in *. inversion Hr. eauto.
  - cbn [for_in replay_board] in *. unfold bind at 1.
    unfold reset_to_moves_body, is_pass.
    destruct (hm_coords m) as [[row col]|] eqn:Hc.
    + unfold play_on_board, bind, ret. cbn.
      destruct (Board_play (board (self w)) row col (hm_colour m)) as [[b1 ko]|e];
        [|discriminate].
      destruct (IH (ko, Some (opponent_of (hm_colour m)))
                  (mk_World (set_board b1 (self w)) (generator w) (generator_calls w))
                  Hr) as (l' & w' & E & Hb & Hh).
      exists l', w'. split; [exact E|]. split; [exact Hb|exact Hh].
    + unfold assign, bind, ret. cbn.
      destruct (IH (kp, kpl)
                  (mk_World (set_simple_ko_point None (self w)) (generator w)
                     (generator_calls w)) Hr) as (l' & w' & E & Hb & Hh).
      exists l', w'. split; [exact E|]. split; [exact Hb|exact Hh].
Qed.

Lemma reset_to_moves_replays (moves : list History_move) (w : World) (b' : Board) :
  replay_board (history_base (self w)) moves = Normal b' ->
  exists w',
    reset_to_moves moves w = (Normal tt, w')
    /\ board (self w') = b'
    /\ history_base (self w') = history_base (self w)
    /\ move_history (self w') = moves.
Proof.
  intros Hr. unfold reset_to_moves, bind at 1, get_self. unfold bind at 1.
  unfold assign at 1. cbn.
  destruct (reset_to_moves_loop moves (None, None)
              (mk_World (set_board (Board_copy (history_base (self w))) (self w))
                 (generator w) (generator_calls w)) b' Hr)
    as (l' & w' & E & Hb & Hh).
  unfold bind at 1. rewrite E. unfold bind, assign, ret. cbn.
  eexists. split; [reflexivity|]. cbn. auto.
Qed.

(** A [play] command that returns normally keeps the board the replay of
    the history, on the same history base. *)
Lemma handle_play_replayed (args : list string) (w w' : World) (r : option string) :
  handle_play args w = (Normal r, w') ->
  replayed (self w) ->
  replayed (self w') /\ history_base (self w') = history_base (self w).
Proof.
  unfold handle_play, bind, report_bad_arguments, raise, lift, ret, get_self,
    try_except, play_on_board, append_move, assign, replayed.
  intros E Hr.
  destruct (firstn 2 args) as [|a0 [|a1 [|a2 l]]]; cbn in E; try discriminate.
  destruct (interpret_colour a0) as [c|e]; cbn in E; try discriminate.
  destruct (interpret_vertex a1 (board_size (self w))) as [[[row col]|]|e];
    cbn in E; try discriminate.
  - destruct (Board_play (board (self w)) row col c) as [[b1 ko]|e] eqn:Hp;
      cbn in E; [|destruct e; discriminate].
    inversion E; subst; cbn. split; [|reflexivity].
    rewrite (replay_board_snoc _ _ _ _ Hr). cbn. now rewrite Hp.
  - inversion E; subst; cbn. split; [|reflexivity].
    rewrite (replay_board_snoc _ _ _ _ Hr). reflexivity.
Qed.

Lemma run_plays_replayed (plays : list (command * list string)) (w w1 : World)
    (rs : list (result (option string))) :
  Forall (fun c => fst c = play) plays ->
  run_commands move_generator plays w = (rs, w1) ->
  Forall succeeded rs ->
  replayed (self w) ->
  replayed (self w1) /\ history_base (self w1) = history_base (self w).
Proof.
  revert w rs. induction plays as [|[c args] plays IH]; intros w rs Hall E Hok Hr.
  - cbn in E. inversion E; subst. auto.
  - cbn [run_commands] in E. inversion Hall as [|? ? Hc Hall']; subst. cbn in Hc. subst c.
    cbn [handler] in E.
    destruct (handle_play args w) as [r wa] eqn:Ea.
    destruct (run_commands move_generator plays wa) as [rs' wb] eqn:Eb.
    inversion E; subst. inversion Hok as [|? ? [x Hx] Hok']; subst.
    destruct (handle_play_replayed _ _ _ _ Ea Hr) as [Hra Hha].
    destruct (IH _ _ Hall' Eb Hok' Hra) as [Hrb Hhb].
    split; [exact Hrb|]. now rewrite Hhb.
Qed.

(** With a recorded move and a board that is the replay of the history,
    [undo] succeeds: it drops the last move and replays the others. *)
Lemma handle_undo_replayed (args : list string) (w : World) :
  replayed (self w) ->
  move_history (self w) <> [] ->
  exists w',
    handle_undo args w = (Normal None, w')
    /\ replayed (self w')
    /\ history_base (self w') = history_base (self w)
    /\ move_history (self w') = removelast (move_history (self w)).
Proof.
  intros Hr Hne. unfold replayed in Hr.
  assert (Hsplit : move_history (self w)
                   = removelast (move_history (self w))
                     ++ [List.last (move_history (self w))
                           (mk_History_move black None None None)])
    by (now apply app_removelast_last).
  rewrite Hsplit in Hr.
  destruct (replay_board_prefix _ _ _ _ Hr) as [b1 Hb1].
  destruct (reset_to_moves_replays _ w b1 Hb1) as (w' & E & Hb & Hh & Hm).
  exists w'. unfold handle_undo, bind at 1, get_self.
  destruct (move_history (self w)) as [|m ms] eqn:Emh; [congruence|].
  unfold bind, try_except, ret. rewrite E.
  split; [reflexivity|]. split; [|split; [exact Hh | exact Hm]].
  unfold replayed. rewrite Hh, Hm, Hb. exact Hb1.
Qed.

Lemma length_removelast_history (ms : list History_move) :
  ms <> [] -> length (removelast ms) = Nat.pred (length ms).
Proof.
  intros Hne. rewrite (app_removelast_last (mk_History_move black None None None) Hne) at 2.
  rewrite length_app. cbn. lia.
Qed.

Lemma undo_until_empty (k : nat) (w : World) :
  length (move_history (self w)) = k ->
  replayed (self w) ->
  exists w2,
    run_commands move_generator (repeat (undo, []) k) w = (repeat (Normal None) k, w2)
    /\ move_history (self w2) = []
    /\ board (self w2) = history_base (self w2)
    /\ history_base (self w2) = history_base (self w).
Proof.
  revert w. induction k as [|k IH]; intros w Hlen Hr.
  - exists w. split; [reflexivity|].
    destruct (move_history (self w)) eqn:E; [|discriminate].
    split; [reflexivity|]. split; [|reflexivity].
    unfold replayed in Hr. rewrite E in Hr. cbn in Hr. now inversion Hr.
  - assert (Hne : move_history (self w) <> [])
      by (intros E; rewrite E in Hlen; discriminate).
    destruct (handle_undo_replayed [] w Hr Hne) as (w' & E & Hr' & Hh & Hm).
    assert (Hlen' : length (move_history (self w')) = k).
    { rewrite Hm, (length_removelast_history _ Hne), Hlen. reflexivity. }
    destruct (IH w' Hlen' Hr') as (w2 & E2 & Hm2 & Hb2 & Hh2).
    exists w2. cbn [repeat run_commands handler]. rewrite E, E2.
    split; [reflexivity|]. split; [exact Hm2|]. split; [exact Hb2|].
    now rewrite Hh2.
Qed.

(** C9: from a state without recorded moves whose board is its history base
    (a fresh state, or the state a handicap command leaves), after any
    sequence of [play] commands that all succeed, one [undo] per recorded
    move succeeds every time, empties the move history and leaves the board
    equal to the history base, which is the one the session started from. *)
Theorem undo_all_returns_to_history_base (plays : list (command * list string))
    (w0 w1 : World) (rs : list (result (option string))) :
  base_state (self w0) ->
  Forall (fun c => fst c = play) plays ->
  run_commands move_generator plays w0 = (rs, w1) ->
  Forall succeeded rs ->
  exists w2,
    run_commands move_generator
      (repeat (undo, []) (length (move_history (self w1)))) w1
    = (repeat (Normal None) (length (move_history (self w1))), w2)
    /\ move_history (self w2) = []
    /\ board (self w2) = history_base (self w2)
    /\ history_base (self w2) = history_base (self w0).
Proof.
  intros Hbase Hall E Hok.
  destruct (run_plays_replayed plays w0 w1 rs Hall E Hok (base_state_replayed _ Hbase))
    as [Hr Hh].
  destruct (undo_until_empty _ w1 eq_refl Hr) as (w2 & E2 & Hm & Hb & Hh2).
  exists w2. split; [exact E2|]. split; [exact Hm|]. split; [exact Hb|].
  now rewrite Hh2.
Qed.

(** A command that resets the board or places handicap stones leaves, when
    it succeeds, a state without recorded moves whose board is its history
    base. *)
Lemma fresh_or_handicap_is_base_state (cmd : command) (args : list string)
    (w w' : World) (r : option string) :
  cmd = boardsize \/ cmd = clear_board \/ cmd = fixed_handicap
  \/ cmd = set_free_handicap \/ cmd = place_free_handicap ->
  handler move_generator cmd args w = (Normal r, w') ->
  base_state (self w').
Proof.
  intros Hcmd E.
  destruct Hcmd as [-> | [-> | [-> | [-> | ->]]]]; cbn [handler] in E.
  - unfold handle_boardsize, bind at 1 in E.
    destruct (try_except _ _ w) as [[size|e] w1]; [|discriminate].
    unfold bind at 1, get_self in E.
    destruct (decide (size ∈ acceptable_sizes (self w1))); [|discriminate].
    cbn in E. inversion E; subst. split; reflexivity.
  - cbn in E. inversion E; subst. split; reflexivity.
  - unfold handle_fixed_handicap, bind at 1 in E.
    destruct (try_except _ _ w) as [[n|e] w1]; [|discriminate].
    unfold bind at 1, get_self in E.
    destruct (Board_is_empty (board (self w1))); [|discriminate]. cbn [negb] in E.
    destruct (handicap_points n (board_size (self w1))) as [points|]; [|discriminate].
    unfold bind at 1 in E.
    destruct (for_in points tt _ w1) as [[u|e] w2]; [|discriminate].
    cbn in E. inversion E; subst. split; reflexivity.
  - unfold handle_set_free_handicap, bind at 1 in E.
    destruct ((if Z.of_nat (length args) <? 2 then report_bad_arguments else ret tt) w)
      as [[u|e] w1]; [|discriminate].
    unfold bind at 1 in E.
    destruct (for_in args tt _ w1) as [[u'|e] w2]; [|discriminate].
    cbn in E. inversion E; subst. split; reflexivity.
  - unfold handle_place_free_handicap, bind at 1 in E.
    destruct (try_except _ _ w) as [[n|e] w1]; [|discriminate].
    unfold bind at 1, get_self in E.
    destruct (negb _); [discriminate|].
    destruct (negb _); [discriminate|].
    unfold bind at 1 in E.
    destruct (for_in _ _ _ w1) as [[l|e] w2]; [|discriminate].
    cbn in E. inversion E; subst. split; reflexivity.
Qed.

(** *** place_free_handicap *)

Lemma placed_app (b b1 b2 : Board) (ms1 ms2 : list coords) :
  placed b ms1 b1 -> placed b1 ms2 b2 -> placed b (ms1 ++ ms2) b2.
Proof.
  intros H1 H2. induction H2 as [|b1 b2 b3 ms row col ko Hp IH Hg Hplay].
  - now rewrite app_nil_r.
  - rewrite app_assoc. eapply placed_more; eauto.
Qed.

Lemma placed_one `{!Board_laws Board} (b b' : Board) (row col : Z) (ko : option coords) :
  Board_play b row col black = Normal (b', ko) ->
  placed b [(row, col)] b' /\ Board_get b row col = None.
Proof.
  intros Hp.
  assert (Hg : Board_get b row col = None).
  { destruct (Board_get b row col) as [c'|] eqn:Hg; [|reflexivity].
    rewrite (Board_play_occupied b row col black c' Hg) in Hp. discriminate. }
  split; [|exact Hg].
  change [(row, col)] with ([] ++ [(row, col)]).
  eapply placed_more; [apply placed_none | exact Hg | exact Hp].
Qed.

(** One iteration of the loop: the generator is called once, on the current
    board; the iteration places nothing (pass or resign), or places the
    answered stone on a point that was free, or raises without touching the
    board, with the protocol error naming the vertex when the answered point
    was occupied. *)
Lemma place_free_handicap_body_spec `{!Board_laws Board} (max_fake_komi : Z)
    (moves : list coords) (fake_komi : Z) (w w' : World)
    (r : result (list coords * Z)) :
  place_free_handicap_body move_generator max_fake_komi (moves, fake_komi) w = (r, w') ->
  exists c ms,
    generator_calls w' = generator_calls w ++ [c]
    /\ placed (board (self w)) ms (board (self w'))
    /\ match r with
       | Normal locals' =>
           fst locals' = moves ++ ms
           /\ (forall p, ~ occupied_answer c p)
           /\ (length ms + (if skipped (call_answer c) then 1 else 0) = 1)%nat
       | Raised e =>
           ms = []
           /\ (forall p, occupied_answer c p ->
                         e = GtpError ("engine error: tried to play " ++ format_vertex p))
       end.
Proof.
  unfold place_free_handicap_body, bind at 1, get_self. unfold bind at 1.
  unfold call_move_generator.
  set (G := mk_Game_state _ _ _ _ _ _ _ _ _ _ _).
  destruct (move_generator (generator w) G black) as [generated g'] eqn:Eg.
  intros E. exists (mk_call G black generated).
  destruct (skipped generated) eqn:Hsk.
  { assert (E' : r = Normal (moves, if pass_move generated then fake_komi else 0)
                 /\ w' = mk_World (self w) g'
                           (generator_calls w ++ [mk_call G black generated])).
    { unfold skipped in Hsk. destruct (pass_move generated); cbn in Hsk.
      - cbn in E. now inversion E.
      - rewrite Hsk in E. cbn in E. now inversion E. }
    destruct E' as [-> ->]. exists []. cbn. rewrite Hsk.
    split; [reflexivity|]. split; [apply placed_none|].
    split; [now rewrite app_nil_r|]. split; [|reflexivity].
    intros p [Hs _]. cbn in Hs. congruence. }
  assert (Ep : pass_move generated = false)
    by (unfold skipped in Hsk; now destruct (pass_move generated)).
  assert (Er : resign generated = false)
    by (unfold skipped in Hsk; rewrite Ep in Hsk; exact Hsk).
  rewrite Ep, Er in E.
  destruct (move generated) as [[row col]|] eqn:Em.
  2:{ cbn in E. inversion E; subst. exists []. cbn.
      split; [reflexivity|]. split; [apply placed_none|]. split; [reflexivity|].
      intros p (_ & Hm & _). cbn in Hm. congruence. }
  unfold bind, try_except, play_on_board, ret, raise, on_ValueError in E. cbn in E.
  destruct (Board_play (board (self w)) row col black) as [[b1 ko]|e] eqn:Hp.
  - inversion E; subst. destruct (placed_one _ _ _ _ _ Hp) as [Hpl Hg].
    exists [(row, col)]. cbn. rewrite Hsk.
    split; [reflexivity|]. split; [exact Hpl|]. split; [reflexivity|].
    split; [|reflexivity]. intros p (_ & Hm & Hocc). cbn in Hm, Hocc.
    rewrite Em in Hm. inversion Hm; subst p. cbn in Hocc. congruence.
  - assert (Hw : w' = mk_World (self w) g' (generator_calls w ++ [mk_call G black generated])
                 /\ (forall p, occupied_answer (mk_call G black generated) p ->
                       r = Raised (GtpError ("engine error: tried to play "
                                             ++ format_vertex p)))).
    { split.
      - destruct e; inversion E; reflexivity.
      - intros p (_ & Hm & Hocc). cbn in Hm, Hocc. rewrite Em in Hm.
        inversion Hm; subst p. cbn in Hocc.
        destruct (Board_get (board (self w)) row col) as [c'|] eqn:Hg; [|congruence].
        rewrite (Board_play_occupied _ row col black c' Hg) in Hp.
        inversion Hp; subst e. inversion E; reflexivity. }
    destruct Hw as [-> Hocc]. exists []. cbn.
    split; [reflexivity|]. split; [apply placed_none|].
    destruct r as [l|e']; [destruct e; discriminate|].
    split; [reflexivity|]. intros p Hp'. specialize (Hocc p Hp'). now inversion Hocc.
Qed.

(** The whole loop. *)
Lemma place_free_handicap_loop_spec `{!Board_laws Board} (max_fake_komi : Z)
    (xs : list Z) (moves : list coords) (fake_komi : Z) (w w' : World)
    (r : result (list coords * Z)) :
  for_in xs (moves, fake_komi)
    (fun _ locals => place_free_handicap_body move_generator max_fake_komi locals) w
  = (r, w') ->
  exists ms cs,
    generator_calls w' = generator_calls w ++ cs
    /\ placed (board (self w)) ms (board (self w'))
    /\ (forall c p, In c cs -> occupied_answer c p ->
          r = Raised (GtpError ("engine error: tried to play " ++ format_vertex p)))
    /\ match r with
       | Normal locals' =>
           fst locals' = moves ++ ms
           /\ (length ms
               + length (List.filter (fun c => skipped (call_answer c)) cs)
               = length xs)%nat
       | Raised _ => (length ms < length xs)%nat
       end.
Proof.
  revert moves fake_komi w. induction xs as [|x xs IH]; intros moves fake_komi w E.
  - cbn in E. inversion E; subst. exists [], []. cbn.
    split; [now rewrite app_nil_r|]. split; [apply placed_none|].
    split; [intros c p []|]. split; [now rewrite app_nil_r | reflexivity].
  - cbn [for_in] in E. unfold bind at 1 in E.
    destruct (place_free_handicap_body move_generator max_fake_komi (moves, fake_komi) w)
      as [r1 w1] eqn:E1.
    destruct (place_free_handicap_body_spec _ _ _ _ _ _ E1)
      as (c & ms1 & Hc1 & Hp1 & Hr1).
    destruct r1 as [[moves1 fk1]|e1].
    + destruct Hr1 as (Hm1 & Hno & Hcount). cbn in Hm1. subst moves1.
      destruct (IH _ _ _ E) as (ms & cs & Hc & Hp & Hocc & Hr).
      exists (ms1 ++ ms), (c :: cs).
      split; [rewrite Hc, Hc1, <- app_assoc; reflexivity|].
      split; [eapply placed_app; eauto|].
      split.
      * intros c' p [<-|Hin] Ho; [exfalso; exact (Hno p Ho) | eauto].
      * destruct r as [locals'|e].
        -- destruct Hr as [Hf Hl]. split; [now rewrite Hf, app_assoc|].
           cbn [List.filter]. rewrite length_app.
           destruct (skipped (call_answer c)); cbn [length] in *; lia.
        -- rewrite length_app. cbn [length].
           destruct (skipped (call_answer c)); lia.
    + destruct Hr1 as [-> Hocc1]. inversion E; subst.
      exists [], [c]. split; [exact Hc1|]. split; [exact Hp1|].
      split.
      * intros c' p [<-|[]] Ho. now rewrite (Hocc1 p Ho).
      * cbn. lia.
Qed.

Lemma length_xrange (n : Z) : length (xrange n) = Z.to_nat n.
Proof. unfold xrange. now rewrite length_map, length_seq. Qed.

(** The command, once its argument is parsed: the two checks, the loop,
    and the assignments after the loop. *)
Lemma handle_place_free_handicap_parsed (a : string) (rest : list string) (n : Z)
    (w : World) :
  interpret_int a = Normal n ->
  handle_place_free_handicap move_generator (a :: rest) w
  = let mx := max_free_handicap_for_board_size (board_size (self w)) in
    if negb ((2 <=? n) && (n <=? mx)) then
      (Raised (GtpError "invalid number of stones"), w)
    else if negb (Board_is_empty (board (self w))) then
      (Raised (GtpError "board not empty"), w)
    else
      let n' := if n =? mx then mx - 1 else n in
      match for_in (xrange n') ([], 0)
              (fun _ locals =>
                 place_free_handicap_body move_generator
                   (board_size (self w) * board_size (self w) - 2) locals) w with
      | (Normal locals, w1) =>
          (Normal (Some (String.concat " " (map format_vertex (fst locals)))),
           with_self
             (set_move_history []
                (set_history_base_attr (board (self w1))
                   (set_handicap (Some n')
                      (set_simple_ko_point None (self w1))))) w1)
      | (Raised e, w1) => (Raised e, w1)
      end.
Proof.
  intros Hn. unfold handle_place_free_handicap.
  unfold bind at 1. unfold try_except, bind at 1, arg_at, lift, ret. cbn.
  rewrite Hn. cbn.
  destruct (negb _); [reflexivity|].
  destruct (negb _); [reflexivity|].
  unfold bind at 1.
  destruct (for_in _ _ _ w) as [[locals|e] w1]; reflexivity.
Qed.

(** C6: a [place_free_handicap] command asking for [n] stones places black
    stones [ms], each accepted by the board on a point that was not occupied,
    and
    - at most [n] of them, and at most [n - 1] when [n] is the maximum for
      the board size;
    - strictly fewer than [n] when some answer of the move generator was a
      pass or a resignation;
    - when the generator answers with an occupied point, the command fails
      with the protocol error that names the vertex;
    - when the command succeeds, it returns the vertices of [ms] in order. *)
Theorem place_free_handicap_bounds `{!Board_laws Board}
    (a : string) (rest : list string) (n : Z) (w : World) :
  interpret_int a = Normal n ->
  exists (ms : list coords) (cs : list generator_call),
    generator_calls (snd (handle_place_free_handicap move_generator (a :: rest) w))
      = generator_calls w ++ cs
    /\ placed (board (self w)) ms
         (board (self (snd (handle_place_free_handicap move_generator (a :: rest) w))))
    /\ Z.of_nat (length ms) <= Z.max 0 n
    /\ (n = max_free_handicap_for_board_size (board_size (self w)) ->
        Z.of_nat (length ms) <= Z.max 0 (n - 1))
    /\ (Exists (fun c => skipped (call_answer c) = true) cs ->
        Z.of_nat (length ms) < n)
    /\ (forall c p, In c cs -> occupied_answer c p ->
          fst (handle_place_free_handicap move_generator (a :: rest) w)
          = Raised (GtpError ("engine error: tried to play " ++ format_vertex p)))
    /\ (forall out,
          fst (handle_place_free_handicap move_generator (a :: rest) w) = Normal out ->
          out = Some (String.concat " " (map format_vertex ms))).
Proof.
  intros Hn. rewrite (handle_place_free_handicap_parsed a rest n w Hn). cbv zeta.
  set (mx := max_free_handicap_for_board_size (board_size (self w))).
  assert (Hnone : forall e : exc,
    exists (ms : list coords) (cs : list generator_call),
      generator_calls (snd (Raised (A := option string) e, w)) = generator_calls w ++ cs
      /\ placed (board (self w)) ms (board (self (snd (Raised (A := option string) e, w))))
      /\ Z.of_nat (length ms) <= Z.max 0 n
      /\ (n = mx -> Z.of_nat (length ms) <= Z.max 0 (n - 1))
      /\ (Exists (fun c => skipped (call_answer c) = true) cs ->
          Z.of_nat (length ms) < n)
      /\ (forall c p, In c cs -> occupied_answer c p ->
            fst (Raised (A := option string) e, w)
            = Raised (GtpError ("engine error: tried to play " ++ format_vertex p)))
      /\ (forall out, fst (Raised (A := option string) e, w) = Normal out ->
            out = Some (String.concat " " (map format_vertex ms)))).
  { intros e. exists [], []. cbn.
    split; [now rewrite app_nil_r|]. split; [apply placed_none|].
    split; [lia|]. split; [lia|].
    split; [intros Hex; inversion Hex|]. split; [intros c p []|]. discriminate. }
  destruct ((2 <=? n) && (n <=? mx)) eqn:Hrange; cbn [negb]; [|apply Hnone].
  destruct (Board_is_empty (board (self w))); cbn [negb]; [|apply Hnone].
  clear Hnone. apply andb_true_iff in Hrange. destruct Hrange as [H2 Hmx].
  apply Z.leb_le in H2. apply Z.leb_le in Hmx.
  set (n' := if n =? mx then mx - 1 else n).
  assert (Hn' : 1 <= n' <= n /\ (n = mx -> n' = n - 1)).
  { subst n'. destruct (n =? mx) eqn:En.
    - apply Z.eqb_eq in En. lia.
    - apply Z.eqb_neq in En. lia. }
  destruct (for_in (xrange n') ([], 0) _ w) as [r w1] eqn:Eloop.
  destruct (place_free_handicap_loop_spec _ _ _ _ _ _ _ Eloop)
    as (ms & cs & Hc & Hp & Hocc & Hr).
  rewrite length_xrange in Hr.
  exists ms, cs. destruct r as [[moves fk]|e]; cbn.
  - destruct Hr as [Hf Hl]. cbn in Hf. subst moves.
    split; [exact Hc|]. split; [exact Hp|].
    split; [lia|]. split; [lia|].
    split.
    + intros Hex.
      assert (0 < length (List.filter (fun c => skipped (call_answer c)) cs))%nat.
      { apply Exists_exists in Hex. destruct Hex as (c & Hin & Hs).
        assert (Hin' : In c (List.filter (fun c => skipped (call_answer c)) cs))
          by (apply filter_In; split; [now apply list_elem_of_In | exact Hs]).
        destruct (List.filter _ cs); [destruct Hin'|cbn; lia]. }
      lia.
    + split; [intros c p Hin Ho; specialize (Hocc c p Hin Ho); discriminate|].
      intros out Ho. now inversion Ho.
  - split; [exact Hc|]. split; [exact Hp|].
    split; [lia|]. split; [lia|]. split; [lia|].
    split; [intros c p Hin Ho; specialize (Hocc c p Hin Ho); now inversion Hocc|].
    discriminate.
Qed.

(** *** Commands that fail *)

(** The commands that check before they assign: when one of them raises,
    whatever the exception, the [Gtp_state] object is as it was.  (The
    generator may have been called.)  The handicap commands, [undo] and
    [loadsgf] are not among them. *)
Lemma failed_command_leaves_state (cmd : command) (args : list string)
    (w w' : World) (e : exc) :
  cmd = boardsize \/ cmd = clear_board \/ cmd = komi_cmd \/ cmd = play
  \/ cmd = genmove \/ cmd = genmove_claim \/ cmd = reg_genmove
  \/ cmd = explain_last_move \/ cmd = time_left \/ cmd = time_settings_cmd ->
  handler move_generator cmd args w = (Raised e, w') ->
  self w' = self w.
Proof.
  assert (Hgen : forall fr ac,
            _handle_genmove move_generator args fr ac w = (Raised e, w') ->
            self w' = self w).
  { intros fr ac E.
    unfold _handle_genmove, try_except, bind, arg_at, lift, ret, get_self,
      call_move_generator, append_move, assign, play_on_board, raise,
      report_bad_arguments in E.
    destruct args as [|a rest]; cbn in E; [now inversion E|].
    destruct (interpret_colour a) as [c|e0]; cbn in E;
      [|destruct e0; now inversion E].
    destruct (move_generator (generator w) (genmove_game_state (self w) c fr) c)
      as [generated g'].
    destruct generated as [rs ps mv cl cm ck]; cbn in E.
    destruct ac, cl, rs, ps, fr; cbn in E; try discriminate;
      destruct mv as [[row col]|]; cbn in E; try discriminate;
      try (now inversion E);
      destruct (Board_play (board (self w)) row col c) as [[b' ko]|e1]; cbn in E;
      try discriminate; destruct e1; now inversion E. }
  intros Hcmd E.
  destruct Hcmd as [-> | [-> | [-> | [-> | [-> | [-> | [-> | [-> | [-> | ->]]]]]]]]];
    cbn [handler] in E.
  - unfold handle_boardsize, try_except, bind, arg_at, lift, ret, get_self, raise,
      report_bad_arguments in E.
    destruct args as [|a rest]; cbn in E; [now inversion E|].
    destruct (interpret_int a) as [n|e0]; cbn in E; [|destruct e0; now inversion E].
    destruct (decide (n ∈ acceptable_sizes (self w))); cbn in E;
      [discriminate | now inversion E].
  - cbn in E. discriminate.
  - unfold handle_komi, try_except, bind, arg_at, lift, ret, raise,
      report_bad_arguments in E.
    destruct args as [|a rest]; cbn in E; [now inversion E|].
    destruct (interpret_float a) as [f|e0]; cbn in E; [|destruct e0; now inversion E].
    destruct f as [q|negative|].
    + rewrite set_komi_finite in E. discriminate.
    + rewrite set_komi_infinite in E. discriminate.
    + rewrite set_komi_nan in E. now inversion E.
  - unfold handle_play, bind, report_bad_arguments, raise, lift, ret, get_self,
      try_except, play_on_board, append_move, assign in E.
    destruct (firstn 2 args) as [|a0 [|a1 [|a2 l]]]; cbn in E; try (now inversion E).
    destruct (interpret_colour a0) as [c|e0]; cbn in E; [|now inversion E].
    destruct (interpret_vertex a1 (board_size (self w))) as [[[row col]|]|e0];
      cbn in E; try discriminate; [|now inversion E].
    destruct (Board_play (board (self w)) row col c) as [[b1 ko]|e1]; cbn in E;
      [discriminate|]. destruct e1; now inversion E.
  - exact (Hgen false false E).
  - exact (Hgen false true E).
  - exact (Hgen true false E).
  - unfold handle_explain_last_move, bind, get_self, ret in E.
    destruct (last (move_history (self w))); discriminate.
  - unfold handle_time_left, try_except, bind, arg_at, lift, ret, get_self, raise,
      report_bad_arguments, assign in E.
    destruct args as [|a0 [|a1 [|a2 rest]]]; cbn in E; try (now inversion E).
    + destruct (interpret_colour a0) as [c|e0]; cbn in E;
        [|destruct e0]; now inversion E.
    + destruct (interpret_colour a0) as [c|e0]; cbn in E;
        [|destruct e0; now inversion E].
      destruct (interpret_int a1) as [t|e0]; cbn in E; [|destruct e0]; now inversion E.
    + destruct (interpret_colour a0) as [c|e0]; cbn in E;
        [|destruct e0; now inversion E].
      destruct (interpret_int a1) as [t|e0]; cbn in E; [|destruct e0; now inversion E].
      destruct (interpret_int a2) as [st|e0]; cbn in E; [|destruct e0; now inversion E].
      discriminate.
  - unfold handle_time_settings, try_except, bind, arg_at, lift, ret, get_self, raise,
      report_bad_arguments, assign in E.
    destruct args as [|a0 [|a1 [|a2 rest]]]; cbn in E; try (now inversion E).
    + destruct (interpret_int a0) as [c|e0]; cbn in E;
        [|destruct e0]; now inversion E.
    + destruct (interpret_int a0) as [c|e0]; cbn in E;
        [|destruct e0; now inversion E].
      destruct (interpret_int a1) as [t|e0]; cbn in E; [|destruct e0]; now inversion E.
    + destruct (interpret_int a0) as [c|e0]; cbn in E;
        [|destruct e0; now inversion E].
      destruct (interpret_int a1) as [t|e0]; cbn in E; [|destruct e0; now inversion E].
      destruct (interpret_int a2) as [st|e0]; cbn in E; [|destruct e0; now inversion E].
      discriminate.
Qed.

(** *** loadsgf *)

Lemma bind_Normal {A B : Type} (m : M A) (k : A -> M B) (w w1 : World) (x : A) :
  m w = (Normal x, w1) -> bind m k w = k x w1.
Proof. intros E. unfold bind. now rewrite E. Qed.

Lemma bind_Raised {A B : Type} (m : M A) (k : A -> M B) (w w1 : World) (e : exc) :
  m w = (Raised e, w1) -> bind m k w = (Raised e, w1).
Proof. intros E. unfold bind. now rewrite E. Qed.

(** The loop of [reset_to_moves] assigns the board and the ko point only. *)
Lemma reset_to_moves_loop_frame (moves : list History_move)
    (locals : option coords * option colour) (w w' : World)
    (r : result (option coords * option colour)) :
  for_in moves locals reset_to_moves_body w = (r, w') ->
  same_settings (self w) (self w')
  /\ history_base (self w') = history_base (self w)
  /\ move_history (self w') = move_history (self w)
  /\ generator w' = generator w
  /\ generator_calls w' = generator_calls w.
Proof.
  revert locals w. induction moves as [|m moves IH]; intros [kp kpl] w E.
  - cbn in E. inversion E; subst. unfold same_settings. tauto.
  - cbn [for_in] in E. unfold bind at 1 in E.
    unfold reset_to_moves_body, is_pass in E.
    destruct (hm_coords m) as [[row col]|].
    + unfold play_on_board, bind, ret in E. cbn in E.
      destruct (Board_play (board (self w)) row col (hm_colour m)) as [[b1 ko]|e].
      * apply IH in E. cbn in E. exact E.
      * inversion E; subst. unfold same_settings. tauto.
    + unfold assign, bind, ret in E. cbn in E.
      apply IH in E. cbn in E. exact E.
Qed.

Lemma reset_to_moves_loop_fails (moves : list History_move)
    (locals : option coords * option colour) (w : World) (e : exc) :
  replay_board (board (self w)) moves = Raised e ->
  exists w', for_in moves locals reset_to_moves_body w = (Raised e, w').
Proof.
  revert locals w. induction moves as [|m moves IH]; intros [kp kpl] w Hr.
  - discriminate.
  - cbn [for_in replay_board] in *. unfold bind at 1.
    unfold reset_to_moves_body, is_pass.
    destruct (hm_coords m) as [[row col]|].
    + unfold play_on_board, bind, ret. cbn.
      destruct (Board_play (board (self w)) row col (hm_colour m)) as [[b1 ko]|e'].
      * apply (IH (ko, Some (opponent_of (hm_colour m)))
                 (mk_World (set_board b1 (self w)) (generator w) (generator_calls w)) Hr).
      * inversion Hr; subst. eauto.
    + unfold assign, bind, ret. cbn.
      apply (IH (kp, kpl)
               (mk_World (set_simple_ko_point None (self w)) (generator w)
                  (generator_calls w)) Hr).
Qed.

(** [set_history_base b] followed by [reset_to_moves moves], as
    [handle_loadsgf] runs them: when the replay from [b] succeeds the state
    holds [b], [moves] and the board of the replay; when it fails with [e],
    [e] is raised with the history base [b] installed and no recorded
    move.  The settings are the same in both cases. *)
Lemma install_and_replay (b : Board) (moves : list History_move) (w : World) :
  exists w',
    same_settings (self w) (self w')
    /\ history_base (self w') = b
    /\ generator w' = generator w
    /\ generator_calls w' = generator_calls w
    /\ match replay_board b moves with
       | Normal b' =>
           bind (set_history_base b) (fun _ => reset_to_moves moves) w = (Normal tt, w')
           /\ board (self w') = b'
           /\ move_history (self w') = moves
       | Raised e =>
           bind (set_history_base b) (fun _ => reset_to_moves moves) w = (Raised e, w')
           /\ move_history (self w') = []
       end.
Proof.
  unfold set_history_base, reset_to_moves, bind, assign, get_self. cbn.
  match goal with
  | |- context [for_in moves (None, None) reset_to_moves_body ?W] => set (w1 := W)
  end.
  assert (Hb1 : board (self w1) = b) by reflexivity.
  destruct (replay_board b moves) as [b'|e] eqn:Hr; rewrite <- Hb1 in Hr.
  - destruct (reset_to_moves_loop moves (None, None) w1 b' Hr) as (l' & w2 & E & Hb & Hh).
    destruct (reset_to_moves_loop_frame _ _ _ _ _ E) as (Hs & _ & _ & Hg & Hc).
    rewrite E. unfold ret. cbn.
    exists (mk_World
              (set_move_history moves
                 (set_simple_ko_player (snd l') (set_simple_ko_point (fst l') (self w2))))
              (generator w2) (generator_calls w2)).
    cbn. split; [exact Hs|]. split; [now rewrite Hh|]. split; [exact Hg|].
    split; [exact Hc|]. split; [reflexivity|]. split; [exact Hb | reflexivity].
  - destruct (reset_to_moves_loop_fails moves (None, None) w1 e Hr) as (w2 & E).
    destruct (reset_to_moves_loop_frame _ _ _ _ _ E) as (Hs & Hh & Hm & Hg & Hc).
    rewrite E. exists w2.
    split; [exact Hs|]. split; [now rewrite Hh|]. split; [exact Hg|].
    split; [exact Hc|]. split; [reflexivity | now rewrite Hm].
Qed.

(** The parts of C1 that hold.  A [loadsgf] command reads and parses its
    file, accepts the size, the komi and the setup, and its replay of the
    parsed moves fails with [ValueError].
    - When the board was the replay of the history, the error is "bad move in
      file", and the history base, the move history, the board and every
      setting other than [board_size] are as before the command;
      [board_size] is the size of the file.
    - When the replay of the previous history fails too, the error is the
      "corrupt history" variant. *)
Lemma loadsgf_bad_move (pathname text : string) (rest : list string)
    (move_number : option Z) (sgf : Sgf_game Board) (k : pyfloat)
    (sgf_board : Board) (raw_sgf_moves : list (colour * option coords)) (w : World) :
  match rest with
  | [] => move_number = None
  | a1 :: _ => exists n, interpret_int a1 = Normal n /\ move_number = Some n
  end ->
  open_read pathname = Some text ->
  read_sgf text = Some sgf ->
  get_size sgf ∈ acceptable_sizes (self w) ->
  get_komi sgf = Some k ->
  get_setup_and_moves sgf = inr (sgf_board, raw_sgf_moves) ->
  replay_board sgf_board (moves_to_load (Cookie := Cookie) raw_sgf_moves move_number)
  = Raised ValueError ->
  exists w',
    generator w' = generator w /\ generator_calls w' = generator_calls w
    /\ match replay_board (history_base (self w)) (move_history (self w)) with
       | Normal b =>
           handle_loadsgf (pathname :: rest) w = (Raised (GtpError "bad move in file"), w')
           /\ history_base (self w') = history_base (self w)
           /\ move_history (self w') = move_history (self w)
           /\ board (self w') = b
           /\ same_settings (set_board_size (get_size sgf) (self w)) (self w')
       | Raised ValueError =>
           handle_loadsgf (pathname :: rest) w
           = (Raised (GtpError "bad move in file and corrupt history"), w')
       | Raised e => handle_loadsgf (pathname :: rest) w = (Raised e, w')
       end.
Proof.
  intros Hmn Hopen Hread Hsize Hkomi Hsetup Hfail.
  unfold handle_loadsgf.
  erewrite bind_Normal by reflexivity.
  erewrite (bind_Normal _ _ w w move_number).
  2:{ destruct rest as [|a1 rest'].
      - subst move_number. reflexivity.
      - destruct Hmn as (n & Hn & ->).
        replace (1 <? Z.of_nat (length (pathname :: a1 :: rest'))) with true
          by (symmetry; apply Z.ltb_lt; cbn [length]; lia).
        unfold bind, arg_at, lift, ret. cbn. now rewrite Hn. }
  rewrite Hopen. erewrite bind_Normal by reflexivity.
  rewrite Hread. erewrite bind_Normal by reflexivity.
  erewrite bind_Normal by reflexivity.
  rewrite (bool_decide_eq_true_2 _ Hsize). cbn [negb].
  erewrite bind_Normal by reflexivity.
  rewrite Hkomi. erewrite bind_Normal by reflexivity.
  rewrite Hsetup. erewrite bind_Normal by reflexivity.
  cbv beta iota. erewrite bind_Normal by reflexivity.
  fold (moves_to_load (Cookie := Cookie) raw_sgf_moves move_number).
  cbn [self].
  change (history_base (set_board_size (get_size sgf) (self w)))
    with (history_base (self w)).
  change (move_history (set_board_size (get_size sgf) (self w)))
    with (move_history (self w)).
  set (w1 := mk_World (set_board_size (get_size sgf) (self w)) (generator w)
               (generator_calls w)).
  destruct (install_and_replay sgf_board (moves_to_load (Cookie := Cookie) raw_sgf_moves move_number) w1)
    as (w2 & Hs2 & Hh2 & Hg2 & Hc2 & H2).
  rewrite Hfail in H2. destruct H2 as [E2 Hm2].
  destruct (install_and_replay (history_base (self w)) (move_history (self w)) w2)
    as (w3 & Hs3 & Hh3 & Hg3 & Hc3 & H3).
  exists w3. split; [now rewrite Hg3, Hg2|]. split; [now rewrite Hc3, Hc2|].
  assert (Hset : same_settings (set_board_size (get_size sgf) (self w)) (self w3)).
  { unfold same_settings in *. cbn in Hs2. cbn.
    destruct Hs2 as (? & ? & ? & ? & ? & ?). destruct Hs3 as (? & ? & ? & ? & ? & ?).
    repeat split; congruence. }
  destruct (replay_board (history_base (self w)) (move_history (self w))) as [b|e].
  - destruct H3 as (E3 & Hb3 & Hm3).
    split; [|split; [exact Hh3 | split; [exact Hm3 | split; [exact Hb3 | exact Hset]]]].
    apply bind_Raised. unfold try_except at 1.
    rewrite E2. cbn [on_ValueError].
    erewrite bind_Normal; [reflexivity|].
    unfold try_except. rewrite E3. reflexivity.
  - destruct H3 as [E3 Hm3].
    destruct e; apply bind_Raised; unfold try_except at 1; rewrite E2;
      cbn [on_ValueError]; apply bind_Raised; unfold try_except; rewrite E3;
      reflexivity.
Qed.

(** C7, amended: after a successful [place_free_handicap] command the
    [handicap] attribute is the number of stones asked for (less one when
    that is the maximum for the board size).  This is the number of stones
    placed plus the number of pass and resign answers of the generator, so
    it is the number of stones placed when the generator never passed or
    resigned during the command. *)
Theorem place_free_handicap_sets_handicap `{!Board_laws Board}
    (a : string) (rest : list string) (n : Z) (w w' : World) (out : option string) :
  interpret_int a = Normal n ->
  handle_place_free_handicap move_generator (a :: rest) w = (Normal out, w') ->
  exists (ms : list coords) (cs : list generator_call),
    generator_calls w' = generator_calls w ++ cs
    /\ placed (board (self w)) ms (board (self w'))
    /\ handicap (self w')
       = Some (if n =? max_free_handicap_for_board_size (board_size (self w))
               then max_free_handicap_for_board_size (board_size (self w)) - 1
               else n)
    /\ handicap (self w')
       = Some (Z.of_nat (length ms)
               + Z.of_nat (length (List.filter (fun c => skipped (call_answer c)) cs)))
    /\ (Forall (fun c => skipped (call_answer c) = false) cs ->
        handicap (self w') = Some (Z.of_nat (length ms))).
Proof.
  intros Hn E. rewrite (handle_place_free_handicap_parsed a rest n w Hn) in E.
  cbv zeta in E.
  set (mx := max_free_handicap_for_board_size (board_size (self w))) in *.
  destruct ((2 <=? n) && (n <=? mx)) eqn:Hrange; cbn [negb] in E; [|discriminate].
  destruct (Board_is_empty (board (self w))); cbn [negb] in E; [|discriminate].
  apply andb_true_iff in Hrange. destruct Hrange as [H2 Hmx].
  apply Z.leb_le in H2. apply Z.leb_le in Hmx.
  set (n' := if n =? mx then mx - 1 else n) in *.
  assert (Hn' : 1 <= n').
  { subst n'. destruct (n =? mx) eqn:En; [apply Z.eqb_eq in En|]; lia. }
  destruct (for_in (xrange n') ([], 0) _ w) as [[[moves fk]|e] w1] eqn:Eloop;
    [|discriminate].
  destruct (place_free_handicap_loop_spec _ _ _ _ _ _ _ Eloop)
    as (ms & cs & Hc & Hp & _ & Hf & Hl).
  rewrite length_xrange in Hl. inversion E; subst out w'. cbn.
  assert (Hsum : n' = Z.of_nat (length ms)
                      + Z.of_nat (length (List.filter
                                            (fun c => skipped (call_answer c)) cs)))
    by lia.
  exists ms, cs. split; [exact Hc|]. split; [exact Hp|]. split; [reflexivity|].
  split; [now rewrite <- Hsum|].
  intros Hall.
  assert (Hnil : List.filter (fun c => skipped (call_answer c)) cs = []).
  { clear - Hall. induction Hall as [|c cs Hc _ IH]; [reflexivity|].
    cbn. now rewrite Hc. }
  rewrite Hnil in Hsum. cbn in Hsum. rewrite Hsum. f_equal. lia.
Qed.

End EngineFacts.

(** ** The engine on the sample board *)

(** C5, as stated, fails for [nan]: the conversion to an integer raises
    [ValueError], which [set_komi] does not catch; the [komi] command raises
    and stores nothing. *)
Lemma komi_nan_raises :
  set_komi NaN (Session.start None []) = (Raised ValueError, Session.start None [])
  /\ handle_komi ["nan"%string] (Session.start None [])
     = (Raised ValueError, Session.start None [])
  /\ expected_komi NaN = None.
Proof. repeat split. Qed.

(** The theorem on [komi 7.5], on a fresh engine. *)
Lemma komi_stores_clamped_floor_witness :
  interpret_float "7.5" = Normal (Finite (75 # 10))
  /\ expected_komi (Finite (75 # 10)) = Some 7
  /\ (handle_komi ["7.5"%string] (Session.start None [])
      = (Normal None,
         with_self (set_komi_attr 7 (self (Session.start None []))) (Session.start None []))
      /\ komi (self (snd (handle_komi ["7.5"%string] (Session.start None [])))) = 7
      /\ -625 <= 7 <= 625).
Proof.
  split; [reflexivity|]. split; [reflexivity|].
  apply (komi_stores_clamped_floor "7.5" [] (Finite (75 # 10)) 7 (Session.start None []));
    reflexivity.
Defined.

(** The scenarios of the spec: [komi 7.5] stores 7, an infinite komi stores
    625. *)
Example komi_scenarios :
  komi (self (snd (handle_komi ["7.5"%string] (Session.start None [])))) = 7
  /\ komi (self (snd (handle_komi ["inf"%string] (Session.start None [])))) = 625
  /\ komi (self (snd (handle_komi ["-inf"%string] (Session.start None [])))) = -625
  /\ komi (self (snd (handle_komi ["-7.5"%string] (Session.start None [])))) = -8.
Proof. repeat split. Qed.

(** The theorem on [genmove w] in the position after the ko fight. *)
Lemma genmove_passes_ko_point_witness :
  (genmove = genmove \/ genmove = genmove_claim \/ genmove = reg_genmove)
  /\ interpret_colour "w" = Normal white
  /\ exists G answer,
      generator_calls (snd (handler Sample.scripted genmove ["w"%string] Session.after_ko))
      = generator_calls Session.after_ko ++ [mk_call G white answer]
      /\ (forall p, simple_ko_point (self Session.after_ko) = Some p ->
                    simple_ko_player (self Session.after_ko) = Some white ->
                    gs_ko_point G = Some p)
      /\ (simple_ko_player (self Session.after_ko) <> Some white -> gs_ko_point G = None)
      /\ (simple_ko_point (self Session.after_ko) = None -> gs_ko_point G = None).
Proof.
  split; [now left|]. split; [reflexivity|].
  apply (genmove_passes_ko_point Sample.scripted genmove "w" [] white Session.after_ko);
    [now left | reflexivity].
Defined.

(** The scenario of the spec: after the capture in the ko the ban is on the
    captured point, for the opponent of the capturing colour; a [genmove] for
    that colour is given the point, a [genmove] for the other colour is
    not. *)
Example ko_point_scenario :
  simple_ko_point (self Session.after_ko) = Some (1, 1)
  /\ simple_ko_player (self Session.after_ko) = Some white
  /\ gs_ko_point (genmove_game_state (self Session.after_ko) white false) = Some (1, 1)
  /\ gs_ko_point (genmove_game_state (self Session.after_ko) black false) = None.
Proof. vm_compute. repeat split. Qed.

(** The theorem on the sizes 19 and 9. *)
Lemma init_is_full_reset_witness :
  Some [19; 9] <> Some []
  /\ exists (n : Z) (w : Session.world),
      Gtp_state_init (Some [19; 9]) [] = (Normal tt, w)
      /\ full_reset (self w) n
      /\ In n [19; 9] /\ (forall x, In x [19; 9] -> n <= x)
      /\ acceptable_sizes (self w) = list_to_set [19; 9].
Proof.
  split; [discriminate|].
  apply (init_is_full_reset (Board := GoBoard.t) (Cookie := string) (Some [19; 9]) []).
  discriminate.
Defined.

Example init_scenarios :
  board_size (self (Session.start (Some [19; 9]) [])) = 9
  /\ board_size (self (Session.start None [])) = 19.
Proof. vm_compute. split; reflexivity. Qed.

(** The theorem on the eight moves of the ko fight, from a fresh 9x9 engine. *)
Lemma undo_all_returns_to_history_base_witness :
  base_state (self (Session.start (Some [9]) []))
  /\ Forall (fun c => fst c = play) Session.ko_fight
  /\ Forall succeeded (fst (Session.run Session.ko_fight (Session.start (Some [9]) [])))
  /\ exists w2,
      run_commands Sample.scripted
        (repeat (undo, []) (length (move_history (self Session.after_ko))))
        Session.after_ko
      = (repeat (Normal None) (length (move_history (self Session.after_ko))), w2)
      /\ move_history (self w2) = []
      /\ board (self w2) = history_base (self w2)
      /\ history_base (self w2) = history_base (self (Session.start (Some [9]) [])).
Proof.
  assert (Hbase : base_state (self (Session.start (Some [9]) [])))
    by (split; reflexivity).
  assert (Hall : Forall (fun c : command * list string => fst c = play) Session.ko_fight)
    by (repeat constructor).
  assert (Hok : Forall succeeded
                  (fst (Session.run Session.ko_fight (Session.start (Some [9]) [])))).
  { vm_compute. repeat constructor; eexists; reflexivity. }
  split; [exact Hbase|]. split; [exact Hall|]. split; [exact Hok|].
  apply (undo_all_returns_to_history_base Sample.scripted Session.ko_fight
           (Session.start (Some [9]) []) Session.after_ko
           (fst (Session.run Session.ko_fight (Session.start (Some [9]) [])))
           Hbase Hall).
  - unfold Session.after_ko, Session.run. apply surjective_pairing.
  - exact Hok.
Defined.

(** The scenario of the spec: on a 9x9 board [fixed_handicap 2] places the
    two standard points; a move and its [undo] lead back to the position
    after the handicap, with no recorded move. *)
Example fixed_handicap_scenario :
  let out := Session.run [ (fixed_handicap, ["2"]); (play, ["b"; "D4"]); (undo, []) ]%string
               (Session.start (Some [9]) []) in
  fst out = [Normal (Some "C3 G7"%string); Normal None; Normal None]
  /\ move_history (self (snd out)) = []
  /\ board (self (snd out)) = history_base (self (snd out))
  /\ GoBoard.list_occupied_points (board (self (snd out)))
     = [(black, (2, 2)); (black, (6, 6))]
  /\ handicap (self (snd out)) = Some 2.
Proof. vm_compute. repeat split. Qed.

(** The theorem on [place_free_handicap 3] with a generator that answers D4,
    passes, and answers Q16. *)
Lemma place_free_handicap_bounds_witness :
  interpret_int "3" = Normal 3
  /\ exists (ms : list coords) (cs : list generator_call),
      generator_calls
        (snd (handle_place_free_handicap Sample.scripted ["3"%string] Session.three_requested))
      = generator_calls Session.three_requested ++ cs
      /\ placed (board (self Session.three_requested)) ms
           (board (self (snd (handle_place_free_handicap Sample.scripted ["3"%string]
                                Session.three_requested))))
      /\ Z.of_nat (length ms) <= Z.max 0 3
      /\ (3 = max_free_handicap_for_board_size (board_size (self Session.three_requested)) ->
          Z.of_nat (length ms) <= Z.max 0 (3 - 1))
      /\ (Exists (fun c => skipped (call_answer c) = true) cs ->
          Z.of_nat (length ms) < 3)
      /\ (forall c p, In c cs -> occupied_answer c p ->
            fst (handle_place_free_handicap Sample.scripted ["3"%string]
                   Session.three_requested)
            = Raised (GtpError ("engine error: tried to play " ++ format_vertex p)))
      /\ (forall out,
            fst (handle_place_free_handicap Sample.scripted ["3"%string]
                   Session.three_requested) = Normal out ->
            out = Some (String.concat " " (map format_vertex ms))).
Proof.
  split; [reflexivity|].
  apply (place_free_handicap_bounds Sample.scripted "3" [] 3 Session.three_requested).
  reflexivity.
Defined.

(** What that command does: two stones for three requested. *)
Example place_free_handicap_scenario :
  let out := handle_place_free_handicap Sample.scripted ["3"%string]
               Session.three_requested in
  fst out = Normal (Some "D4 Q16"%string)
  /\ GoBoard.list_occupied_points (board (self (snd out)))
     = [(black, (3, 3)); (black, (15, 15))]
  /\ map (fun c => gs_komi (call_game_state c)) (generator_calls (snd out)) = [0; 5; 5].
Proof. vm_compute. repeat split. Qed.

(** C1, at an input that separates the code from the claim: the engine
    accepts the sizes 9 and 19 and stands at 9; [loadsgf] reads a 19x19
    record whose second move is on the point of the first.  The replay
    fails, the previous history base and move history are put back and the
    error is "bad move in file"; but [board_size], assigned before the
    replay, stays 19 while the board is the 9x9 board of before. *)
Lemma loadsgf_bad_move_keeps_new_board_size :
  fst Session.bad_load = Raised (GtpError "bad move in file")
  /\ history_base (self (snd Session.bad_load)) = history_base (self Session.two_sizes)
  /\ move_history (self (snd Session.bad_load)) = move_history (self Session.two_sizes)
  /\ board (self (snd Session.bad_load)) = board (self Session.two_sizes)
  /\ GoBoard.side (board (self (snd Session.bad_load))) = 9
  /\ board_size (self Session.two_sizes) = 9
  /\ board_size (self (snd Session.bad_load)) = 19.
Proof. vm_compute. repeat split. Qed.

(** C2, at an input that separates the code from the claim: Black captures
    in a ko, White passes, Black passes, and the last pass is undone.  Every
    command succeeds.  The replay of the history with the live semantics ends
    without a ko ban (White's pass cleared it), on the current board; the
    state after [undo] bans B2 for White again, because the loop of
    [reset_to_moves] clears the attribute and not its local on a pass. *)
Lemma undo_after_pass_revives_ko_ban :
  fst Session.ko_passes_undo = repeat (Normal None) 11
  /\ replay_live (history_base (self (snd Session.ko_passes_undo))) None None
       (move_history (self (snd Session.ko_passes_undo)))
     = Normal (board (self (snd Session.ko_passes_undo)), None, Some white)
  /\ simple_ko_point (self (snd Session.ko_passes_undo)) = Some (1, 1)
  /\ simple_ko_player (self (snd Session.ko_passes_undo)) = Some white.
Proof. vm_compute. repeat split. Qed.

(** The sibling defect: a pass answered to [genmove] is recorded but does not
    clear the ko ban, as a pass given to [play] does. *)
Lemma genmove_pass_keeps_ko_ban :
  last (fst Session.ko_genmove_pass) = Some (Normal (Some "pass"%string))
  /\ replay_live (history_base (self (snd Session.ko_genmove_pass))) None None
       (move_history (self (snd Session.ko_genmove_pass)))
     = Normal (board (self (snd Session.ko_genmove_pass)), None, Some white)
  /\ simple_ko_point (self (snd Session.ko_genmove_pass)) = Some (1, 1).
Proof. vm_compute. repeat split. Qed.

(** C3, at inputs that separate the code from the claim.  On a fresh 19x19
    engine, [set_free_handicap A1 A1] fails with a protocol error after it
    has played the first stone: the board keeps the stone, while the history
    base stays empty and no move is recorded.  [place_free_handicap 2] with a
    generator that answers D4 twice fails the same way, with the stone of
    the first answer left on the board. *)
Lemma handicap_failure_keeps_stones :
  fst Session.repeated_vertex = Raised (GtpError "engine error: A1 is occupied")
  /\ GoBoard.list_occupied_points (board (self (Session.start None []))) = []
  /\ GoBoard.list_occupied_points (board (self (snd Session.repeated_vertex)))
     = [(black, (0, 0))]
  /\ GoBoard.list_occupied_points (history_base (self (snd Session.repeated_vertex))) = []
  /\ move_history (self (snd Session.repeated_vertex)) = []
  /\ fst Session.repeated_answer = Raised (GtpError "engine error: tried to play D4")
  /\ GoBoard.list_occupied_points (board (self (snd Session.repeated_answer)))
     = [(black, (3, 3))]
  /\ GoBoard.list_occupied_points (history_base (self (snd Session.repeated_answer))) = []
  /\ move_history (self (snd Session.repeated_answer)) = [].
Proof. vm_compute. repeat split. Qed.

(** C7, as stated, fails: asked for two stones, the generator passes once
    and then answers D4.  The command succeeds with one stone on the board,
    and records a handicap of 2. *)
Lemma place_free_handicap_records_request :
  fst Session.pass_then_move = Normal (Some "D4"%string)
  /\ GoBoard.list_occupied_points (board (self (snd Session.pass_then_move)))
     = [(black, (3, 3))]
  /\ handicap (self (snd Session.pass_then_move)) = Some 2.
Proof. vm_compute. repeat split. Qed.

(** The theorem on [place_free_handicap 2] with a generator that passes and
    then answers D4. *)
Lemma place_free_handicap_sets_handicap_witness :
  interpret_int "2" = Normal 2
  /\ handle_place_free_handicap Sample.scripted ["2"%string] Session.two_requested
     = (Normal (Some "D4"%string),
        snd (handle_place_free_handicap Sample.scripted ["2"%string] Session.two_requested))
  /\ exists (ms : list coords) (cs : list generator_call),
      generator_calls
        (snd (handle_place_free_handicap Sample.scripted ["2"%string] Session.two_requested))
      = generator_calls Session.two_requested ++ cs
      /\ placed (board (self Session.two_requested)) ms
           (board (self (snd (handle_place_free_handicap Sample.scripted ["2"%string]
                                Session.two_requested))))
      /\ handicap (self (snd (handle_place_free_handicap Sample.scripted ["2"%string]
                                Session.two_requested)))
         = Some (if 2 =? max_free_handicap_for_board_size
                          (board_size (self Session.two_requested))
                 then max_free_handicap_for_board_size
                        (board_size (self Session.two_requested)) - 1
                 else 2)
      /\ handicap (self (snd (handle_place_free_handicap Sample.scripted ["2"%string]
                                Session.two_requested)))
         = Some (Z.of_nat (length ms)
                 + Z.of_nat (length (List.filter (fun c => skipped (call_answer c)) cs)))
      /\ (Forall (fun c => skipped (call_answer c) = false) cs ->
          handicap (self (snd (handle_place_free_handicap Sample.scripted ["2"%string]
                                 Session.two_requested)))
          = Some (Z.of_nat (length ms))).
Proof.
  assert (E : handle_place_free_handicap Sample.scripted ["2"%string] Session.two_requested
              = (Normal (Some "D4"%string),
                 snd (handle_place_free_handicap Sample.scripted ["2"%string]
                        Session.two_requested)))
    by (vm_compute; reflexivity).
  split; [reflexivity|]. split; [exact E|].
  apply (place_free_handicap_sets_handicap Sample.scripted "2" [] 2
           Session.two_requested
           (snd (handle_place_free_handicap Sample.scripted ["2"%string]
                   Session.two_requested))
           (Some "D4"%string)).
  - reflexivity.
  - exact E.
Defined.

(** ** Identifier allocation ([competitions.py]) *)

Module CompetitionsFacts.
Import Competitions.

Lemma py_min_gset (X : gset Z) :
  match py_min X with
  | Some m => m ∈ X /\ forall x, x ∈ X -> m <= x
  | None => X = ∅
  end.
Proof.
  unfold py_min. destruct (elements X) as [|x xs] eqn:E.
  - now apply elements_empty_inv in E; apply leibniz_equiv in E.
  - destruct (fold_left_min_spec xs x) as [Hin Hle]. split.
    + apply elem_of_elements. rewrite E. now apply list_elem_of_In.
    + intros y Hy. apply Hle. apply list_elem_of_In. rewrite <- E.
      now apply elem_of_elements.
Qed.

Lemma wf_with_intro (F : gset Z) (a : Id_allocator) :
  outstanding a ## to_reissue a ->
  (forall i, i ∈ outstanding a -> 0 <= i < next_new a) ->
  (forall i, i ∈ to_reissue a -> 0 <= i < next_new a) ->
  0 <= next_new a ->
  F ## outstanding a -> F ## to_reissue a ->
  (forall i, i ∈ F -> 0 <= i < next_new a) ->
  wf_with F a.
Proof.
  intros H1 H2 H3 H4 H5 H6 H7. repeat split; auto;
    try (apply elem_of_union in H as [H|H]; [apply H2 in H | apply H3 in H]; lia);
    try (apply H7 in H; lia).
Qed.

Lemma wf_with_elim (F : gset Z) (a : Id_allocator) :
  wf_with F a ->
  outstanding a ## to_reissue a
  /\ (forall i, i ∈ outstanding a -> 0 <= i < next_new a)
  /\ (forall i, i ∈ to_reissue a -> 0 <= i < next_new a)
  /\ 0 <= next_new a
  /\ F ## outstanding a /\ F ## to_reissue a
  /\ (forall i, i ∈ F -> 0 <= i < next_new a).
Proof.
  intros ((Hd & Hb & H0) & HF1 & HF2 & HF3).
  split; [exact Hd|]. split; [intros i Hi; apply Hb; set_solver|].
  split; [intros i Hi; apply Hb; set_solver|]. auto.
Qed.

Lemma issue_spec (F : gset Z) (a a' : Id_allocator) (i : Z) :
  wf_with F a -> issue a = (i, a') ->
  wf_with F a' /\ i ∉ outstanding a /\ i ∉ F
  /\ outstanding a' = outstanding a ∪ {[ i ]}
  /\ ((i ∈ to_reissue a /\ (forall x, x ∈ to_reissue a -> i <= x)
       /\ to_reissue a' = to_reissue a ∖ {[ i ]} /\ next_new a' = next_new a)
      \/ (to_reissue a = ∅ /\ i = next_new a
          /\ to_reissue a' = ∅ /\ next_new a' = next_new a + 1)).
Proof.
  intros Hwf E. destruct (wf_with_elim _ _ Hwf) as (Hd & Ho & Hr & H0 & HF1 & HF2 & HF3).
  unfold issue in E.
  pose proof (py_min_gset (to_reissue a)) as Hm.
  destruct (py_min (to_reissue a)) as [m|].
  - destruct Hm as [Hin Hle]. inversion E; subst i a'; clear E. cbn.
    split; [|split; [set_solver | split; [set_solver | split; [reflexivity|]]]].
    + apply wf_with_intro; cbn.
      * set_solver.
      * intros i Hi. apply elem_of_union in Hi as [Hi|Hi]; [now apply Ho|].
        apply elem_of_singleton in Hi. subst. now apply Hr.
      * intros i Hi. apply Hr. set_solver.
      * exact H0.
      * set_solver.
      * set_solver.
      * exact HF3.
    + left. auto.
  - inversion E; subst i a'; clear E. cbn.
    assert (Hn1 : next_new a ∉ outstanding a) by (intros Hi; apply Ho in Hi; lia).
    assert (Hn2 : next_new a ∉ F) by (intros Hi; apply HF3 in Hi; lia).
    split; [|split; [exact Hn1 | split; [exact Hn2 | split; [reflexivity|]]]].
    + apply wf_with_intro; cbn.
      * set_solver.
      * intros i Hi. apply elem_of_union in Hi as [Hi|Hi]; [apply Ho in Hi; lia|].
        apply elem_of_singleton in Hi. lia.
      * intros i Hi. apply Hr in Hi. lia.
      * lia.
      * set_solver.
      * exact HF2.
      * intros i Hi. apply HF3 in Hi. lia.
    + right. auto.
Qed.

Lemma fix_id_spec (F : gset Z) (a : Id_allocator) (i : Z) :
  wf_with F a ->
  match fix_id i a with
  | inr a' =>
      i ∈ outstanding a /\ wf_with (F ∪ {[ i ]}) a'
      /\ outstanding a' = outstanding a ∖ {[ i ]}
      /\ to_reissue a' = to_reissue a /\ next_new a' = next_new a
  | inl _ => i ∉ outstanding a
  end.
Proof.
  intros Hwf. destruct (wf_with_elim _ _ Hwf) as (Hd & Ho & Hr & H0 & HF1 & HF2 & HF3).
  unfold fix_id.
  destruct (decide (i ∈ outstanding a)) as [Hi|Hi]; [|exact Hi].
  split; [exact Hi|]. cbn. split; [|auto].
  apply wf_with_intro; cbn.
  - set_solver.
  - intros j Hj. apply Ho. set_solver.
  - exact Hr.
  - exact H0.
  - set_solver.
  - set_solver.
  - intros j Hj. apply elem_of_union in Hj as [Hj|Hj]; [now apply HF3|].
    apply elem_of_singleton in Hj. subst. now apply Ho.
Qed.

Lemma rollback_spec (F : gset Z) (a : Id_allocator) :
  wf_with F a -> wf_with F (rollback a).
Proof.
  intros Hwf. destruct (wf_with_elim _ _ Hwf) as (Hd & Ho & Hr & H0 & HF1 & HF2 & HF3).
  apply wf_with_intro; cbn.
  - set_solver.
  - set_solver.
  - intros i Hi. apply elem_of_union in Hi as [Hi|Hi]; [now apply Hr | now apply Ho].
  - exact H0.
  - set_solver.
  - set_solver.
  - exact HF3.
Qed.

Lemma wf_with_init : wf_with ∅ Id_allocator_init.
Proof. apply wf_with_intro; cbn; try set_solver; lia. Qed.

Lemma size_add (X : gset Z) (i : Z) : i ∉ X -> size (X ∪ {[ i ]}) = S (size X).
Proof.
  intros Hi. rewrite size_union by set_solver. rewrite size_singleton. lia.
Qed.

Lemma size_remove (X : gset Z) (i : Z) : i ∈ X -> S (size (X ∖ {[ i ]})) = size X.
Proof.
  intros Hi. assert (Hs : size X = size ({[ i ]} ∪ X ∖ {[ i ]})).
  { f_equal. apply set_eq. intros x. rewrite elem_of_union, elem_of_difference,
      elem_of_singleton. destruct (decide (x = i)); subst; tauto. }
  assert (Hd : ({[ i ]} : gset Z) ## X ∖ {[ i ]}) by set_solver.
  pose proof (size_union (C := gset Z) _ _ Hd) as Hu.
  rewrite size_singleton in Hu. lia.
Qed.

(** One call: the invariant is kept, a finished id stays finished, and
    [count_fixed] counts the successful calls of [fix]. *)
Lemma step_spec (F : gset Z) (c : call) (a a' : Id_allocator) (e : event) :
  wf_with F a -> step c a = (e, a') ->
  exists F',
    F ⊆ F' /\ wf_with F' a'
    /\ (forall i, e = Issued i -> i ∉ F /\ i ∉ outstanding a)
    /\ (forall i, e = Fixed i -> i ∈ F' /\ i ∈ outstanding a)
    /\ (forall i, i ∈ outstanding a -> e <> RolledBack -> i ∈ outstanding a' \/ i ∈ F')
    /\ count_fixed a' = count_fixed a + (if is_Fixed e then 1 else 0).
Proof.
  intros Hwf E. destruct (wf_with_elim _ _ Hwf) as (Hd & Ho & Hr & H0 & HF1 & HF2 & HF3).
  destruct c as [|j|]; cbn in E.
  - destruct (issue a) as [i a1] eqn:Ei. inversion E; subst e a1; clear E.
    destruct (issue_spec F a a' i Hwf Ei) as (Hwf' & Hio & HiF & Hout & Hcase).
    exists F. split; [set_solver|]. split; [exact Hwf'|].
    split; [intros i' [= <-]; auto|]. split; [discriminate|].
    split; [intros i' Hi' _; left; rewrite Hout; set_solver|].
    unfold count_fixed. rewrite Hout, (size_add _ _ Hio). cbn.
    destruct Hcase as [(Hin & _ & Hre & Hnn) | (Hemp & _ & Hre & Hnn)].
    + rewrite Hre, Hnn. pose proof (size_remove _ _ Hin). lia.
    + rewrite Hre, Hnn, Hemp. lia.
  - pose proof (fix_id_spec F a j Hwf) as Hf.
    destruct (fix_id j a) as [err|a1]; inversion E; subst e a'; clear E.
    + exists F. split; [set_solver|]. split; [exact Hwf|].
      split; [discriminate|]. split; [discriminate|]. split; [auto|]. cbn. lia.
    + destruct Hf as (Hj & Hwf' & Hout & Hre & Hnn).
      exists (F ∪ {[ j ]}). split; [set_solver|]. split; [exact Hwf'|].
      split; [discriminate|]. split; [intros i [= <-]; split; [set_solver | exact Hj]|].
      split.
      * intros i Hi _. rewrite Hout. destruct (decide (i = j)); set_solver.
      * unfold count_fixed. rewrite Hout, Hre, Hnn. cbn.
        pose proof (size_remove _ _ Hj). lia.
  - inversion E; subst e a'; clear E.
    exists F. split; [set_solver|]. split; [now apply rollback_spec|].
    split; [discriminate|]. split; [discriminate|]. split; [congruence|].
    unfold count_fixed, rollback. cbn. rewrite size_empty, size_union by set_solver. lia.
Qed.

Lemma run_spec (calls : list call) (F : gset Z) (a a' : Id_allocator) (es : list event) :
  wf_with F a -> run calls a = (es, a') ->
  exists F',
    F ⊆ F' /\ wf_with F' a'
    /\ (forall i, i ∈ F -> ~ In (Issued i) es)
    /\ (forall i, i ∈ outstanding a -> ~ In RolledBack es -> ~ In (Issued i) es)
    /\ (forall i, i ∈ outstanding a -> ~ In RolledBack es -> i ∈ outstanding a' \/ i ∈ F')
    /\ count_fixed a' = count_fixed a + Z.of_nat (length (List.filter is_Fixed es)).
Proof.
  revert F a es. induction calls as [|c calls IH]; intros F a es Hwf E.
  - cbn in E. inversion E; subst. exists F. split; [set_solver|]. split; [exact Hwf|].
    cbn. repeat split; auto. lia.
  - cbn [run] in E. destruct (step c a) as [e a1] eqn:Es.
    destruct (run calls a1) as [es1 a2] eqn:Er. inversion E; subst es a2; clear E.
    destruct (step_spec F c a a1 e Hwf Es) as (F1 & Hsub & Hwf1 & Hiss & Hfix & Hkeep & Hcnt).
    destruct (IH F1 a1 es1 Hwf1 Er) as (F2 & Hsub2 & Hwf2 & HnF & Hno & Hst & Hcnt2).
    exists F2. split; [set_solver|]. split; [exact Hwf2|]. split; [|split; [|split]].
    + intros i Hi [He|Hin].
      * destruct (Hiss i He) as [HiF _]. contradiction.
      * apply (HnF i); [set_solver | exact Hin].
    + intros i Hi Hnr [He|Hin].
      * destruct (Hiss i He) as [_ Hio]. contradiction.
      * assert (Hne : e <> RolledBack) by (intros ->; apply Hnr; now left).
        assert (Hnr' : ~ In RolledBack es1) by (intros Hin'; apply Hnr; now right).
        destruct (Hkeep i Hi Hne) as [Hi1|Hi1].
        -- exact (Hno i Hi1 Hnr' Hin).
        -- exact (HnF i Hi1 Hin).
    + intros i Hi Hnr.
      assert (Hne : e <> RolledBack) by (intros ->; apply Hnr; now left).
      assert (Hnr' : ~ In RolledBack es1) by (intros Hin'; apply Hnr; now right).
      destruct (Hkeep i Hi Hne) as [Hi1|Hi1]; [exact (Hst i Hi1 Hnr')|].
      right. set_solver.
    + rewrite Hcnt2, Hcnt. cbn [List.filter]. destruct (is_Fixed e); cbn [length]; lia.
Qed.

(** A run cut at one of its events. *)
Lemma run_split (calls : list call) (a a' : Id_allocator) (es1 es2 : list event) (e : event) :
  run calls a = (es1 ++ e :: es2, a') ->
  exists c1 c c2 a1 a2,
    calls = c1 ++ c :: c2 /\ run c1 a = (es1, a1) /\ step c a1 = (e, a2)
    /\ run c2 a2 = (es2, a').
Proof.
  revert calls a. induction es1 as [|e1 es1 IH]; intros calls a E.
  - destruct calls as [|c calls]; cbn in E; [inversion E|].
    destruct (step c a) as [e0 a1] eqn:Es. destruct (run calls a1) as [es a2] eqn:Er.
    inversion E; subst. exists [], c, calls, a, a1. auto.
  - destruct calls as [|c calls]; cbn in E; [inversion E|].
    destruct (step c a) as [e0 a1] eqn:Es. destruct (run calls a1) as [es a2] eqn:Er.
    inversion E; subst.
    destruct (IH calls a1 Er) as (c1 & c' & c2 & b1 & b2 & -> & Hr1 & Hs & Hr2).
    exists (c :: c1), c', c2, b1, b2. split; [reflexivity|].
    split; [cbn; now rewrite Es, Hr1 | auto].
Qed.

Lemma run_wf_with (calls : list call) (a a' : Id_allocator) (es : list event) (F : gset Z) :
  wf_with F a -> run calls a = (es, a') -> exists F', F ⊆ F' /\ wf_with F' a'.
Proof.
  intros Hwf E. destruct (run_spec calls F a a' es Hwf E) as (F' & ? & ? & _). eauto.
Qed.

(** X1: whatever the calls of [issue], [fix] and [rollback] made on a new
    [Id_allocator], its state stays well formed: no id is both outstanding
    and waiting to be reissued, every such id lies between 0 and [next_new],
    and [count_fixed] is the number of calls of [fix] that succeeded (and so
    is never negative). *)
Theorem Id_allocator_invariant (calls : list call) :
  wf (snd (run calls Id_allocator_init))
  /\ count_fixed (snd (run calls Id_allocator_init))
     = Z.of_nat (length (List.filter is_Fixed (fst (run calls Id_allocator_init))))
  /\ count_issued (snd (run calls Id_allocator_init))
     = count_fixed (snd (run calls Id_allocator_init))
       + Z.of_nat (size (outstanding (snd (run calls Id_allocator_init)))).
Proof.
  destruct (run calls Id_allocator_init) as [es a] eqn:E. cbn [fst snd].
  destruct (run_spec calls ∅ _ _ _ wf_with_init E) as (F & _ & Hwf & _ & _ & _ & Hcnt).
  split; [exact (proj1 Hwf)|]. split; [rewrite Hcnt; reflexivity|].
  unfold count_issued, count_fixed. lia.
Qed.

(** X2: an id whose [fix] succeeded is never issued again, whatever calls
    follow (rollbacks included). *)
Theorem fixed_id_is_never_issued_again (calls : list call) (es1 es2 : list event) (i : Z) :
  fst (run calls Id_allocator_init) = es1 ++ Fixed i :: es2 ->
  ~ In (Issued i) es2.
Proof.
  destruct (run calls Id_allocator_init) as [es a] eqn:E. cbn [fst]. intros ->.
  destruct (run_split _ _ _ _ _ _ E) as (c1 & c & c2 & a1 & a2 & -> & Hr1 & Hs & Hr2).
  destruct (run_wf_with _ _ _ _ _ wf_with_init Hr1) as (F1 & _ & Hwf1).
  destruct (step_spec F1 c a1 a2 _ Hwf1 Hs) as (F2 & _ & Hwf2 & _ & Hfix & _).
  destruct (Hfix i eq_refl) as [HiF _].
  destruct (run_spec c2 F2 a2 a es2 Hwf2 Hr2) as (_ & _ & _ & HnF & _).
  exact (HnF i HiF).
Qed.

(** X3: the same id is issued twice only across a rollback: between two
    events that issue the same id there is a call of [rollback]. *)
Theorem issued_twice_only_after_rollback (calls : list call)
    (es1 es2 es3 : list event) (i : Z) :
  fst (run calls Id_allocator_init) = es1 ++ Issued i :: es2 ++ Issued i :: es3 ->
  In RolledBack es2.
Proof.
  destruct (run calls Id_allocator_init) as [es a] eqn:E. cbn [fst]. intros ->.
  destruct (run_split _ _ _ _ _ _ E) as (c1 & c & c2 & a1 & a2 & -> & Hr1 & Hs & Hr2).
  destruct (run_wf_with _ _ _ _ _ wf_with_init Hr1) as (F1 & _ & Hwf1).
  assert (Hi2 : i ∈ outstanding a2 /\ exists F2, wf_with F2 a2).
  { destruct c as [|j|]; cbn in Hs.
    - destruct (issue a1) as [i0 a0] eqn:Ei. inversion Hs; subst.
      destruct (issue_spec F1 a1 a2 i Hwf1 Ei) as (Hwf2 & _ & _ & Hout & _).
      split; [rewrite Hout; set_solver | eauto].
    - destruct (fix_id j a1); inversion Hs.
    - inversion Hs. }
  destruct Hi2 as (Hi2 & F2 & Hwf2).
  destruct (in_dec (fun x y : event => decide (x = y)) RolledBack es2) as [Hin|Hnin];
    [exact Hin|exfalso].
  destruct (run_split c2 a2 a es2 es3 (Issued i) Hr2)
    as (d1 & d & d2 & b1 & b2 & -> & Hd1 & Hds & Hd2).
  destruct (run_spec d1 F2 a2 b1 es2 Hwf2 Hd1) as (F3 & _ & Hwf3 & _ & _ & Hst & _).
  destruct (step_spec F3 d b1 b2 _ Hwf3 Hds) as (_ & _ & _ & Hiss & _).
  destruct (Hiss i eq_refl) as [HiF Hio].
  destruct (Hst i Hi2 Hnin); contradiction.
Qed.

Lemma fixed_id_is_never_issued_again_witness :
  fst (run [Issue; Issue; Fix 0; Rollback; Issue; Issue] Id_allocator_init)
  = [Issued 0; Issued 1] ++ Fixed 0 :: [RolledBack; Issued 1; Issued 2]
  /\ ~ In (Issued 0) [RolledBack; Issued 1; Issued 2].
Proof.
  assert (E : fst (run [Issue; Issue; Fix 0; Rollback; Issue; Issue] Id_allocator_init)
              = [Issued 0; Issued 1] ++ Fixed 0 :: [RolledBack; Issued 1; Issued 2])
    by (vm_compute; reflexivity).
  split; [exact E|].
  exact (fixed_id_is_never_issued_again
           [Issue; Issue; Fix 0; Rollback; Issue; Issue]
           [Issued 0; Issued 1] [RolledBack; Issued 1; Issued 2] 0 E).
Defined.

Lemma issued_twice_only_after_rollback_witness :
  fst (run [Issue; Issue; Fix 0; Rollback; Issue; Issue] Id_allocator_init)
  = [Issued 0] ++ Issued 1 :: [Fixed 0; RolledBack] ++ Issued 1 :: [Issued 2]
  /\ In RolledBack [Fixed 0; RolledBack].
Proof.
  assert (E : fst (run [Issue; Issue; Fix 0; Rollback; Issue; Issue] Id_allocator_init)
              = [Issued 0] ++ Issued 1 :: [Fixed 0; RolledBack] ++ Issued 1 :: [Issued 2])
    by (vm_compute; reflexivity).
  split; [exact E|].
  exact (issued_twice_only_after_rollback
           [Issue; Issue; Fix 0; Rollback; Issue; Issue]
           [Issued 0] [Fixed 0; RolledBack] [Issued 2] 1 E).
Defined.

Lemma issue_many_reissue (n : nat) (a : Id_allocator) :
  size (to_reissue a) = n ->
  StronglySorted Z.lt (fst (issue_many n a))
  /\ (forall x, In x (fst (issue_many n a)) <-> x ∈ to_reissue a)
  /\ outstanding (snd (issue_many n a)) = outstanding a ∪ to_reissue a
  /\ to_reissue (snd (issue_many n a)) = ∅
  /\ next_new (snd (issue_many n a)) = next_new a.
Proof.
  revert a. induction n as [|n IH]; intros a Hn.
  - apply size_empty_inv in Hn. apply leibniz_equiv in Hn. cbn.
    split; [constructor|]. split; [intros x; rewrite Hn; set_solver|].
    split; [rewrite Hn; set_solver|]. auto.
  - cbn [issue_many]. unfold issue.
    pose proof (py_min_gset (to_reissue a)) as Hm.
    destruct (py_min (to_reissue a)) as [m|].
    2:{ rewrite Hm, size_empty in Hn. discriminate. }
    destruct Hm as [Hin Hle].
    set (a1 := mk_Id_allocator (next_new a) (outstanding a ∪ {[ m ]})
                 (to_reissue a ∖ {[ m ]})).
    assert (Hn1 : size (to_reissue a1) = n).
    { cbn. pose proof (size_remove _ _ Hin). lia. }
    destruct (IH a1 Hn1) as (Hs & Hel & Hout & Hre & Hnn).
    destruct (issue_many n a1) as [l a2]. cbn [fst snd] in *.
    split; [|split; [|split; [|auto]]].
    + constructor; [exact Hs|]. apply Forall_forall. intros x Hx.
      apply list_elem_of_In, Hel in Hx. cbn in Hx.
      apply elem_of_difference in Hx as [Hx Hne].
      specialize (Hle x Hx). rewrite elem_of_singleton in Hne. lia.
    + intros x. cbn [In]. rewrite Hel. cbn.
      rewrite elem_of_difference, elem_of_singleton.
      destruct (decide (x = m)); subst; intuition congruence.
    + rewrite Hout. cbn. apply set_eq. intros x.
      rewrite !elem_of_union, elem_of_difference, elem_of_singleton.
      destruct (decide (x = m)); subst; tauto.
Qed.

Lemma issue_many_new (k : nat) (a : Id_allocator) :
  to_reissue a = ∅ ->
  fst (issue_many k a) = map (fun j => next_new a + Z.of_nat j) (seq 0 k)
  /\ to_reissue (snd (issue_many k a)) = ∅
  /\ next_new (snd (issue_many k a)) = next_new a + Z.of_nat k.
Proof.
  revert a. induction k as [|k IH]; intros a He.
  - cbn. split; [reflexivity|]. split; [exact He|]. lia.
  - cbn [issue_many]. unfold issue. rewrite He.
    change (py_min ∅) with (@None Z). cbv iota beta.
    set (a1 := mk_Id_allocator (next_new a + 1) (outstanding a ∪ {[ next_new a ]}) ∅).
    destruct (IH a1 eq_refl) as (Hl & Hre & Hnn).
    destruct (issue_many k a1) as [l a2]. cbn [fst snd] in *.
    unfold a1 in *. cbn [next_new] in *.
    split; [|split; [exact Hre | lia]].
    rewrite Hl. cbn [seq map]. f_equal; [lia|].
    rewrite <- seq_shift, map_map. apply map_ext. intros j. lia.
Qed.

(** X4: after [rollback], the ids that were not finished with (outstanding,
    or already waiting to be reissued) are issued again in ascending order,
    each once, before any new id; the call of [issue] after them returns
    [next_new], which the rollback and the reissues have not changed. *)
Theorem rollback_reissues_in_ascending_order (a : Id_allocator) :
  StronglySorted Z.lt
    (fst (issue_many (size (to_reissue a ∪ outstanding a)) (rollback a)))
  /\ (forall x,
        In x (fst (issue_many (size (to_reissue a ∪ outstanding a)) (rollback a)))
        <-> x ∈ to_reissue a ∪ outstanding a)
  /\ fst (issue (snd (issue_many (size (to_reissue a ∪ outstanding a)) (rollback a))))
     = next_new a.
Proof.
  set (r := issue_many (size (to_reissue a ∪ outstanding a)) (rollback a)).
  assert (H : StronglySorted Z.lt (fst r)
              /\ (forall x, In x (fst r) <-> x ∈ to_reissue a ∪ outstanding a)
              /\ outstanding (snd r) = outstanding (rollback a) ∪ to_reissue (rollback a)
              /\ to_reissue (snd r) = ∅
              /\ next_new (snd r) = next_new a)
    by exact (issue_many_reissue _ (rollback a) eq_refl).
  destruct H as (Hs & Hel & _ & Hre & Hnn).
  split; [exact Hs|]. split; [exact Hel|].
  unfold issue. rewrite Hre. change (py_min ∅) with (@None Z). cbn. exact Hnn.
Qed.

(** X5: the ids issued by a new allocator count up from zero. *)
Theorem new_allocator_counts_up_from_zero (k : nat) :
  fst (issue_many k Id_allocator_init) = map Z.of_nat (seq 0 k).
Proof.
  destruct (issue_many_new k Id_allocator_init eq_refl) as (Hl & _).
  rewrite Hl. apply map_ext. intros j. cbn. lia.
Qed.

Lemma Forall2_elem_of {A B : Type} (P : A -> B -> Prop) (l : list A) (k : list B) :
  Forall2 P l k ->
  (forall y, y ∈ k -> exists x, x ∈ l /\ P x y)
  /\ (forall x, x ∈ l -> exists y, y ∈ k /\ P x y).
Proof.
  induction 1 as [|x y l k Hxy _ [IH1 IH2]].
  - split; intros ? Hin; inversion Hin.
  - split.
    + intros y' Hy'. apply elem_of_cons in Hy' as [->|Hy'].
      * exists x. split; [left | exact Hxy].
      * destruct (IH1 y' Hy') as (x' & Hx' & HP). exists x'. split; [now right | exact HP].
    + intros x' Hx'. apply elem_of_cons in Hx' as [->|Hx'].
      * exists y. split; [left | exact Hxy].
      * destruct (IH2 x' Hx') as (y' & Hy' & HP). exists y'. split; [now right | exact HP].
Qed.

Lemma groups_of_spec (sc : Group_scheduler) (groups : list (Z * Z * option Z)) :
  groups_of sc = inr groups ->
  forall g c lim,
    (g, c, lim) ∈ groups
    <-> exists a, allocators sc !! g = Some a /\ c = count_issued a
                  /\ limits sc !! g = Some lim.
Proof.
  unfold groups_of. intros E g c lim.
  destruct (mapM _ (map_to_list (allocators sc))) as [k|] eqn:Em; inversion E; subst k.
  apply mapM_Some in Em. apply Forall2_elem_of in Em as [H1 H2]. split.
  - intros Hin. destruct (H1 _ Hin) as ([g' a] & Hx & HP).
    apply elem_of_map_to_list in Hx. cbn in HP.
    destruct (limits sc !! g') as [lim'|] eqn:El; inversion HP; subst.
    exists a. auto.
  - intros (a & Ha & -> & Hl). apply elem_of_map_to_list in Ha.
    destruct (H2 _ Ha) as (y & Hy & HP). cbn in HP. rewrite Hl in HP.
    inversion HP; subst. exact Hy.
Qed.

Lemma groups_of_raises (sc : Group_scheduler) (e : error) :
  groups_of sc = inl e ->
  exists g a, allocators sc !! g = Some a /\ limits sc !! g = None.
Proof.
  unfold groups_of. intros E.
  destruct (mapM _ (map_to_list (allocators sc))) as [k|] eqn:Em; [inversion E|].
  apply mapM_None in Em. apply Exists_exists in Em as ([g a] & Hin & Hf).
  apply elem_of_map_to_list in Hin. cbn in Hf.
  destruct (limits sc !! g) eqn:El; [discriminate|]. eauto.
Qed.

Lemma available_of_spec (groups : list (Z * Z * option Z)) (c g : Z) :
  (c, g) ∈ available_of groups
  <-> exists lim, (g, c, lim) ∈ groups
                  /\ match lim with None => True | Some l => c < l end.
Proof.
  unfold available_of. rewrite list_elem_of_omap. split.
  - intros ([[g' c'] lim] & Hin & Hf). exists lim. destruct lim as [l|].
    + destruct (c' <? l) eqn:El; inversion Hf; subst. split; [exact Hin | lia].
    + inversion Hf; subst. auto.
  - intros (lim & Hin & Hl). exists (g, c, lim). split; [exact Hin|].
    destruct lim as [l|]; [|reflexivity].
    destruct (c <? l) eqn:El; [reflexivity | lia].
Qed.

Lemma pair_lt_spec (p q : Z * Z) :
  pair_lt p q = false <-> pair_le q p.
Proof.
  unfold pair_lt, pair_le. destruct p as [a b], q as [c d]. cbn.
  destruct (a <? c) eqn:E1, (a =? c) eqn:E2, (b <? d) eqn:E3; cbn; split;
    intros H; try reflexivity; try discriminate; lia.
Qed.

Lemma pair_min_spec (l : list (Z * Z)) :
  match pair_min l with
  | Some p => p ∈ l /\ forall q, q ∈ l -> pair_le p q
  | None => l = []
  end.
Proof.
  destruct l as [|p0 rest]; cbn; [reflexivity|].
  assert (H : forall (rest : list (Z * Z)) (m : Z * Z),
             let r := fold_left (fun m q => if pair_lt q m then q else m) rest m in
             r ∈ m :: rest /\ pair_le r m /\ forall q, q ∈ rest -> pair_le r q).
  { clear. induction rest as [|q rest IH]; intros m; cbn.
    - split; [left|]. split; [|intros q Hq; inversion Hq].
      unfold pair_le. lia.
    - destruct (IH (if pair_lt q m then q else m)) as (Hin & Hle & Hall).
      set (r := fold_left _ rest _) in *.
      destruct (pair_lt q m) eqn:El.
      + assert (Hqm : pair_le q m).
        { unfold pair_lt in El. unfold pair_le. destruct q, m; cbn in *.
          apply orb_true_iff in El as [El|El]; [lia|].
          apply andb_true_iff in El as [E1 E2]. lia. }
        split; [right; exact Hin|]. split.
        * unfold pair_le in *. lia.
        * intros q' Hq'. apply elem_of_cons in Hq' as [->|Hq']; [exact Hle | now apply Hall].
      + apply pair_lt_spec in El. split.
        * apply elem_of_cons in Hin as [->|Hin]; [left | right; right; exact Hin].
        * split; [exact Hle|].
          intros q' Hq'. apply elem_of_cons in Hq' as [->|Hq']; [|now apply Hall].
          unfold pair_le in *. lia. }
  destruct (H rest p0) as (Hin & Hle & Hall). split; [exact Hin|].
  intros q Hq. apply elem_of_cons in Hq as [->|Hq]; [exact Hle | now apply Hall].
Qed.

Lemma size_bounded (n : nat) (X : gset Z) (lo : Z) :
  (forall x, x ∈ X -> lo <= x < lo + Z.of_nat n) -> (size X <= n)%nat.
Proof.
  revert X. induction n as [|n IH]; intros X HX.
  - assert (X = ∅) as ->; [|now rewrite size_empty].
    apply set_eq. intros x. split; [|set_solver]. intros Hx. apply HX in Hx. lia.
  - assert (HY : (size (X ∖ {[ (lo + Z.of_nat n)%Z ]}) <= n)%nat).
    { apply IH. intros x Hx. apply elem_of_difference in Hx as [Hx Hne].
      rewrite elem_of_singleton in Hne. apply HX in Hx. lia. }
    destruct (decide (lo + Z.of_nat n ∈ X)) as [Hin|Hnin].
    + pose proof (size_remove _ _ Hin). lia.
    + assert (X ∖ {[ lo + Z.of_nat n ]} = X) as E by set_solver.
      rewrite E in HY. lia.
Qed.

Lemma wf_wf_with (a : Id_allocator) : wf a <-> wf_with ∅ a.
Proof.
  split; [|now intros [H _]]. intros H. split; [exact H|].
  split; [set_solver|]. split; [set_solver|]. intros i Hi. set_solver.
Qed.

(** One call of [issue] on a well-formed allocator: the id is not negative
    and at most the number of ids issued before, and one more id counts as
    issued. *)
Lemma issue_count (a a' : Id_allocator) (n : Z) :
  wf a -> issue a = (n, a') ->
  wf a' /\ 0 <= n <= count_issued a /\ count_issued a' = count_issued a + 1.
Proof.
  intros Hwf E. apply wf_wf_with in Hwf.
  destruct (issue_spec ∅ a a' n Hwf E) as (Hwf' & _ & _ & _ & Hcase).
  destruct (wf_with_elim _ _ Hwf) as (_ & _ & Hr & H0 & _).
  split; [now apply wf_wf_with|]. unfold count_issued.
  destruct Hcase as [(Hin & Hle & Hre & Hnn) | (Hemp & -> & Hre & Hnn)].
  - rewrite Hre, Hnn. pose proof (size_remove _ _ Hin) as Hs.
    assert (Hb : (size (to_reissue a) <= Z.to_nat (next_new a - n))%nat).
    { apply (size_bounded _ _ n). intros x Hx. specialize (Hle x Hx).
      apply Hr in Hx. lia. }
    apply Hr in Hin. lia.
  - rewrite Hre, Hnn, Hemp, size_empty. lia.
Qed.

Lemma Group_scheduler_issue_spec (sc sc' : Group_scheduler) (g n : Z) :
  Group_scheduler_issue sc = inr (Some (g, n), sc') ->
  exists a lim,
    allocators sc !! g = Some a /\ limits sc !! g = Some lim /\ below_limit a lim
    /\ sc' = mk_Group_scheduler (<[ g := snd (issue a) ]> (allocators sc)) (limits sc)
    /\ n = fst (issue a)
    /\ forall g' a' lim',
         allocators sc !! g' = Some a' -> limits sc !! g' = Some lim' ->
         below_limit a' lim' ->
         pair_le (count_issued a, g) (count_issued a', g').
Proof.
  unfold Group_scheduler_issue. intros E.
  destruct (groups_of sc) as [e|groups] eqn:Eg; [inversion E|].
  pose proof (groups_of_spec sc groups Eg) as Hg.
  pose proof (pair_min_spec (available_of groups)) as Hm.
  destruct (pair_min (available_of groups)) as [[c g0]|]; [|inversion E].
  destruct Hm as [Hin Hle].
  apply available_of_spec in Hin as (lim & Hin & Hlim).
  apply Hg in Hin as (a & Ha & -> & Hl).
  rewrite Ha in E. destruct (issue a) as [n0 a0] eqn:Ei. inversion E; subst.
  exists a, lim. rewrite Ei. cbn [fst snd]. split; [exact Ha|]. split; [exact Hl|].
  split; [destruct lim; exact Hlim|]. split; [reflexivity|]. split; [reflexivity|].
  intros g' a' lim' Ha' Hl' Hb. apply Hle. apply available_of_spec.
  exists lim'. split; [apply Hg; eauto | destruct lim'; exact Hb].
Qed.

(** X6: when [Group_scheduler.issue] returns a token, its group has not
    reached its limit and has the least pair (number of games issued, group
    code) of the groups that have not; the game number is the one that the
    group's allocator issues. *)
Theorem Group_scheduler_issue_picks_least (sc sc' : Group_scheduler) (g n : Z) :
  Group_scheduler_issue sc = inr (Some (g, n), sc') ->
  exists a lim,
    allocators sc !! g = Some a /\ limits sc !! g = Some lim /\ below_limit a lim
    /\ n = fst (issue a)
    /\ allocators sc' = <[ g := snd (issue a) ]> (allocators sc)
    /\ limits sc' = limits sc
    /\ forall g' a' lim',
         allocators sc !! g' = Some a' -> limits sc !! g' = Some lim' ->
         below_limit a' lim' ->
         count_issued a < count_issued a'
         \/ (count_issued a = count_issued a' /\ g <= g').
Proof.
  intros E. destruct (Group_scheduler_issue_spec sc sc' g n E)
    as (a & lim & Ha & Hl & Hb & -> & -> & Hmin).
  exists a, lim. repeat (split; [first [assumption | reflexivity]|]).
  intros g' a' lim' Ha' Hl' Hb'. exact (Hmin g' a' lim' Ha' Hl' Hb').
Qed.

(** X7: [Group_scheduler.issue] returns [(None, None)], and leaves the
    scheduler as it is, exactly when every group has a limit and has reached
    it. *)
Theorem Group_scheduler_issue_none (sc : Group_scheduler) :
  Group_scheduler_issue sc = inr (None, sc)
  <-> (forall g a, allocators sc !! g = Some a ->
         exists l, limits sc !! g = Some (Some l) /\ l <= count_issued a).
Proof.
  unfold Group_scheduler_issue. split.
  - intros E g a Ha.
    destruct (groups_of sc) as [e|groups] eqn:Eg; [inversion E|].
    pose proof (groups_of_spec sc groups Eg) as Hg.
    pose proof (pair_min_spec (available_of groups)) as Hm.
    destruct (pair_min (available_of groups)) as [[c g0]|].
    { destruct (allocators sc !! g0); [destruct (issue _)|]; inversion E. }
    assert (Hin : exists lim, (g, count_issued a, lim) ∈ groups).
    { unfold groups_of in Eg.
      destruct (mapM _ (map_to_list (allocators sc))) as [k|] eqn:Em; inversion Eg; subst k.
      apply mapM_Some in Em. apply Forall2_elem_of in Em as [_ H2].
      apply elem_of_map_to_list in Ha. destruct (H2 _ Ha) as (y & Hy & HP).
      cbn in HP. destruct (limits sc !! g) as [lim|]; inversion HP; subst. eauto. }
    destruct Hin as (lim & Hin).
    pose proof (proj1 (Hg _ _ _) Hin) as (a0 & Ha0 & _ & Hl).
    destruct lim as [l|].
    + exists l. split; [exact Hl|].
      destruct (Z_lt_le_dec (count_issued a) l) as [Hlt|Hge]; [|exact Hge].
      assert (Hav : (count_issued a, g) ∈ available_of groups)
        by (apply available_of_spec; exists (Some l); auto).
      rewrite Hm in Hav. inversion Hav.
    + assert (Hav : (count_issued a, g) ∈ available_of groups)
        by (apply available_of_spec; exists None; auto).
      rewrite Hm in Hav. inversion Hav.
  - intros Hall.
    destruct (groups_of sc) as [e|groups] eqn:Eg.
    { apply groups_of_raises in Eg as (g & a & Ha & Hl).
      destruct (Hall g a Ha) as (l & Hl' & _). congruence. }
    pose proof (groups_of_spec sc groups Eg) as Hg.
    pose proof (pair_min_spec (available_of groups)) as Hm.
    destruct (pair_min (available_of groups)) as [[c g0]|]; [|reflexivity].
    destruct Hm as [Hin _]. apply available_of_spec in Hin as (lim & Hin & Hlim).
    apply Hg in Hin as (a & Ha & -> & Hl).
    destruct (Hall g0 a Ha) as (l & Hl' & Hge).
    rewrite Hl in Hl'. inversion Hl'; subst. lia.
Qed.
Lemma set_groups_fold (group_specs : list (Z * option Z)) (sc : Group_scheduler)
    (acc : gmap Z Id_allocator * gmap Z (option Z)) (g : Z) :
  let new :=
    fold_left
      (fun (acc : gmap Z Id_allocator * gmap Z (option Z)) (spec : Z * option Z) =>
         let (group_code, limit) := spec in
         (<[ group_code :=
               match allocators sc !! group_code with
               | Some a => a
               | None => Id_allocator_init
               end ]> (fst acc),
          <[ group_code := limit ]> (snd acc)))
      group_specs acc in
  fst new !! g
  = (if decide (g ∈ group_specs.*1)
     then Some (default Id_allocator_init (allocators sc !! g))
     else fst acc !! g)
  /\ snd new !! g
     = match last (omap (fun spec : Z * option Z =>
                           if decide (fst spec = g) then Some (snd spec) else None)
                        group_specs) with
       | Some limit => Some limit
       | None => snd acc !! g
       end.
Proof.
  revert acc. induction group_specs as [|[g' lim'] specs IH]; intros acc.
  - cbn. auto.
  - cbn [fold_left]. cbv zeta in IH. destruct (IH
      (<[ g' := match allocators sc !! g' with
                | Some a => a
                | None => Id_allocator_init
                end ]> (fst acc), <[ g' := lim' ]> (snd acc))) as [IH1 IH2].
    cbv zeta. split.
    + rewrite IH1. cbn [fst fmap list_fmap].
      destruct (decide (g ∈ specs.*1)) as [Hin|Hnin].
      * rewrite decide_True by (now right). reflexivity.
      * destruct (decide (g = g')) as [->|Hne].
        -- rewrite decide_True by (now left). rewrite lookup_insert_eq.
           destruct (allocators sc !! g'); reflexivity.
        -- rewrite decide_False by (intros Hin; apply elem_of_cons in Hin as [?|?]; tauto).
           now rewrite lookup_insert_ne by congruence.
    + rewrite IH2. cbn [omap list_omap fst snd].
      destruct (decide (g' = g)) as [->|Hne].
      * rewrite last_cons. destruct (last _); [reflexivity|].
        now rewrite lookup_insert_eq.
      * destruct (last _); [reflexivity|]. now rewrite lookup_insert_ne by congruence.
Qed.

Lemma set_groups_allocators (group_specs : list (Z * option Z)) (sc : Group_scheduler)
    (g : Z) :
  allocators (set_groups group_specs sc) !! g
  = (if decide (g ∈ group_specs.*1)
     then Some (default Id_allocator_init (allocators sc !! g))
     else None).
Proof.
  unfold set_groups. cbn [allocators].
  destruct (set_groups_fold group_specs sc (∅, ∅) g) as [H1 _]. cbv zeta in H1.
  rewrite H1. cbn [fst]. now rewrite lookup_empty.
Qed.

Lemma Group_scheduler_issue_None_state (sc sc' : Group_scheduler) :
  Group_scheduler_issue sc = inr (None, sc') -> sc' = sc.
Proof.
  unfold Group_scheduler_issue.
  destruct (groups_of sc) as [e|groups]; [discriminate|].
  destruct (pair_min (available_of groups)) as [[c g0]|]; [|now inversion 1].
  destruct (allocators sc !! g0); [destruct (issue _)|]; discriminate.
Qed.

Lemma sched_step_spec (c : sched_call) (sc sc' : Group_scheduler) (e : sched_event) :
  (forall g a, allocators sc !! g = Some a -> wf a) ->
  sched_step c sc = (e, sc') ->
  forall g a, allocators sc' !! g = Some a -> wf a.
Proof.
  intros Hwf E. destruct c as [specs| |g0 n0|]; cbn in E.
  - inversion E; subst. intros g a Ha.
    rewrite set_groups_allocators in Ha.
    destruct (decide (g ∈ specs.*1)); [|discriminate]. inversion Ha; subst.
    destruct (allocators sc !! g) as [a0|] eqn:Eg; cbn.
    + exact (Hwf g a0 Eg).
    + apply wf_wf_with, wf_with_init.
  - destruct (Group_scheduler_issue sc) as [err|[[[g0 n0]|] sc1]] eqn:Ei;
      inversion E; subst; [exact Hwf| |].
    + destruct (Group_scheduler_issue_spec _ _ _ _ Ei)
        as (a0 & lim & Ha0 & _ & _ & -> & _ & _).
      intros g a Ha. cbn in Ha. destruct (decide (g = g0)) as [->|Hne].
      * rewrite lookup_insert_eq in Ha. inversion Ha; subst.
        destruct (issue a0) as [n1 a1] eqn:Ei0.
        exact (proj1 (issue_count a0 a1 n1 (Hwf g0 a0 Ha0) Ei0)).
      * rewrite lookup_insert_ne in Ha by congruence. exact (Hwf g a Ha).
    + apply Group_scheduler_issue_None_state in Ei. subst. exact Hwf.
  - unfold Group_scheduler_fix in E.
    destruct (allocators sc !! g0) as [a0|] eqn:Ea; [|inversion E; subst; exact Hwf].
    pose proof (fix_id_spec ∅ a0 n0 (proj1 (wf_wf_with a0) (Hwf g0 a0 Ea))) as Hf.
    destruct (fix_id n0 a0) as [err|a1]; inversion E; subst; [exact Hwf|].
    destruct Hf as (_ & Hwf1 & _).
    intros g a Ha. cbn in Ha. destruct (decide (g = g0)) as [->|Hne].
    + rewrite lookup_insert_eq in Ha. inversion Ha; subst. exact (proj1 Hwf1).
    + rewrite lookup_insert_ne in Ha by congruence. exact (Hwf g a Ha).
  - inversion E; subst. intros g a Ha. cbn in Ha. rewrite lookup_fmap in Ha.
    destruct (allocators sc !! g) as [a0|] eqn:Ea; inversion Ha; subst.
    apply wf_wf_with, rollback_spec, wf_wf_with. exact (Hwf g a0 Ea).
Qed.

Lemma sched_run_wf (calls : list sched_call) (sc : Group_scheduler) :
  (forall g a, allocators sc !! g = Some a -> wf a) ->
  forall g a, allocators (snd (sched_run calls sc)) !! g = Some a -> wf a.
Proof.
  revert sc. induction calls as [|c calls IH]; intros sc Hwf; [exact Hwf|].
  cbn [sched_run]. destruct (sched_step c sc) as [e sc1] eqn:Es.
  specialize (IH sc1 (sched_step_spec c sc sc1 e Hwf Es)).
  destruct (sched_run calls sc1) as [es sc2]. exact IH.
Qed.

Lemma sched_run_init_wf (calls : list sched_call) (g : Z) (a : Id_allocator) :
  allocators (snd (sched_run calls Group_scheduler_init)) !! g = Some a -> wf a.
Proof.
  apply sched_run_wf. intros g' a' H. cbn in H. rewrite lookup_empty in H. discriminate.
Qed.

(** X8: whatever calls of [set_groups], [issue], [fix] and [rollback] have
    been made on a new scheduler, a game number that [issue] returns for a
    group with a limit is at least 0 and below the limit. *)
Theorem issued_game_number_below_limit (calls : list sched_call) (g n l : Z)
    (sc' : Group_scheduler) :
  Group_scheduler_issue (snd (sched_run calls Group_scheduler_init))
  = inr (Some (g, n), sc') ->
  limits (snd (sched_run calls Group_scheduler_init)) !! g = Some (Some l) ->
  0 <= n < l.
Proof.
  intros E Hl.
  destruct (Group_scheduler_issue_spec _ _ _ _ E)
    as (a & lim & Ha & Hl' & Hb & _ & -> & _).
  rewrite Hl in Hl'. inversion Hl'; subst lim. cbn in Hb.
  destruct (issue a) as [n1 a1] eqn:Ei. cbn [fst].
  destruct (issue_count a a1 n1 (sched_run_init_wf calls g a Ha) Ei) as (_ & Hn & _). lia.
Qed.

(** X9: a token that [issue] has just returned can be fixed: [fix] does not
    raise, and the group then counts one more game issued and one more game
    fixed than before the two calls. *)
Theorem issued_token_can_be_fixed (calls : list sched_call) (g n : Z)
    (sc1 : Group_scheduler) :
  Group_scheduler_issue (snd (sched_run calls Group_scheduler_init))
  = inr (Some (g, n), sc1) ->
  exists sc2 a a2,
    Group_scheduler_fix g n sc1 = inr sc2
    /\ allocators (snd (sched_run calls Group_scheduler_init)) !! g = Some a
    /\ allocators sc2 !! g = Some a2
    /\ count_issued a2 = count_issued a + 1
    /\ count_fixed a2 = count_fixed a + 1.
Proof.
  intros E.
  destruct (Group_scheduler_issue_spec _ _ _ _ E)
    as (a & lim & Ha & _ & _ & -> & -> & _).
  pose proof (sched_run_init_wf calls g a Ha) as Hwf.
  destruct (issue a) as [n1 a1] eqn:Ei. cbn [fst snd].
  destruct (issue_spec ∅ a a1 n1 (proj1 (wf_wf_with a) Hwf) Ei)
    as (Hwf1 & Hno & _ & Hout & _).
  destruct (issue_count a a1 n1 Hwf Ei) as (_ & _ & Hc).
  unfold Group_scheduler_fix. cbn [allocators limits]. rewrite lookup_insert_eq.
  unfold fix_id. rewrite decide_True by (rewrite Hout; set_solver).
  eexists _, a, _. split; [reflexivity|]. split; [exact Ha|].
  cbn [allocators]. rewrite lookup_insert_eq. split; [reflexivity|].
  unfold count_issued, count_fixed in *. cbn [next_new outstanding to_reissue].
  split; [exact Hc|].
  assert (Hin : n1 ∈ outstanding a1) by (rewrite Hout; set_solver).
  pose proof (size_remove _ _ Hin) as Hs. rewrite Hout in Hs at 2.
  rewrite (size_add _ _ Hno) in Hs. lia.
Qed.

(** X10: [set_groups] keeps the allocator of every group of the new list
    that the scheduler already had, gives a new allocator to the others,
    forgets the groups that are not in the list, and gives each group the
    limit of its last entry in the list. *)
Theorem set_groups_keeps_listed_groups (group_specs : list (Z * option Z))
    (sc : Group_scheduler) (g : Z) :
  allocators (set_groups group_specs sc) !! g
  = (if decide (g ∈ group_specs.*1)
     then Some (default Id_allocator_init (allocators sc !! g))
     else None)
  /\ limits (set_groups group_specs sc) !! g
     = last (omap (fun spec : Z * option Z =>
                     if decide (fst spec = g) then Some (snd spec) else None)
                  group_specs).
Proof.
  unfold set_groups. cbn [allocators limits].
  destruct (set_groups_fold group_specs sc (∅, ∅) g) as [H1 H2]. cbv zeta in H1, H2.
  split.
  - rewrite H1. cbn [fst]. now rewrite lookup_empty.
  - rewrite H2. cbn [snd]. rewrite lookup_empty. now destruct (last _).
Qed.
Lemma Group_scheduler_issue_picks_least_witness :
  exists sc sc',
    Group_scheduler_issue sc = inr (Some (7, 0), sc')
    /\ exists a lim,
         allocators sc !! 7 = Some a /\ limits sc !! 7 = Some lim /\ below_limit a lim
         /\ 0 = fst (issue a)
         /\ allocators sc' = <[ 7 := snd (issue a) ]> (allocators sc)
         /\ limits sc' = limits sc
         /\ forall g' a' lim',
              allocators sc !! g' = Some a' -> limits sc !! g' = Some lim' ->
              below_limit a' lim' ->
              count_issued a < count_issued a'
              \/ (count_issued a = count_issued a' /\ 7 <= g').
Proof.
  exists (snd (sched_run [Sched_set_groups [(7, Some 2); (3, None)]; Sched_issue]
                 Group_scheduler_init)).
  exists (snd (sched_run [Sched_set_groups [(7, Some 2); (3, None)]; Sched_issue; Sched_issue]
                 Group_scheduler_init)).
  assert (E : Group_scheduler_issue
                (snd (sched_run [Sched_set_groups [(7, Some 2); (3, None)]; Sched_issue]
                        Group_scheduler_init))
              = inr (Some (7, 0),
                     snd (sched_run
                            [Sched_set_groups [(7, Some 2); (3, None)]; Sched_issue; Sched_issue]
                            Group_scheduler_init)))
    by (vm_compute; reflexivity).
  split; [exact E|].
  exact (Group_scheduler_issue_picks_least _ _ 7 0 E).
Defined.

Lemma issued_game_number_below_limit_witness :
  exists sc',
    Group_scheduler_issue
      (snd (sched_run [Sched_set_groups [(7, Some 2); (3, None)]; Sched_issue]
              Group_scheduler_init))
    = inr (Some (7, 0), sc')
    /\ limits (snd (sched_run [Sched_set_groups [(7, Some 2); (3, None)]; Sched_issue]
                      Group_scheduler_init)) !! 7 = Some (Some 2)
    /\ 0 <= 0 < 2.
Proof.
  exists (snd (sched_run [Sched_set_groups [(7, Some 2); (3, None)]; Sched_issue; Sched_issue]
                 Group_scheduler_init)).
  assert (E : Group_scheduler_issue
                (snd (sched_run [Sched_set_groups [(7, Some 2); (3, None)]; Sched_issue]
                        Group_scheduler_init))
              = inr (Some (7, 0),
                     snd (sched_run
                            [Sched_set_groups [(7, Some 2); (3, None)]; Sched_issue; Sched_issue]
                            Group_scheduler_init)))
    by (vm_compute; reflexivity).
  assert (L : limits (snd (sched_run [Sched_set_groups [(7, Some 2); (3, None)]; Sched_issue]
                             Group_scheduler_init)) !! 7 = Some (Some 2))
    by (vm_compute; reflexivity).
  split; [exact E|]. split; [exact L|].
  exact (issued_game_number_below_limit
           [Sched_set_groups [(7, Some 2); (3, None)]; Sched_issue] 7 0 2 _ E L).
Defined.

Lemma issued_token_can_be_fixed_witness :
  exists sc1,
    Group_scheduler_issue
      (snd (sched_run [Sched_set_groups [(7, Some 2); (3, None)]; Sched_issue; Sched_rollback]
              Group_scheduler_init))
    = inr (Some (3, 0), sc1)
    /\ exists sc2 a a2,
         Group_scheduler_fix 3 0 sc1 = inr sc2
         /\ allocators
              (snd (sched_run
                      [Sched_set_groups [(7, Some 2); (3, None)]; Sched_issue; Sched_rollback]
                      Group_scheduler_init)) !! 3 = Some a
         /\ allocators sc2 !! 3 = Some a2
         /\ count_issued a2 = count_issued a + 1
         /\ count_fixed a2 = count_fixed a + 1.
Proof.
  exists (snd (sched_run
                 [Sched_set_groups [(7, Some 2); (3, None)]; Sched_issue; Sched_rollback;
                  Sched_issue]
                 Group_scheduler_init)).
  assert (E : Group_scheduler_issue
                (snd (sched_run
                        [Sched_set_groups [(7, Some 2); (3, None)]; Sched_issue; Sched_rollback]
                        Group_scheduler_init))
              = inr (Some (3, 0),
                     snd (sched_run
                            [Sched_set_groups [(7, Some 2); (3, None)]; Sched_issue;
                             Sched_rollback; Sched_issue]
                            Group_scheduler_init)))
    by (vm_compute; reflexivity).
  split; [exact E|].
  exact (issued_token_can_be_fixed
           [Sched_set_groups [(7, Some 2); (3, None)]; Sched_issue; Sched_rollback] 3 0 _ E).
Defined.

End CompetitionsFacts.

(** ** Sessions of the engine: what every command keeps *)

Section SessionFacts.

Context {Board : Type} {Cookie : Type} {GenSt : Type}.
Context `{BO : Board_ops Board} `{GH : Gtp_helpers} `{SF : Sgf_files Board}.

Variable move_generator :
  GenSt -> Game_state (Board := Board) (Cookie := Cookie) -> colour ->
  Move_generator_result (Cookie := Cookie) * GenSt.

Abbreviation World := (World (Board := Board) (Cookie := Cookie) (GenSt := GenSt)).
Abbreviation Gtp_state := (Gtp_state (Board := Board) (Cookie := Cookie)).
Abbreviation History_move := (History_move (Cookie := Cookie)).
Abbreviation M := (M (Board := Board) (Cookie := Cookie) (GenSt := GenSt)).

(** *** Rules for [keeps] *)

Section Keeps.

Variable Inv : World -> Prop.

Lemma keeps_ret {A : Type} (a : A) : keeps Inv (ret a).
Proof. intros w r w' HI E. inversion E; subst. exact HI. Qed.

Lemma keeps_raise {A : Type} (e : exc) : keeps Inv (raise (A := A) e).
Proof. intros w r w' HI E. inversion E; subst. exact HI. Qed.

Lemma keeps_lift {A : Type} (x : result A) : keeps Inv (lift x).
Proof. intros w r w' HI E. inversion E; subst. exact HI. Qed.

Lemma keeps_get_self : keeps Inv get_self.
Proof. intros w r w' HI E. inversion E; subst. exact HI. Qed.

Lemma keeps_bind {A B : Type} (m : M A) (k : A -> M B) :
  keeps Inv m -> (forall x, keeps Inv (k x)) -> keeps Inv (bind m k).
Proof.
  intros Hm Hk w r w' HI E. unfold bind in E.
  destruct (m w) as [[x|e] w1] eqn:Em.
  - exact (Hk x w1 r w' (Hm w _ w1 HI Em) E).
  - inversion E; subst. exact (Hm w _ w' HI Em).
Qed.

Lemma keeps_try_except {A : Type} (m : M A) (handler : exc -> option (M A)) :
  keeps Inv m -> (forall e h, handler e = Some h -> keeps Inv h) ->
  keeps Inv (try_except m handler).
Proof.
  intros Hm Hh w r w' HI E. unfold try_except in E.
  destruct (m w) as [[x|e] w1] eqn:Em.
  - inversion E; subst. exact (Hm w _ w' HI Em).
  - destruct (handler e) as [h|] eqn:Eh.
    + exact (Hh e h Eh w1 r w' (Hm w _ w1 HI Em) E).
    + inversion E; subst. exact (Hm w _ w' HI Em).
Qed.

Lemma keeps_on_ValueError {A : Type} (m h : M A) :
  keeps Inv m -> keeps Inv h -> keeps Inv (try_except m (on_ValueError h)).
Proof.
  intros Hm Hh. apply keeps_try_except; [exact Hm|].
  intros e h' E. destruct e; inversion E; subst. exact Hh.
Qed.

Lemma keeps_on_IndexError {A : Type} (m h : M A) :
  keeps Inv m -> keeps Inv h -> keeps Inv (try_except m (on_IndexError h)).
Proof.
  intros Hm Hh. apply keeps_try_except; [exact Hm|].
  intros e h' E. destruct e; inversion E; subst. exact Hh.
Qed.

Lemma keeps_on_OverflowError {A : Type} (m h : M A) :
  keeps Inv m -> keeps Inv h -> keeps Inv (try_except m (on_OverflowError h)).
Proof.
  intros Hm Hh. apply keeps_try_except; [exact Hm|].
  intros e h' E. destruct e; inversion E; subst. exact Hh.
Qed.

Lemma keeps_for_in {A L : Type} (xs : list A) (locals : L) (body : A -> L -> M L) :
  (forall x l, keeps Inv (body x l)) -> keeps Inv (for_in xs locals body).
Proof.
  intros Hb. revert locals. induction xs as [|x xs IH]; intros locals; cbn [for_in].
  - apply keeps_ret.
  - apply keeps_bind; [apply Hb | exact IH].
Qed.

Lemma keeps_arg_at (args : list string) (i : nat) : keeps Inv (arg_at args i).
Proof. unfold arg_at. destruct (nth_error args i); [apply keeps_ret | apply keeps_raise]. Qed.

Lemma keeps_report_bad_arguments {A : Type} : keeps Inv (report_bad_arguments (A := A)).
Proof. apply keeps_raise. Qed.

Lemma keeps_assign (f : Gtp_state -> Gtp_state) :
  (forall w, Inv w -> Inv (mk_World (f (self w)) (generator w) (generator_calls w))) ->
  keeps Inv (assign f).
Proof. intros Hf w r w' HI E. inversion E; subst. exact (Hf w HI). Qed.

Lemma keeps_play_on_board (row col : Z) (c : colour) :
  (forall w b, Inv w -> Inv (mk_World (set_board b (self w)) (generator w) (generator_calls w))) ->
  keeps Inv (play_on_board row col c).
Proof.
  intros Hb w r w' HI E. unfold play_on_board in E.
  destruct (Board_play (board (self w)) row col c) as [[b ko]|e]; inversion E; subst.
  - exact (Hb w b HI).
  - exact HI.
Qed.

Lemma keeps_call_move_generator (game_state : Game_state) (c : colour) :
  (forall w g cs, Inv w -> Inv (mk_World (self w) g cs)) ->
  keeps Inv (call_move_generator move_generator game_state c).
Proof.
  intros Hg w r w' HI E. unfold call_move_generator in E.
  destruct (move_generator (generator w) game_state c) as [generated g'].
  inversion E; subst. exact (Hg w _ _ HI).
Qed.

End Keeps.

(** Symbolic execution of a handler for [keeps]: [side] proves that one
    assignment keeps the invariant, [special] is tried first. *)
Ltac keeps_step side special :=
  first
    [ special
    | apply keeps_ret | apply keeps_raise | apply keeps_lift | apply keeps_get_self
    | apply keeps_arg_at | apply keeps_report_bad_arguments
    | apply keeps_bind; [|intros ?]
    | apply keeps_on_ValueError | apply keeps_on_IndexError
    | apply keeps_on_OverflowError
    | apply keeps_for_in; intros ? ?
    | apply keeps_assign; solve [side]
    | apply keeps_play_on_board; solve [side]
    | apply keeps_call_move_generator; solve [side]
    | match goal with
      | |- keeps _ (match ?x with _ => _ end) => destruct x
      | |- keeps _ (if ?b then _ else _) => destruct b
      | |- keeps _ ((match ?x with _ => _ end) _) => destruct x
      end
    | progress cbv beta iota zeta ].

Ltac keeps_run side special := repeat keeps_step side special.

(** *** The generator is called by the generating commands only *)

Lemma handler_keeps_generator (cmd : command) (args : list string) (g : GenSt)
    (cs : list (generator_call (Board := Board) (Cookie := Cookie))) :
  cmd <> genmove -> cmd <> genmove_claim -> cmd <> reg_genmove ->
  cmd <> place_free_handicap ->
  keeps (generator_untouched g cs) (handler move_generator cmd args).
Proof.
  intros H1 H2 H3 H4.
  destruct cmd; try congruence; cbn [handler];
    unfold handle_boardsize, handle_clear_board, handle_komi, handle_fixed_handicap,
      handle_set_free_handicap, handle_play, handle_undo, handle_loadsgf,
      handle_explain_last_move, handle_time_left, handle_time_settings,
      reset, set_komi, set_history_base, reset_to_moves, reset_to_moves_body, append_move;
    keeps_run ltac:(intros; assumption) fail.
Qed.

(** X11: the commands other than [genmove], [gomill-genmove_claim],
    [reg_genmove] and [place_free_handicap] never call the move generator,
    whether they succeed or fail. *)
Theorem only_generating_commands_call_the_generator (cmd : command)
    (args : list string) (w : World) :
  cmd <> genmove -> cmd <> genmove_claim -> cmd <> reg_genmove ->
  cmd <> place_free_handicap ->
  generator (snd (handler move_generator cmd args w)) = generator w
  /\ generator_calls (snd (handler move_generator cmd args w)) = generator_calls w.
Proof.
  intros H1 H2 H3 H4.
  destruct (handler move_generator cmd args w) as [r w'] eqn:E.
  exact (handler_keeps_generator cmd args (generator w) (generator_calls w)
           H1 H2 H3 H4 w r w' (conj eq_refl eq_refl) E).
Qed.

(** *** The settings stay in range *)

Abbreviation settings_in_range :=
  (settings_in_range (Board := Board) (Cookie := Cookie) (GenSt := GenSt)).

Lemma keeps_set_komi (sizes : gset Z) (f : pyfloat) :
  keeps (settings_in_range sizes) (set_komi f : M unit).
Proof.
  intros w r w' (Ha & Hb & Hc) E. destruct f as [q|negative|].
  - rewrite set_komi_finite in E. inversion E; subst r w'.
    split; [exact Ha|]. split; [exact Hb|]. cbn. lia.
  - rewrite set_komi_infinite in E. inversion E; subst r w'.
    split; [exact Ha|]. split; [exact Hb|]. cbn. destruct negative; lia.
  - rewrite set_komi_nan in E. inversion E; subst r w'. split; auto.
Qed.

Lemma handler_keeps_settings (cmd : command) (args : list string) (sizes : gset Z) :
  keeps (settings_in_range sizes) (handler move_generator cmd args).
Proof.
  destruct cmd; cbn [handler];
    unfold handle_boardsize, handle_clear_board, handle_komi, handle_fixed_handicap,
      handle_set_free_handicap, handle_place_free_handicap, place_free_handicap_body,
      handle_play, handle_genmove, handle_genmove_claim, handle_reg_genmove,
      _handle_genmove, handle_undo, handle_loadsgf,
      handle_explain_last_move, handle_time_left, handle_time_settings,
      reset, set_history_base, reset_to_moves, reset_to_moves_body, append_move.
  all: try solve [keeps_run ltac:(intros; assumption) ltac:(apply keeps_set_komi)].
  - (* boardsize *)
    apply keeps_bind;
      [keeps_run ltac:(intros; assumption) ltac:(apply keeps_set_komi) | intros size].
    intros w r w' HI E. unfold bind at 1, get_self in E.
    destruct (decide (size ∈ acceptable_sizes (self w))) as [Hin|Hnin];
      [|inversion E; subst r w'; exact HI].
    unfold bind at 1, assign at 1 in E.
    assert (Hrest : keeps (settings_in_range sizes)
                      (bind (assign (set_board (Board_new (board_size
                                (set_board_size size (self w))))))
                         (fun _ => bind (assign (set_handicap None))
                         (fun _ => bind (assign (set_simple_ko_point None))
                         (fun _ => bind (assign (set_simple_ko_player None))
                         (fun _ => bind (assign (set_history_base_attr
                                   (Board_new (board_size (set_board_size size (self w))))))
                         (fun _ => assign (set_move_history []))))))))
      by (keeps_run ltac:(intros; assumption) fail).
    destruct HI as (Ha & Hb & Hc).
    unfold bind at 1, get_self in E. unfold bind at 1 in E.
    destruct (bind (assign (set_board _)) _ _) as [[u|e] w1] eqn:E1.
    + cbn in E. inversion E; subst r w'.
      refine (Hrest _ _ _ _ E1). split; [exact Ha|]. split; [|exact Hc].
      cbn. now rewrite <- Ha.
    + inversion E; subst r w'.
      refine (Hrest _ _ _ _ E1). split; [exact Ha|]. split; [|exact Hc].
      cbn. now rewrite <- Ha.
  - (* loadsgf *)
    apply keeps_bind;
      [keeps_run ltac:(intros; assumption) ltac:(apply keeps_set_komi) | intros pathname].
    apply keeps_bind;
      [keeps_run ltac:(intros; assumption) ltac:(apply keeps_set_komi) | intros move_number].
    apply keeps_bind;
      [keeps_run ltac:(intros; assumption) ltac:(apply keeps_set_komi) | intros s_text].
    apply keeps_bind;
      [keeps_run ltac:(intros; assumption) ltac:(apply keeps_set_komi) | intros sgf].
    cbv zeta. intros w r w' HI E. unfold bind at 1, get_self in E.
    destruct (bool_decide (get_size sgf ∈ acceptable_sizes (self w))) eqn:Hin;
      cbn [negb] in E; [|inversion E; subst r w'; exact HI].
    apply bool_decide_eq_true in Hin.
    unfold bind at 1, assign at 1 in E.
    destruct HI as (Ha & Hb & Hc).
    match type of E with
    | ?rest ?w1 = _ =>
        assert (Hrest : keeps (settings_in_range sizes) rest)
          by (keeps_run ltac:(intros; assumption) ltac:(apply keeps_set_komi));
        refine (Hrest w1 r w' _ E)
    end.
    split; [exact Ha|]. split; [|exact Hc]. cbn. now rewrite <- Ha.
Qed.

Lemma run_commands_keeps_settings (cmds : list (command * list string)) (sizes : gset Z)
    (w : World) :
  settings_in_range sizes w ->
  settings_in_range sizes (snd (run_commands move_generator cmds w)).
Proof.
  revert w. induction cmds as [|[c args] cmds IH]; intros w HI; [exact HI|].
  cbn [run_commands]. destruct (handler move_generator c args w) as [r w1] eqn:E.
  specialize (IH w1 (handler_keeps_settings c args sizes w r w1 HI E)).
  destruct (run_commands move_generator cmds w1) as [rs w2]. exact IH.
Qed.

(** X12: in a session that starts from a constructed [Gtp_state], whatever
    the commands and whether they succeed or fail, the collection of
    acceptable sizes never changes, the board size is always one of them,
    and the komi is always between -625 and 625. *)
Theorem session_keeps_settings_in_range (acceptable : option (list Z)) (g : GenSt)
    (w0 : World) (cmds : list (command * list string)) :
  Gtp_state_init acceptable g = (Normal tt, w0) ->
  acceptable_sizes (self (snd (run_commands move_generator cmds w0)))
  = acceptable_sizes (self w0)
  /\ board_size (self (snd (run_commands move_generator cmds w0)))
     ∈ acceptable_sizes (self w0)
  /\ -625 <= komi (self (snd (run_commands move_generator cmds w0))) <= 625.
Proof.
  intros E0. apply run_commands_keeps_settings.
  unfold Gtp_state_init in E0. destruct acceptable as [l|].
  - pose proof (CompetitionsFacts.py_min_gset (list_to_set l)) as Hm.
    destruct (py_min (list_to_set l)) as [n|]; [|discriminate].
    destruct Hm as [Hin _]. inversion E0; subst. cbn.
    split; [reflexivity|]. split; [exact Hin | cbn; lia].
  - inversion E0; subst. cbn.
    split; [reflexivity|]. split; [set_solver | cbn; lia].
Qed.

(** *** reg_genmove *)

(** X13: [reg_genmove] leaves the [Gtp_state] object as it was, whatever
    its arguments and whatever the move generator answers: no stone is
    played, no move is recorded, the ko ban is kept. *)
Theorem reg_genmove_leaves_state (args : list string) (w : World) :
  self (snd (handle_reg_genmove move_generator args w)) = self w.
Proof.
  destruct (handle_reg_genmove move_generator args w) as [r w'] eqn:E. cbn [snd].
  assert (H : keeps (fun w1 : World => self w1 = self w)
                (handle_reg_genmove move_generator args)).
  { unfold handle_reg_genmove, _handle_genmove. cbn [negb andb].
    keeps_run ltac:(intros; assumption) fail. }
  exact (H w r w' eq_refl E).
Qed.

(** *** What a generated move and a played move record *)

Lemma handle_genmove_records (a : string) (rest : list string) (c : colour)
    (generated : Move_generator_result (Cookie := Cookie)) (g' : GenSt)
    (w w1 : World) (r : option string) :
  interpret_colour a = Normal c ->
  move_generator (generator w) (genmove_game_state (self w) c false) c = (generated, g') ->
  resign generated = false ->
  handle_genmove move_generator (a :: rest) w = (Normal r, w1) ->
  move_history (self w1)
  = move_history (self w)
    ++ [mk_History_move c (if pass_move generated then None else move generated)
          (comments generated) (cookie generated)]
  /\ board_size (self w1) = board_size (self w)
  /\ history_base (self w1) = history_base (self w)
  /\ replay_board (board (self w))
       [mk_History_move c (if pass_move generated then None else move generated)
          (comments generated) (cookie generated)]
     = Normal (board (self w1)).
Proof.
  intros Hc Hg Hres E.
  unfold handle_genmove, _handle_genmove, try_except, bind, arg_at, lift, ret, get_self,
    call_move_generator, append_move, assign, play_on_board, raise in E.
  cbn in E. rewrite Hc in E. cbn in E. rewrite Hg in E.
  destruct generated as [rs ps mv cl cm ck]; cbn in *. subst rs.
  destruct ps; cbn in E.
  - inversion E; subst. cbn. auto.
  - destruct mv as [[row col]|]; cbn in E; [|discriminate].
    destruct (Board_play (board (self w)) row col c) as [[b' ko]|e1] eqn:Hp; cbn in E;
      [|destruct e1; discriminate].
    inversion E; subst. cbn. auto.
Qed.

Lemma handle_play_records (args : list string) (w w1 : World) (r : option string) :
  handle_play args w = (Normal r, w1) ->
  exists a0 a1 rest c p,
    args = a0 :: a1 :: rest
    /\ interpret_colour a0 = Normal c
    /\ interpret_vertex a1 (board_size (self w)) = Normal p
    /\ move_history (self w1)
       = move_history (self w) ++ [mk_History_move c p None None]
    /\ board_size (self w1) = board_size (self w).
Proof.
  unfold handle_play, bind, report_bad_arguments, raise, lift, ret, get_self,
    try_except, play_on_board, append_move, assign.
  intros E.
  destruct args as [|a0 [|a1 rest]]; cbn in E; try discriminate.
  change (firstn 0 rest) with (@nil string) in E. cbn in E.
  destruct (interpret_colour a0) as [c|e] eqn:Hc; cbn in E; try discriminate.
  destruct (interpret_vertex a1 (board_size (self w))) as [[[row col]|]|e] eqn:Hv;
    cbn in E; try discriminate.
  - destruct (Board_play (board (self w)) row col c) as [[b1 ko]|e];
      cbn in E; [|destruct e; cbn in E; discriminate].
    inversion E; subst; cbn. exists a0, a1, rest, c, (Some (row, col)). auto.
  - inversion E; subst; cbn. exists a0, a1, rest, c, None. auto.
Qed.

Lemma get_last_move_and_cookie_two (ms : list History_move) (m1 m2 : History_move)
    (player : colour) :
  hm_colour m1 = player -> hm_colour m2 = opponent_of player ->
  get_last_move_and_cookie (ms ++ [m1; m2]) player
  = (true, hm_coords m2, hm_cookie m1).
Proof.
  intros H1 H2. unfold get_last_move_and_cookie, get_last_move.
  replace (ms ++ [m1; m2]) with ((ms ++ [m1]) ++ [m2]) by (now rewrite <- app_assoc).
  rewrite last_snoc. rewrite bool_decide_eq_true_2 by exact H2. cbn [negb andb].
  rewrite !length_app. cbn [length].
  replace (1 <? Z.of_nat (length ms + 1 + 1)) with true by (symmetry; apply Z.ltb_lt; lia).
  replace (length ms + 1 + 1 - 2)%nat with (length ms + 0)%nat by lia.
  rewrite <- app_assoc. rewrite nth_error_app2 by lia.
  replace (length ms + 0 - length ms)%nat with 0%nat by lia. cbn.
  now rewrite bool_decide_eq_true_2 by exact H1.
Qed.

(** X14: the cookie that the move generator returns with a move comes back
    to it: after a [genmove] for a colour that the generator answered with a
    move or a pass, and a [play] of the opponent that succeeded, the move
    history that the next [genmove] for that colour shows the generator is
    one from which [get_last_move_and_cookie] recovers the opponent's move
    and the cookie. *)
Theorem cookie_comes_back_to_the_generator (a b v : string) (rest rest' : list string)
    (c : colour) (generated : Move_generator_result (Cookie := Cookie)) (g' : GenSt)
    (w w1 w2 : World) (r1 r2 : option string) :
  interpret_colour a = Normal c ->
  interpret_colour b = Normal (opponent_of c) ->
  move_generator (generator w) (genmove_game_state (self w) c false) c = (generated, g') ->
  resign generated = false ->
  handle_genmove move_generator (a :: rest) w = (Normal r1, w1) ->
  handle_play (b :: v :: rest') w1 = (Normal r2, w2) ->
  exists p,
    interpret_vertex v (board_size (self w)) = Normal p
    /\ get_last_move_and_cookie
         (gs_move_history (genmove_game_state (self w2) c false)) c
       = (true, p, cookie generated).
Proof.
  intros Hc Hb Hg Hres E1 E2.
  destruct (handle_genmove_records a rest c generated g' w w1 r1 Hc Hg Hres E1)
    as (Hm1 & Hs1 & _).
  destruct (handle_play_records _ _ _ _ E2)
    as (a0 & a1 & rest0 & c' & p & Hargs & Hc' & Hv & Hm2 & _).
  inversion Hargs; subst a0 a1 rest0. rewrite Hb in Hc'. inversion Hc'; subst c'.
  exists p. split; [now rewrite <- Hs1|].
  cbn [genmove_game_state gs_move_history]. rewrite Hm2, Hm1, <- app_assoc.
  cbn [app]. now rewrite get_last_move_and_cookie_two.
Qed.

(** *** The time left reaches the generator *)

(** X15: after a [time_left] command for a colour, the next [genmove] for
    that colour shows the generator the time and the stones of the command
    (no stone count when it was 0) and the time settings in force. *)
Theorem time_left_reaches_the_generator (cs ts ss a : string) (rest rest' : list string)
    (c : colour) (t st : Z) (w : World) :
  interpret_colour cs = Normal c ->
  interpret_int ts = Normal t ->
  interpret_int ss = Normal st ->
  interpret_colour a = Normal c ->
  exists w1 G answer,
    handle_time_left (cs :: ts :: ss :: rest) w = (Normal None, w1)
    /\ generator_calls (snd (handle_genmove move_generator (a :: rest') w1))
       = generator_calls w ++ [mk_call G c answer]
    /\ gs_time_remaining G = Some t
    /\ gs_canadian_stones_remaining G = (if st =? 0 then None else Some st)
    /\ gs_time_settings G = time_settings (self w).
Proof.
  intros Hc Ht Hs Ha.
  unfold handle_time_left, try_except, bind, arg_at, lift, ret, get_self, assign.
  cbn. rewrite Hc. cbn. rewrite Ht. cbn. rewrite Hs. cbn.
  eexists. 
  unfold handle_genmove, _handle_genmove, try_except, bind, arg_at, lift, ret, get_self,
    call_move_generator, append_move, assign, play_on_board, raise.
  cbn. rewrite Ha. cbn.
  destruct (move_generator _ _ c) as [generated g'] eqn:Eg.
  exists (genmove_game_state
            (set_time_status
               (time_status_put c (Some t, if st =? 0 then None else Some st)
                  (time_status (self w))) (self w)) c false), generated.
  split; [reflexivity|]. split.
  - destruct generated as [rs ps mv cl cm ck]; cbn.
    destruct rs, ps; cbn; try reflexivity;
      destruct mv as [[row col]|]; cbn; try reflexivity;
      destruct (Board_play (board (self w)) row col c) as [[b' ko]|e1]; cbn;
      try reflexivity; destruct e1; reflexivity.
  - cbn. destruct c; cbn; auto.
Qed.

(** *** Undo after play *)

(** X16: when the board is the replay of the history, an [undo] after a
    [play] command that succeeded succeeds too and brings back the board,
    the move history and the history base of before the [play]. *)
Theorem undo_reverts_play (args args' : list string) (w w1 : World) (r : option string) :
  replayed (self w) ->
  handle_play args w = (Normal r, w1) ->
  exists w2,
    handle_undo args' w1 = (Normal None, w2)
    /\ board (self w2) = board (self w)
    /\ move_history (self w2) = move_history (self w)
    /\ history_base (self w2) = history_base (self w).
Proof.
  intros Hr E.
  destruct (handle_play_replayed _ _ _ _ E Hr) as [Hr1 Hh1].
  destruct (handle_play_records _ _ _ _ E)
    as (a0 & a1 & rest & c & p & _ & _ & _ & Hm1 & _).
  assert (Hne : move_history (self w1) <> []).
  { rewrite Hm1. intros H0. apply app_eq_nil in H0 as [_ H0]. discriminate. }
  destruct (handle_undo_replayed args' w1 Hr1 Hne) as (w2 & E2 & Hr2 & Hh2 & Hm2).
  exists w2. split; [exact E2|].
  assert (Hm : move_history (self w2) = move_history (self w)).
  { rewrite Hm2, Hm1. apply removelast_last. }
  split; [|split; [exact Hm | now rewrite Hh2, Hh1]].
  unfold replayed in Hr, Hr2. rewrite Hm, Hh2, Hh1, Hr in Hr2. now inversion Hr2.
Qed.

(** *** Every successful command keeps the board the replay of the history *)

Lemma bind_Normal_inv {A B : Type} (m : M A) (k : A -> M B) (w w' : World) (y : B) :
  bind m k w = (Normal y, w') ->
  exists x w1, m w = (Normal x, w1) /\ k x w1 = (Normal y, w').
Proof.
  unfold bind. destruct (m w) as [[x|e] w1]; [eauto | discriminate].
Qed.

Lemma reset_to_moves_normal (moves : list History_move) (w w' : World) :
  reset_to_moves moves w = (Normal tt, w') ->
  replay_board (history_base (self w)) moves = Normal (board (self w'))
  /\ history_base (self w') = history_base (self w)
  /\ move_history (self w') = moves.
Proof.
  intros E.
  destruct (replay_board (history_base (self w)) moves) as [b'|e] eqn:Hr.
  - destruct (reset_to_moves_replays moves w b' Hr) as (w3 & E3 & Hb & Hh & Hm).
    rewrite E in E3. inversion E3; subst w3. rewrite Hb. auto.
  - exfalso. unfold reset_to_moves, bind at 1, get_self in E.
    unfold bind at 1, assign at 1 in E. cbn in E.
    destruct (reset_to_moves_loop_fails moves (None, None)
                (mk_World (set_board (Board_copy (history_base (self w))) (self w))
                   (generator w) (generator_calls w)) e Hr) as (w3 & E3).
    unfold bind at 1 in E. rewrite E3 in E. discriminate.
Qed.

Lemma genmove_replayed (args : list string) (for_regression allow_claim : bool)
    (w w' : World) (r : option string) :
  _handle_genmove move_generator args for_regression allow_claim w = (Normal r, w') ->
  replayed (self w) -> replayed (self w').
Proof.
  intros E Hr.
  unfold _handle_genmove, try_except, bind, arg_at, lift, ret, get_self,
    call_move_generator, append_move, assign, play_on_board, raise,
    report_bad_arguments in E.
  destruct args as [|a rest]; cbn in E; [discriminate|].
  destruct (interpret_colour a) as [c|e0]; cbn in E; [|destruct e0; discriminate].
  destruct (move_generator (generator w) (genmove_game_state (self w) c for_regression) c)
    as [generated g'].
  destruct generated as [rs ps mv cl cm ck]; cbn in E.
  destruct allow_claim, cl, rs, ps, for_regression; cbn in E; try discriminate;
    try (inversion E; subst; exact Hr);
    try (inversion E; subst; unfold replayed; cbn;
         rewrite (replay_board_snoc _ _ _ _ Hr); reflexivity);
    destruct mv as [[row col]|]; cbn in E; try discriminate;
    try (inversion E; subst; exact Hr);
    destruct (Board_play (board (self w)) row col c) as [[b' ko]|e1] eqn:Hp; cbn in E;
    try (destruct e1; discriminate);
    inversion E; subst; unfold replayed; cbn;
    rewrite (replay_board_snoc _ _ _ _ Hr); cbn; rewrite Hp; reflexivity.
Qed.

Lemma undo_replayed (args : list string) (w w' : World) (r : option string) :
  handle_undo args w = (Normal r, w') -> replayed (self w').
Proof.
  intros E. unfold handle_undo, bind at 1, get_self in E.
  destruct (move_history (self w)) as [|m ms] eqn:Emh; [discriminate|].
  apply bind_Normal_inv in E as (u & w1 & Et & E').
  unfold try_except in Et.
  destruct (reset_to_moves (removelast (m :: ms)) w) as [[[]|e] w2] eqn:Er;
    [|destruct e; discriminate].
  inversion Et; subst. inversion E'; subst.
  destruct (reset_to_moves_normal _ _ _ Er) as (Hb & Hh & Hm).
  unfold replayed. now rewrite Hh, Hm.
Qed.

Abbreviation position_of w :=
  (fun w1 : World =>
     board (self w1) = board (self w)
     /\ history_base (self w1) = history_base (self w)
     /\ move_history (self w1) = move_history (self w)).

Lemma settings_commands_keep_position (cmd : command) (args : list string) (w : World) :
  cmd = komi_cmd \/ cmd = time_left \/ cmd = time_settings_cmd \/ cmd = explain_last_move ->
  keeps (position_of w) (handler move_generator cmd args).
Proof.
  intros [->|[->|[->| ->]]]; cbn [handler];
    unfold handle_komi, handle_explain_last_move, handle_time_left, handle_time_settings,
      set_komi;
    keeps_run ltac:(intros; assumption) fail.
Qed.

Lemma loadsgf_replayed (args : list string) (w w' : World) (r : option string) :
  handle_loadsgf args w = (Normal r, w') -> replayed (self w').
Proof.
  intros E. unfold handle_loadsgf in E.
  apply bind_Normal_inv in E as (pathname & w1 & _ & E).
  apply bind_Normal_inv in E as (move_number & w2 & _ & E).
  apply bind_Normal_inv in E as (s_text & w3 & _ & E).
  apply bind_Normal_inv in E as (sgf & w4 & _ & E).
  cbv zeta in E.
  apply bind_Normal_inv in E as (s & w5 & _ & E).
  destruct (negb _); [discriminate|].
  apply bind_Normal_inv in E as (u & w6 & _ & E).
  apply bind_Normal_inv in E as (k & w7 & _ & E).
  apply bind_Normal_inv in E as ([sgf_board raw_sgf_moves] & w8 & _ & E).
  apply bind_Normal_inv in E as (s1 & w9 & _ & E).
  apply bind_Normal_inv in E as (u1 & w10 & Et & E).
  assert (Hr10 : replayed (self w10)).
  { unfold try_except in Et.
    match type of Et with
    | context [bind (set_history_base ?b) (fun _ => reset_to_moves ?ms) w9] =>
        destruct (install_and_replay b ms w9) as (wx & _ & Hh & _ & _ & Hx);
        destruct (replay_board b ms) as [b'|e] eqn:Hrep
    end.
    - destruct Hx as (Ex & Hb & Hm). rewrite Ex in Et. inversion Et; subst w10.
      unfold replayed. now rewrite Hh, Hm, Hb.
    - destruct Hx as (Ex & _). rewrite Ex in Et.
      destruct e; cbn in Et; try discriminate.
      apply bind_Normal_inv in Et as (? & ? & _ & Et). discriminate. }
  apply bind_Normal_inv in E as (u2 & w11 & Ek & E).
  apply bind_Normal_inv in E as (u3 & w12 & Eh & E).
  inversion E; subst. inversion Eh; subst.
  assert (Hpos : position_of w10 w11).
  { assert (Hk : keeps (position_of w10) (set_komi k : M unit))
      by (unfold set_komi; keeps_run ltac:(intros; assumption) fail).
    exact (Hk w10 _ w11 (conj eq_refl (conj eq_refl eq_refl)) Ek). }
  destruct Hpos as (Hb & Hh & Hm). unfold replayed. cbn. now rewrite Hb, Hh, Hm.
Qed.

Lemma handler_replayed (cmd : command) (args : list string) (w w' : World)
    (r : option string) :
  replayed (self w) ->
  handler move_generator cmd args w = (Normal r, w') ->
  replayed (self w').
Proof.
  intros Hr E.
  destruct cmd;
    try (apply base_state_replayed;
         refine (fresh_or_handicap_is_base_state move_generator _ args w w' r _ E);
         tauto);
    try (match type of E with
         | handler _ ?c _ _ = _ =>
             assert (Hc : c = komi_cmd \/ c = time_left \/ c = time_settings_cmd
                          \/ c = explain_last_move) by tauto;
             destruct (settings_commands_keep_position c args w Hc w _ w'
                         (conj eq_refl (conj eq_refl eq_refl)) E) as (Hb & Hh & Hm)
         end;
         unfold replayed; now rewrite Hb, Hh, Hm);
    cbn [handler] in E.
  - exact (proj1 (handle_play_replayed _ _ _ _ E Hr)).
  - exact (genmove_replayed args false false _ _ _ E Hr).
  - exact (genmove_replayed args false true _ _ _ E Hr).
  - exact (genmove_replayed args true false _ _ _ E Hr).
  - exact (undo_replayed _ _ _ _ E).
  - exact (loadsgf_replayed _ _ _ _ E).
Qed.

(** X17: as long as every command succeeds, the board stays the replay of
    the recorded moves from the history base: in a session that starts
    from a state where it is, and in which no command fails, it is at the
    end, whatever the commands. *)
Theorem successful_commands_keep_board_replay (cmds : list (command * list string))
    (w w' : World) (rs : list (result (option string))) :
  replayed (self w) ->
  run_commands move_generator cmds w = (rs, w') ->
  Forall succeeded rs ->
  replayed (self w').
Proof.
  revert w rs. induction cmds as [|[c args] cmds IH]; intros w rs Hr E Hok.
  - cbn in E. inversion E; subst. exact Hr.
  - cbn [run_commands] in E.
    destruct (handler move_generator c args w) as [r w1] eqn:E1.
    destruct (run_commands move_generator cmds w1) as [rs' w2] eqn:E2.
    inversion E; subst. inversion Hok as [|? ? [x Hx] Hok']; subst.
    exact (IH w1 rs' (handler_replayed c args w w1 x Hr E1) E2 Hok').
Qed.


End SessionFacts.


(** *** The properties of sessions, on sessions of the sample engine *)

Lemma only_generating_commands_call_the_generator_witness :
  play <> genmove /\ play <> genmove_claim /\ play <> reg_genmove
  /\ play <> place_free_handicap
  /\ generator (snd (handler Sample.scripted play ["b"; "A2"]%string Session.after_ko))
     = generator Session.after_ko
  /\ generator_calls (snd (handler Sample.scripted play ["b"; "A2"]%string Session.after_ko))
     = generator_calls Session.after_ko.
Proof.
  split; [discriminate|]. split; [discriminate|]. split; [discriminate|].
  split; [discriminate|].
  apply (only_generating_commands_call_the_generator Sample.scripted play
           ["b"; "A2"]%string Session.after_ko); discriminate.
Defined.

Lemma session_keeps_settings_in_range_witness :
  Gtp_state_init (Some [9; 19]) ([] : list Sample.answer) = (Normal tt, Session.two_sizes)
  /\ acceptable_sizes
       (self (snd (run_commands Sample.scripted
                     [(boardsize, ["19"]); (komi_cmd, ["1000"]); (boardsize, ["13"])]%string
                     Session.two_sizes)))
     = acceptable_sizes (self Session.two_sizes)
  /\ board_size
       (self (snd (run_commands Sample.scripted
                     [(boardsize, ["19"]); (komi_cmd, ["1000"]); (boardsize, ["13"])]%string
                     Session.two_sizes)))
     ∈ acceptable_sizes (self Session.two_sizes)
  /\ -625 <= komi
       (self (snd (run_commands Sample.scripted
                     [(boardsize, ["19"]); (komi_cmd, ["1000"]); (boardsize, ["13"])]%string
                     Session.two_sizes))) <= 625.
Proof.
  assert (E : Gtp_state_init (Some [9; 19]) ([] : list Sample.answer)
              = (Normal tt, Session.two_sizes)) by (vm_compute; reflexivity).
  split; [exact E|].
  exact (session_keeps_settings_in_range Sample.scripted (Some [9; 19]) []
           Session.two_sizes
           [(boardsize, ["19"]); (komi_cmd, ["1000"]); (boardsize, ["13"])]%string E).
Defined.

Lemma cookie_comes_back_to_the_generator_witness :
  interpret_colour "b" = Normal black
  /\ interpret_colour "w" = Normal (opponent_of black)
  /\ Sample.scripted
       (generator (Session.start (Some [9])
          [mk_Move_generator_result false false (Some (3, 3)) false None (Some "seed"%string)]))
       (genmove_game_state
          (self (Session.start (Some [9])
             [mk_Move_generator_result false false (Some (3, 3)) false None
                (Some "seed"%string)])) black false) black
     = (mk_Move_generator_result false false (Some (3, 3)) false None (Some "seed"%string), [])
  /\ handle_genmove Sample.scripted ["b"%string]
       (Session.start (Some [9])
          [mk_Move_generator_result false false (Some (3, 3)) false None (Some "seed"%string)])
     = (Normal (Some "D4"%string),
        snd (handle_genmove Sample.scripted ["b"%string]
               (Session.start (Some [9])
                  [mk_Move_generator_result false false (Some (3, 3)) false None
                     (Some "seed"%string)])))
  /\ handle_play ["w"; "A1"]%string
       (snd (handle_genmove Sample.scripted ["b"%string]
               (Session.start (Some [9])
                  [mk_Move_generator_result false false (Some (3, 3)) false None
                     (Some "seed"%string)])))
     = (Normal None,
        snd (handle_play ["w"; "A1"]%string
               (snd (handle_genmove Sample.scripted ["b"%string]
                       (Session.start (Some [9])
                          [mk_Move_generator_result false false (Some (3, 3)) false None
                             (Some "seed"%string)])))))
  /\ exists p,
       interpret_vertex "A1"
         (board_size (self (Session.start (Some [9])
            [mk_Move_generator_result false false (Some (3, 3)) false None
               (Some "seed"%string)])))
       = Normal p
       /\ get_last_move_and_cookie
            (gs_move_history
               (genmove_game_state
                  (self (snd (handle_play ["w"; "A1"]%string
                     (snd (handle_genmove Sample.scripted ["b"%string]
                        (Session.start (Some [9])
                           [mk_Move_generator_result false false (Some (3, 3)) false None
                              (Some "seed"%string)]))))))
                  black false))
            black
          = (true, p, Some "seed"%string).
Proof.
  assert (E1 : handle_genmove Sample.scripted ["b"%string]
       (Session.start (Some [9])
          [mk_Move_generator_result false false (Some (3, 3)) false None (Some "seed"%string)])
     = (Normal (Some "D4"%string),
        snd (handle_genmove Sample.scripted ["b"%string]
               (Session.start (Some [9])
                  [mk_Move_generator_result false false (Some (3, 3)) false None
                     (Some "seed"%string)])))) by (vm_compute; reflexivity).
  assert (E2 : handle_play ["w"; "A1"]%string
       (snd (handle_genmove Sample.scripted ["b"%string]
               (Session.start (Some [9])
                  [mk_Move_generator_result false false (Some (3, 3)) false None
                     (Some "seed"%string)])))
     = (Normal None,
        snd (handle_play ["w"; "A1"]%string
               (snd (handle_genmove Sample.scripted ["b"%string]
                       (Session.start (Some [9])
                          [mk_Move_generator_result false false (Some (3, 3)) false None
                             (Some "seed"%string)])))))) by (vm_compute; reflexivity).
  assert (Hg : Sample.scripted
       (generator (Session.start (Some [9])
          [mk_Move_generator_result false false (Some (3, 3)) false None (Some "seed"%string)]))
       (genmove_game_state
          (self (Session.start (Some [9])
             [mk_Move_generator_result false false (Some (3, 3)) false None
                (Some "seed"%string)])) black false) black
     = (mk_Move_generator_result false false (Some (3, 3)) false None (Some "seed"%string), []))
    by reflexivity.
  split; [reflexivity|]. split; [reflexivity|]. split; [exact Hg|].
  split; [exact E1|]. split; [exact E2|].
  exact (cookie_comes_back_to_the_generator Sample.scripted "b" "w" "A1" [] [] black
           (mk_Move_generator_result false false (Some (3, 3)) false None (Some "seed"%string))
           []
           (Session.start (Some [9])
              [mk_Move_generator_result false false (Some (3, 3)) false None
                 (Some "seed"%string)])
           _ _ _ _ eq_refl eq_refl Hg eq_refl E1 E2).
Defined.

Lemma time_left_reaches_the_generator_witness :
  interpret_colour "b" = Normal black
  /\ interpret_int "30" = Normal 30
  /\ interpret_int "0" = Normal 0
  /\ exists w1 G answer,
       handle_time_left ["b"; "30"; "0"]%string Session.after_ko = (Normal None, w1)
       /\ generator_calls (snd (handle_genmove Sample.scripted ["b"%string] w1))
          = generator_calls Session.after_ko ++ [mk_call G black answer]
       /\ gs_time_remaining G = Some 30
       /\ gs_canadian_stones_remaining G = (if 0 =? 0 then None else Some 0)
       /\ gs_time_settings G = time_settings (self Session.after_ko).
Proof.
  split; [reflexivity|]. split; [reflexivity|]. split; [reflexivity|].
  exact (time_left_reaches_the_generator Sample.scripted "b" "30" "0" "b" [] [] black 30 0
           Session.after_ko eq_refl eq_refl eq_refl eq_refl).
Defined.

Lemma undo_reverts_play_witness :
  replayed (self (Session.start (Some [9]) []))
  /\ handle_play ["b"; "A2"]%string (Session.start (Some [9]) [])
     = (Normal None, snd (handle_play ["b"; "A2"]%string (Session.start (Some [9]) [])))
  /\ exists w2,
       handle_undo [] (snd (handle_play ["b"; "A2"]%string (Session.start (Some [9]) [])))
       = (Normal None, w2)
       /\ board (self w2) = board (self (Session.start (Some [9]) []))
       /\ move_history (self w2) = move_history (self (Session.start (Some [9]) []))
       /\ history_base (self w2) = history_base (self (Session.start (Some [9]) [])).
Proof.
  assert (Hr : replayed (self (Session.start (Some [9]) []))) by reflexivity.
  assert (E : handle_play ["b"; "A2"]%string (Session.start (Some [9]) [])
              = (Normal None,
                 snd (handle_play ["b"; "A2"]%string (Session.start (Some [9]) []))))
    by (vm_compute; reflexivity).
  split; [exact Hr|]. split; [exact E|].
  exact (undo_reverts_play ["b"; "A2"]%string [] (Session.start (Some [9]) []) _ None Hr E).
Defined.

Lemma successful_commands_keep_board_replay_witness :
  replayed (self (Session.start (Some [9]) []))
  /\ run_commands Sample.scripted Session.ko_fight (Session.start (Some [9]) [])
     = (fst (Session.run Session.ko_fight (Session.start (Some [9]) [])), Session.after_ko)
  /\ Forall succeeded (fst (Session.run Session.ko_fight (Session.start (Some [9]) [])))
  /\ replayed (self Session.after_ko).
Proof.
  assert (Hr : replayed (self (Session.start (Some [9]) []))) by reflexivity.
  assert (E : run_commands Sample.scripted Session.ko_fight (Session.start (Some [9]) [])
              = (fst (Session.run Session.ko_fight (Session.start (Some [9]) [])),
                 Session.after_ko))
    by (unfold Session.after_ko, Session.run; apply surjective_pairing).
  assert (Hok : Forall succeeded
                  (fst (Session.run Session.ko_fight (Session.start (Some [9]) [])))).
  { vm_compute. repeat constructor; eexists; reflexivity. }
  split; [exact Hr|]. split; [exact E|]. split; [exact Hok|].
  exact (successful_commands_keep_board_replay Sample.scripted Session.ko_fight
           (Session.start (Some [9]) []) Session.after_ko _ Hr E Hok).
Defined.

(** ** The error pipe and the byte reader *)

Module DiagnosticsFacts.
Import Channel ChannelFacts Diagnostics.

Lemma _handle_event_error_data r s ch res ch' :
  _handle_event r s ch = (res, ch') ->
  error_data ch' = error_data ch ++ error_chunks [Readable r s].
Proof.
  unfold _handle_event, _handle_error_data, _handle_response_data. cbn [error_chunks].
  rewrite !app_nil_r.
  destruct (decide (error_pipe ∈ r)).
  - destruct (str_true s).
    + intros E; inversion E; reflexivity.
    + destruct (list_remove error_pipe (pipes_to_poll ch)); intros E; inversion E;
        cbn; now rewrite app_nil_r.
  - destruct (decide (response_pipe ∈ r)).
    + destruct (str_true s).
      * intros E; inversion E; cbn; now rewrite app_nil_r.
      * destruct (list_remove response_pipe (pipes_to_poll ch)); intros E; inversion E;
          cbn; now rewrite app_nil_r.
    + intros E; inversion E; now rewrite app_nil_r.
Qed.

Lemma error_chunks_cons ev used :
  error_chunks (ev :: used) = error_chunks [ev] ++ error_chunks used.
Proof. destruct ev; cbn [error_chunks]; now rewrite ?app_nil_r. Qed.

Lemma get_response_line_error_data events ch rep ch' events' :
  get_response_line events ch = (rep, ch', events') ->
  exists used,
    events = used ++ events'
    /\ error_data ch' = error_data ch ++ error_chunks used.
Proof.
  revert ch. induction events as [|ev events IH]; intros ch E.
  - cbn in E. destruct (negb _); [|destruct (seen_eof ch)]; inversion E; subst;
      exists []; cbn; rewrite app_nil_r; auto.
  - cbn [get_response_line] in E. cbv zeta in E.
    destruct (negb _).
    { inversion E; subst. exists []. cbn. now rewrite app_nil_r. }
    destruct (seen_eof ch).
    { inversion E; subst. exists []. cbn. now rewrite app_nil_r. }
    destruct ev as [r s|msg].
    + destruct (_handle_event r s ch) as [[[]|e] ch1] eqn:Ev.
      * destruct (IH _ E) as (used & -> & Hd). exists (Readable r s :: used).
        split; [reflexivity|].
        rewrite (error_chunks_cons (Readable r s) used), Hd,
          (_handle_event_error_data _ _ _ _ _ Ev).
        now rewrite <- app_assoc.
      * inversion E; subst. exists [Readable r s]. split; [reflexivity|].
        exact (_handle_event_error_data _ _ _ _ _ Ev).
    + inversion E; subst. exists [EnvironmentError msg]. split; [reflexivity|].
      cbn. now rewrite app_nil_r.
Qed.

(** X18: whatever a call of [get_response_line] ends with (a line, an
    error, or waiting for ever), [retrieve_diagnostics] after it returns what
    was pending before the call followed by everything read from the error
    pipe during the call, in the order read, and empties the store: a second
    [retrieve_diagnostics] returns the empty string.  The response buffer is
    not touched. *)
Theorem diagnostics_are_kept_in_order events ch rep ch' events' :
  get_response_line events ch = (rep, ch', events') ->
  exists used,
    events = used ++ events'
    /\ fst (retrieve_diagnostics ch')
       = String.concat EmptyString (error_data ch ++ error_chunks used)
    /\ fst (retrieve_diagnostics (snd (retrieve_diagnostics ch'))) = EmptyString
    /\ response_data (snd (retrieve_diagnostics ch')) = response_data ch'.
Proof.
  intros E. destruct (get_response_line_error_data _ _ _ _ _ E) as (used & Hev & Hd).
  exists used. split; [exact Hev|]. unfold retrieve_diagnostics. cbn.
  rewrite Hd. auto.
Qed.

(** X19: a call of [get_response_byte] that returns hands out the first
    byte of the bytes received and not yet returned, and keeps the others in
    the buffer; it returns the empty string only when end of file was seen
    and nothing is left. *)
Theorem get_response_byte_returns_first_byte events ch b ch' events' :
  get_response_byte events ch = (Returned b, ch', events') ->
  exists used,
    events = used ++ events'
    /\ (response_data ch ++ response_bytes used)%string = (b ++ response_data ch')%string
    /\ ((exists c, b = String c EmptyString)
        \/ (b = EmptyString /\ seen_eof ch' = true /\ response_data ch' = EmptyString)).
Proof.
  revert ch. induction events as [|ev events IH]; intros ch E.
  - destruct (response_data ch) as [|c rest] eqn:Hd.
    + cbn in E. rewrite Hd in E. cbn in E. destruct (seen_eof ch) eqn:He; [|discriminate].
      inversion E; subst. exists []. split; [reflexivity|]. rewrite Hd. cbn.
      split; [reflexivity|]. right. auto.
    + rewrite (get_response_byte_consumes [] ch c rest Hd) in E. inversion E; subst.
      exists []. split; [reflexivity|]. cbn. rewrite str_app_nil_r.
      split; [reflexivity|]. left. eauto.
  - destruct (response_data ch) as [|c rest] eqn:Hd.
    + cbn [get_response_byte] in E. rewrite Hd in E. cbn [str_true] in E.
      destruct (seen_eof ch) eqn:He.
      * inversion E; subst. exists []. split; [reflexivity|]. rewrite Hd. cbn.
        split; [reflexivity|]. right. auto.
      * destruct ev as [r s|msg]; [|discriminate].
        destruct (_handle_event r s ch) as [[[]|e] ch1] eqn:Ev; [|discriminate].
        destruct (IH _ E) as (used & Hev & Hb & Hcase).
        exists (Readable r s :: used). split; [cbn; now rewrite Hev|].
        split; [|exact Hcase].
        rewrite response_bytes_cons, <- str_app_assoc, <- Hd,
          <- (_handle_event_response_data _ _ _ _ Ev).
        exact Hb.
    + rewrite (get_response_byte_consumes _ ch c rest Hd) in E. inversion E; subst.
      exists []. split; [reflexivity|]. cbn. rewrite str_app_nil_r.
      split; [reflexivity|]. left. eauto.
Qed.

Lemma diagnostics_are_kept_in_order_witness :
  get_response_line
    [Readable [error_pipe] "warning: "; Readable [response_pipe; error_pipe] "slow";
     Readable [response_pipe] ("= ok" ++ nl)]%string opened
  = (Returned ("= ok" ++ nl)%string,
     snd (fst (get_response_line
                 [Readable [error_pipe] "warning: ";
                  Readable [response_pipe; error_pipe] "slow";
                  Readable [response_pipe] ("= ok" ++ nl)]%string opened)),
     [])
  /\ exists used,
       [Readable [error_pipe] "warning: "; Readable [response_pipe; error_pipe] "slow";
        Readable [response_pipe] ("= ok" ++ nl)]%string
       = used ++ []
       /\ fst (retrieve_diagnostics
                 (snd (fst (get_response_line
                              [Readable [error_pipe] "warning: ";
                               Readable [response_pipe; error_pipe] "slow";
                               Readable [response_pipe] ("= ok" ++ nl)]%string opened))))
          = String.concat EmptyString (error_data opened ++ error_chunks used)
       /\ fst (retrieve_diagnostics
                 (snd (retrieve_diagnostics
                         (snd (fst (get_response_line
                                      [Readable [error_pipe] "warning: ";
                                       Readable [response_pipe; error_pipe] "slow";
                                       Readable [response_pipe] ("= ok" ++ nl)]%string
                                      opened))))))
          = EmptyString
       /\ response_data
            (snd (retrieve_diagnostics
                    (snd (fst (get_response_line
                                 [Readable [error_pipe] "warning: ";
                                  Readable [response_pipe; error_pipe] "slow";
                                  Readable [response_pipe] ("= ok" ++ nl)]%string opened)))))
          = response_data
              (snd (fst (get_response_line
                           [Readable [error_pipe] "warning: ";
                            Readable [response_pipe; error_pipe] "slow";
                            Readable [response_pipe] ("= ok" ++ nl)]%string opened))).
Proof.
  assert (E : get_response_line
    [Readable [error_pipe] "warning: "; Readable [response_pipe; error_pipe] "slow";
     Readable [response_pipe] ("= ok" ++ nl)]%string opened
  = (Returned ("= ok" ++ nl)%string,
     snd (fst (get_response_line
                 [Readable [error_pipe] "warning: ";
                  Readable [response_pipe; error_pipe] "slow";
                  Readable [response_pipe] ("= ok" ++ nl)]%string opened)),
     [])) by (vm_compute; reflexivity).
  split; [exact E|].
  exact (diagnostics_are_kept_in_order _ opened _ _ [] E).
Defined.

Lemma get_response_byte_returns_first_byte_witness :
  get_response_byte [Readable [error_pipe] "note"; Readable [response_pipe] "= 1"]%string
    opened
  = (Returned "="%string,
     snd (fst (get_response_byte
                 [Readable [error_pipe] "note"; Readable [response_pipe] "= 1"]%string opened)),
     [])
  /\ exists used,
       [Readable [error_pipe] "note"; Readable [response_pipe] "= 1"]%string = used ++ []
       /\ (response_data opened ++ response_bytes used)%string
          = ("=" ++ response_data
                      (snd (fst (get_response_byte
                                   [Readable [error_pipe] "note";
                                    Readable [response_pipe] "= 1"]%string opened))))%string
       /\ ((exists c, "="%string = String c EmptyString)
           \/ ("="%string = EmptyString
               /\ seen_eof (snd (fst (get_response_byte
                                        [Readable [error_pipe] "note";
                                         Readable [response_pipe] "= 1"]%string opened)))
                  = true
               /\ response_data
                    (snd (fst (get_response_byte
                                 [Readable [error_pipe] "note";
                                  Readable [response_pipe] "= 1"]%string opened)))
                  = EmptyString)).
Proof.
  assert (E : get_response_byte
                [Readable [error_pipe] "note"; Readable [response_pipe] "= 1"]%string opened
              = (Returned "="%string,
                 snd (fst (get_response_byte
                             [Readable [error_pipe] "note";
                              Readable [response_pipe] "= 1"]%string opened)),
                 [])) by (vm_compute; reflexivity).
  split; [exact E|].
  exact (get_response_byte_returns_first_byte _ opened "=" _ [] E).
Defined.

End DiagnosticsFacts.

(** ** Tournaments: the choice of the next game *)

Module TournamentsFacts.
Import Competitions CompetitionsFacts Tournaments.

#[export] Instance Decimal_int_str_laws : Py_int_str_laws.
Proof.
  split. intros n. cbn. unfold Decimal_ids.int, Decimal_ids.str.
  rewrite NilZero.isi.
  - cbn. now rewrite DecimalZ.of_to.
  - destruct n as [|p|p]; cbn; try discriminate.
    intros E. inversion E as [E']. exact (DecimalPos.Unsigned.to_uint_nonnil p E').
  - destruct n as [|p|p]; cbn; try discriminate.
    intros E. inversion E as [E']. exact (DecimalPos.Unsigned.to_uint_nonnil p E').
Qed.

Section TournamentFacts.

Context {Player : Type} `{PS : Py_int_str}.

Abbreviation Tournament := (Tournament (Player := Player)).

Lemma min_by_key_spec (l : list (nat * Matchup)) :
  match min_by_key l with
  | Some x =>
      x ∈ l
      /\ forall y, y ∈ l ->
           pair_le (games_started (snd x), id (snd x)) (games_started (snd y), id (snd y))
  | None => l = []
  end.
Proof.
  destruct l as [|x0 rest]; cbn; [reflexivity|].
  assert (H : forall (rest : list (nat * Matchup)) (b : nat * Matchup),
             let r := fold_left
                        (fun best y =>
                           if pair_lt (games_started (snd y), id (snd y))
                                      (games_started (snd best), id (snd best))
                           then y else best) rest b in
             r ∈ b :: rest
             /\ pair_le (games_started (snd r), id (snd r))
                        (games_started (snd b), id (snd b))
             /\ forall y, y ∈ rest ->
                  pair_le (games_started (snd r), id (snd r))
                          (games_started (snd y), id (snd y))).
  { clear. induction rest as [|y rest IH]; intros b; cbn.
    - split; [left|]. split; [|intros y Hy; inversion Hy].
      unfold pair_le. cbn. lia.
    - destruct (IH (if pair_lt (games_started (snd y), id (snd y))
                               (games_started (snd b), id (snd b))
                    then y else b)) as (Hin & Hle & Hall).
      set (r := fold_left _ rest _) in *.
      destruct (pair_lt _ _) eqn:El.
      + assert (Hyb : pair_le (games_started (snd y), id (snd y))
                              (games_started (snd b), id (snd b))).
        { unfold pair_lt in El. unfold pair_le. cbn in *.
          apply orb_true_iff in El as [El|El]; [lia|].
          apply andb_true_iff in El as [E1 E2]. lia. }
        split; [right; exact Hin|]. split.
        * unfold pair_le in *. cbn in *. lia.
        * intros q Hq. apply elem_of_cons in Hq as [->|Hq]; [exact Hle | now apply Hall].
      + apply pair_lt_spec in El. split.
        * apply elem_of_cons in Hin as [->|Hin]; [left | right; right; exact Hin].
        * split; [exact Hle|].
          intros q Hq. apply elem_of_cons in Hq as [->|Hq]; [|now apply Hall].
          unfold pair_le in *. cbn in *. lia. }
  destruct (H rest x0) as (Hin & Hle & Hall). split; [exact Hin|].
  intros q Hq. apply elem_of_cons in Hq as [->|Hq]; [exact Hle | now apply Hall].
Qed.

Lemma available_spec (ms : list Matchup) (i : nat) (m : Matchup) :
  (i, m) ∈ List.filter (fun x : nat * Matchup => incomplete (snd x))
             (imap (fun i m => (i, m)) ms)
  <-> ms !! i = Some m /\ incomplete m = true.
Proof.
  rewrite list_elem_of_In, filter_In, <- list_elem_of_In, elem_of_lookup_imap. cbn.
  split.
  - intros [(j & y & E & Hl) Hinc]. inversion E; subst. auto.
  - intros [Hl Hinc]. split; [eauto | exact Hinc].
Qed.

Lemma find_match_spec (t : Tournament) :
  match find_match t with
  | Some (i, m, pb, pw) =>
      matchups t !! i = Some m /\ incomplete m = true
      /\ (forall m', m' ∈ matchups t -> incomplete m' = true ->
            pair_le (games_started m, id m) (games_started m', id m'))
      /\ (pb, pw) = (if alternating m && negb (games_started m mod 2 =? 0)
                     then (p2 m, p1 m) else (p1 m, p2 m))
  | None => forall m, m ∈ matchups t -> incomplete m = false
  end.
Proof.
  unfold find_match.
  pose proof (min_by_key_spec
                (List.filter (fun x : nat * Matchup => incomplete (snd x))
                   (imap (fun i m => (i, m)) (matchups t)))) as Hm.
  destruct (min_by_key _) as [[i m]|].
  - destruct Hm as [Hin Hle]. apply available_spec in Hin as [Hl Hinc].
    assert (Hmin : forall m', m' ∈ matchups t -> incomplete m' = true ->
              pair_le (games_started m, id m) (games_started m', id m')).
    { intros m' Hm' Hinc'. apply list_elem_of_lookup in Hm' as [j Hj].
      exact (Hle (j, m') (proj2 (available_spec _ j m') (conj Hj Hinc'))). }
    destruct (alternating m && negb (games_started m mod 2 =? 0)) eqn:Ea;
      (split; [exact Hl|]; split; [exact Hinc|]; split; [exact Hmin | now rewrite Ea]).
  - intros m Hin. destruct (incomplete m) eqn:Hinc; [|reflexivity].
    apply list_elem_of_lookup in Hin as [j Hj].
    pose proof (proj2 (available_spec _ j m) (conj Hj Hinc)) as Hav.
    rewrite Hm in Hav. inversion Hav.
Qed.

(** X20: [find_match] returns [(None, None, None)] exactly when no
    matchup has games left to start; otherwise it returns a matchup that has
    games left, with the least pair (games started, id) among those that
    have, and gives black to [p1], or to [p2] when the matchup alternates
    and an odd number of its games have been started. *)
Theorem find_match_picks_least_started (t : Tournament) :
  match find_match t with
  | Some (i, m, pb, pw) =>
      matchups t !! i = Some m /\ incomplete m = true
      /\ (forall m', m' ∈ matchups t -> incomplete m' = true ->
            games_started m < games_started m'
            \/ (games_started m = games_started m' /\ id m <= id m'))
      /\ (pb, pw) = (if alternating m && negb (games_started m mod 2 =? 0)
                     then (p2 m, p1 m) else (p1 m, p2 m))
  | None => forall m, m ∈ matchups t -> incomplete m = false
  end.
Proof.
  pose proof (find_match_spec t) as H.
  destruct (find_match t) as [[[[i m] pb] pw]|]; [|exact H].
  destruct H as (Hl & Hinc & Hmin & Hp).
  split; [exact Hl|]. split; [exact Hinc|]. split; [exact Hmin | exact Hp].
Qed.

(** The matchups after one call: unchanged, or one more game started in
    the matchup that [find_match] chose. *)
Lemma t_step_matchups (c : t_call) (t : Tournament) :
  matchups (t_step c t) = matchups t
  \/ exists i m pb pw,
       find_match t = Some (i, m, pb, pw)
       /\ matchups (t_step c t) = <[ i := started_one_more m ]> (matchups t).
Proof.
  destruct c as [|response]; cbn [t_step].
  - unfold get_game. destruct (issue (game_id_allocator t)) as [n allocator].
    change (find_match (mk_Tournament (competition_code t) (preferred_scorers t)
                          (players t) (matchups t) (results t) (engine_names t)
                          (engine_descriptions t) (outstanding_games t) allocator))
      with (find_match t).
    destruct (find_match t) as [[[[i m] pb] pw]|] eqn:Ef; [|now left].
    right. exists i, m, pb, pw. split; [reflexivity|].
    destruct (players t !! pb); [destruct (players t !! pw)|]; reflexivity.
  - left. unfold process_game_result.
    destruct (py_int _); [|reflexivity].
    destruct (fix_id _ _); [reflexivity|].
    destruct (outstanding_games t !! _) as [[[mid pb] pw]|]; [|reflexivity].
    destruct (negb _); [reflexivity|]. destruct (negb _); reflexivity.
Qed.

Lemma t_run_invariant (calls : list t_call) (t : Tournament) :
  ((forall m, m ∈ matchups t ->
      0 <= games_started m
      /\ forall n, number_of_games m = Some n -> games_started m <= Z.max 0 n)
   /\ forall m m', m ∈ matchups t -> m' ∈ matchups t -> incomplete m = true ->
        games_started m' <= games_started m + 1) ->
  (forall m, m ∈ matchups (t_run calls t) ->
      0 <= games_started m
      /\ forall n, number_of_games m = Some n -> games_started m <= Z.max 0 n)
  /\ forall m m', m ∈ matchups (t_run calls t) -> m' ∈ matchups (t_run calls t) ->
       incomplete m = true -> games_started m' <= games_started m + 1.
Proof.
  revert t. induction calls as [|c calls IH]; intros t Hinv; [exact Hinv|].
  cbn [t_run fold_left]. apply IH. clear IH.
  destruct Hinv as [Hlim Hfair].
  destruct (t_step_matchups c t) as [->|(i & m0 & pb & pw & Ef & ->)]; [auto|].
  pose proof (find_match_spec t) as Hs. rewrite Ef in Hs.
  destruct Hs as (Hl & Hinc & Hmin & _).
  assert (Hm0 : m0 ∈ matchups t) by (apply list_elem_of_lookup; eauto).
  assert (Hnew : forall x, x ∈ <[ i := started_one_more m0 ]> (matchups t) ->
            x = started_one_more m0 \/ x ∈ matchups t).
  { intros x Hx. apply list_elem_of_lookup in Hx as [j Hj].
    apply list_lookup_insert_Some in Hj as [(_ & <- & _)|[_ Hj]]; [now left|].
    right. apply list_elem_of_lookup. eauto. }
  split.
  - intros x Hx. destruct (Hnew x Hx) as [->|Hx']; [|now apply Hlim].
    destruct (Hlim m0 Hm0) as [H0 Hn]. cbn. split; [lia|].
    intros n En. unfold incomplete in Hinc. rewrite En in Hinc.
    apply Z.ltb_lt in Hinc. lia.
  - intros x x' Hx Hx' Hincx.
    destruct (Hnew x' Hx') as [->|Hx'o]; destruct (Hnew x Hx) as [->|Hxo]; cbn.
    + lia.
    + specialize (Hmin x Hxo Hincx). unfold pair_le in Hmin. cbn in Hmin. lia.
    + specialize (Hfair m0 x' Hm0 Hx'o Hinc). lia.
    + exact (Hfair x x' Hxo Hx'o Hincx).
Qed.

(** X21: in a tournament whose matchups have no game started, whatever
    calls of [get_game] and [process_game_result] follow, no matchup starts
    more games than its [number_of_games] (none, when that number is
    negative). *)
Theorem games_started_within_number_of_games (calls : list t_call) (t : Tournament)
    (m : Matchup) (n : Z) :
  Forall (fun m => games_started m = 0) (matchups t) ->
  m ∈ matchups (t_run calls t) ->
  number_of_games m = Some n ->
  0 <= games_started m <= Z.max 0 n.
Proof.
  intros H0 Hm Hn. rewrite Forall_forall in H0.
  destruct (t_run_invariant calls t) as [Hlim _].
  - split.
    + intros x Hx. rewrite (H0 x Hx). split; [lia|]. intros; lia.
    + intros x x' Hx Hx' _. rewrite (H0 x Hx), (H0 x' Hx'). lia.
  - destruct (Hlim m Hm) as [Hge Hle]. specialize (Hle n Hn). lia.
Qed.

(** X22: the games are spread evenly: in a tournament whose matchups have
    no game started, whatever calls follow, no matchup is more than one game
    ahead of a matchup that has games left to start. *)
Theorem games_are_spread_evenly (calls : list t_call) (t : Tournament)
    (m m' : Matchup) :
  Forall (fun m => games_started m = 0) (matchups t) ->
  m ∈ matchups (t_run calls t) ->
  m' ∈ matchups (t_run calls t) ->
  incomplete m = true ->
  games_started m' <= games_started m + 1.
Proof.
  intros H0 Hm Hm' Hinc. rewrite Forall_forall in H0.
  destruct (t_run_invariant calls t) as [_ Hfair].
  - split.
    + intros x Hx. rewrite (H0 x Hx). split; [lia|]. intros; lia.
    + intros x x' Hx Hx' _. rewrite (H0 x Hx), (H0 x' Hx'). lia.
  - exact (Hfair m m' Hm Hm' Hinc).
Qed.

Lemma issue_outstanding (a : Id_allocator) :
  fst (issue a) ∈ outstanding (snd (issue a)).
Proof.
  unfold issue. destruct (py_min (to_reissue a)); cbn; set_solver.
Qed.

(** X23: a game handed out by [get_game] can be reported: when the result
    names the players of the game, [process_game_result] does not raise,
    appends the result to [results] under the id of the matchup that
    [find_match] chose, and the game is no longer outstanding, neither in
    [outstanding_games] nor in the id allocator. *)
Theorem finished_game_is_recorded `{!Py_int_str_laws} (t t1 : Tournament)
    (job : Game_job Player) :
  get_game t = (inr (Some job), t1) ->
  exists i m pb pw,
    find_match t = Some (i, m, pb, pw)
    /\ outstanding_games t1 !! job_game_id _ job = Some (id m, pb, pw)
    /\ players t !! pb = Some (job_player_b _ job)
    /\ players t !! pw = Some (job_player_w _ job)
    /\ forall (gr : Game_result) (names descs : gmap string string),
         result_player_b gr = pb -> result_player_w gr = pw ->
         exists t2,
           process_game_result (mk_Game_job_result (job_game_id _ job) gr names descs) t1
           = (inr tt, t2)
           /\ results t2 = results t ++ [(id m, gr)]
           /\ outstanding_games t2 !! job_game_id _ job = None
           /\ matchups t2 = matchups t1
           /\ fst (issue (game_id_allocator t)) ∉ outstanding (game_id_allocator t2).
Proof.
  intros E. unfold get_game in E.
  pose proof (issue_outstanding (game_id_allocator t)) as Hout.
  destruct (issue (game_id_allocator t)) as [n allocator]. cbn [fst snd] in *.
  change (find_match (mk_Tournament (competition_code t) (preferred_scorers t)
                        (players t) (matchups t) (results t) (engine_names t)
                        (engine_descriptions t) (outstanding_games t) allocator))
    with (find_match t) in E.
  destruct (find_match t) as [[[[i m] pb] pw]|]; [|discriminate].
  destruct (players t !! pb) as [xb|] eqn:Eb; [|discriminate].
  destruct (players t !! pw) as [xw|] eqn:Ew; [|discriminate].
  inversion E; subst job t1; clear E. cbn.
  exists i, m, pb, pw. split; [reflexivity|]. split; [apply lookup_insert_eq|].
  split; [exact Eb|]. split; [exact Ew|].
  intros gr names descs Hb Hw. unfold process_game_result. cbn.
  rewrite py_int_str. unfold fix_id. rewrite decide_True by exact Hout.
  rewrite lookup_insert_eq, Hb, Hw, !String.eqb_refl. cbn.
  eexists. split; [reflexivity|]. cbn. split; [reflexivity|].
  split; [apply lookup_delete_eq|]. split; [reflexivity|]. set_solver.
Qed.

End TournamentFacts.

Lemma games_started_within_number_of_games_witness :
  Forall (fun m => games_started m = 0) (matchups two_matchups)
  /\ started_one_more b_v_a
     ∈ matchups (t_run [Get_game; Get_game; Get_game; Get_game] two_matchups)
  /\ number_of_games (started_one_more b_v_a) = Some 1
  /\ 0 <= games_started (started_one_more b_v_a) <= Z.max 0 1.
Proof.
  assert (H0 : Forall (fun m => games_started m = 0) (matchups two_matchups))
    by (repeat constructor).
  assert (Hin : started_one_more b_v_a
                ∈ matchups (t_run [Get_game; Get_game; Get_game; Get_game] two_matchups))
    by (vm_compute; right; left).
  split; [exact H0|]. split; [exact Hin|]. split; [reflexivity|].
  exact (games_started_within_number_of_games
           [Get_game; Get_game; Get_game; Get_game] two_matchups
           (started_one_more b_v_a) 1 H0 Hin eq_refl).
Defined.

Lemma games_are_spread_evenly_witness :
  Forall (fun m => games_started m = 0) (matchups two_matchups)
  /\ started_one_more a_v_b ∈ matchups (t_run [Get_game] two_matchups)
  /\ b_v_a ∈ matchups (t_run [Get_game] two_matchups)
  /\ incomplete (started_one_more a_v_b) = true
  /\ games_started b_v_a <= games_started (started_one_more a_v_b) + 1.
Proof.
  assert (H0 : Forall (fun m => games_started m = 0) (matchups two_matchups))
    by (repeat constructor).
  assert (H1 : started_one_more a_v_b ∈ matchups (t_run [Get_game] two_matchups))
    by (vm_compute; left).
  assert (H2 : b_v_a ∈ matchups (t_run [Get_game] two_matchups))
    by (vm_compute; right; left).
  split; [exact H0|]. split; [exact H1|]. split; [exact H2|]. split; [reflexivity|].
  exact (games_are_spread_evenly [Get_game] two_matchups
           (started_one_more a_v_b) b_v_a H0 H1 H2 eq_refl).
Defined.

Lemma finished_game_is_recorded_witness :
  get_game two_matchups
  = (inr (Some (mk_Game_job string "0"%string "gnugo --mode gtp"%string "fuego"%string 9 (Finite 6) 1000 None
                  false false None "example"%string)),
     snd (get_game two_matchups))
  /\ exists i m pb pw,
       find_match two_matchups = Some (i, m, pb, pw)
       /\ outstanding_games (snd (get_game two_matchups))
          !! job_game_id _ (mk_Game_job string "0"%string "gnugo --mode gtp"%string "fuego"%string 9 (Finite 6)
                              1000 None false false None "example"%string)
          = Some (id m, pb, pw)
       /\ players two_matchups !! pb
          = Some (job_player_b _ (mk_Game_job string "0"%string "gnugo --mode gtp"%string "fuego"%string 9
                                    (Finite 6) 1000 None false false None "example"%string))
       /\ players two_matchups !! pw
          = Some (job_player_w _ (mk_Game_job string "0"%string "gnugo --mode gtp"%string "fuego"%string 9
                                    (Finite 6) 1000 None false false None "example"%string))
       /\ forall (gr : Game_result) (names descs : gmap string string),
            result_player_b gr = pb -> result_player_w gr = pw ->
            exists t2,
              process_game_result
                (mk_Game_job_result
                   (job_game_id _ (mk_Game_job string "0"%string "gnugo --mode gtp"%string "fuego"%string 9
                                     (Finite 6) 1000 None false false None "example"%string))
                   gr names descs)
                (snd (get_game two_matchups))
              = (inr tt, t2)
              /\ results t2 = results two_matchups ++ [(id m, gr)]
              /\ outstanding_games t2
                 !! job_game_id _ (mk_Game_job string "0"%string "gnugo --mode gtp"%string "fuego"%string 9
                                     (Finite 6) 1000 None false false None "example"%string)
                 = None
              /\ matchups t2 = matchups (snd (get_game two_matchups))
              /\ fst (issue (game_id_allocator two_matchups))
                 ∉ outstanding (game_id_allocator t2).
Proof.
  assert (E : get_game two_matchups
              = (inr (Some (mk_Game_job string "0"%string "gnugo --mode gtp"%string "fuego"%string 9 (Finite 6)
                              1000 None false false None "example"%string)),
                 snd (get_game two_matchups))) by (vm_compute; reflexivity).
  split; [exact E|].
  exact (finished_game_is_recorded two_matchups (snd (get_game two_matchups))
           (mk_Game_job string "0"%string "gnugo --mode gtp"%string "fuego"%string 9 (Finite 6) 1000 None
              false false None "example"%string) E).
Defined.

End TournamentsFacts.
